(** * PPO updater of habitat-baselines (rl/ppo/ppo.py): a shallow embedding

    The development follows [habitat_baselines/rl/ppo/ppo.py].  Tensors are
    flattened to lists.  Floating-point numbers are idealised: arithmetic is
    exact (no rounding, no overflow), finite values are real numbers, and
    where the code handles non-finite entries explicitly ([get_advantages])
    the three IEEE special values are added to the reals.  Library calls
    ([torch.var_mean], [torch.clamp], [clip_grad_norm_], the collective
    [all_reduce]) are modelled after their documented behaviour; the policy
    network, autograd and the optimizer's update rule stay abstract and are
    passed in as a record of functions. *)

From Stdlib Require Import Reals Lra Lia ZArith List String.
From stdpp Require Import gmap strings list fin_maps.

Open Scope R_scope.

(** ** Tensors of finite values *)

(** [t.sum()] *)
Definition tsum (t : list R) : R := foldr Rplus 0 t.

(** [torch.mean(t)]; on the empty tensor torch answers NaN, the model an
    arbitrary real. *)
Definition tmean (t : list R) : R := tsum t / INR (length t).

(** [torch.clamp(x, lo, hi)] = [min(max(x, lo), hi)] *)
Definition clamp (x lo hi : R) : R := Rmin (Rmax x lo) hi.

(** [x.clamp(max=hi)] *)
Definition clamp_max (x hi : R) : R := Rmin x hi.

(** [(a < b).float()] *)
Definition lt_float (a b : R) : R := if Rlt_dec a b then 1 else 0.

(** [torch.where(cond, a, b)] for one element, the condition being [x < y] *)
Definition where_lt (x y a b : R) : R := if Rlt_dec x y then a else b.

(** ** Values that may be non-finite *)

Inductive fp : Type :=
| Fin (r : R)
| PInf
| NInf
| NaN.

(** [torch.isfinite] *)
Definition isfinite (x : fp) : bool :=
  match x with Fin _ => true | _ => false end.

Definition fneg (x : fp) : fp :=
  match x with
  | Fin r => Fin (- r)
  | PInf => NInf
  | NInf => PInf
  | NaN => NaN
  end.

Definition fadd (x y : fp) : fp :=
  match x, y with
  | NaN, _ | _, NaN => NaN
  | Fin a, Fin b => Fin (a + b)
  | PInf, NInf | NInf, PInf => NaN
  | PInf, _ | _, PInf => PInf
  | NInf, _ | _, NInf => NInf
  end.

Definition fsub (x y : fp) : fp := fadd x (fneg y).

(** The infinity whose sign is the sign of [r]; [inf * 0] is NaN. *)
Definition inf_signed (r : R) (pos : bool) : fp :=
  match total_order_T r 0 with
  | inleft (left _) => if pos then NInf else PInf
  | inleft (right _) => NaN
  | inright _ => if pos then PInf else NInf
  end.

Definition fmul (x y : fp) : fp :=
  match x, y with
  | NaN, _ | _, NaN => NaN
  | Fin a, Fin b => Fin (a * b)
  | PInf, Fin r | Fin r, PInf => inf_signed r true
  | NInf, Fin r | Fin r, NInf => inf_signed r false
  | PInf, PInf | NInf, NInf => PInf
  | PInf, NInf | NInf, PInf => NInf
  end.

(** Division; zeros carry no sign in the model, [r / 0] is taken as
    [r / (+0)]. *)
Definition fdiv (x y : fp) : fp :=
  match x, y with
  | NaN, _ | _, NaN => NaN
  | Fin a, Fin b =>
      match Req_dec_T b 0 with
      | left _ => inf_signed a true
      | right _ => Fin (a / b)
      end
  | Fin _, (PInf | NInf) => Fin 0
  | PInf, Fin r =>
      if Rlt_dec r 0 then NInf else PInf
  | NInf, Fin r =>
      if Rlt_dec r 0 then PInf else NInf
  | (PInf | NInf), (PInf | NInf) => NaN
  end.

(** [torch.rsqrt] *)
Definition frsqrt (x : fp) : fp :=
  match x with
  | Fin v =>
      match total_order_T v 0 with
      | inleft (left _) => NaN
      | inleft (right _) => PInf
      | inright _ => Fin (/ sqrt v)
      end
  | PInf => Fin 0
  | NInf | NaN => NaN
  end.

Definition fsum (t : list fp) : fp := foldr fadd (Fin 0) t.

(** [torch.var_mean(x)] with its default correction of one degree of
    freedom: the pair (sample variance, mean) of all entries, the sum of
    squares being divided by [max(0, N - 1)]. *)
Definition var_mean (x : list fp) : fp * fp :=
  let n := INR (length x) in
  let mean := fdiv (fsum x) (Fin n) in
  let sq := map (fun a => fmul (fsub a mean) (fsub a mean)) x in
  (fdiv (fsum sq) (Fin (Rmax 0 (n - 1))), mean).

(** Mean and sample variance of a tensor of finite values. *)
Definition sample_var (x : list R) : R :=
  tsum (map (fun a => (a - tmean x) * (a - tmean x)) x) / (INR (length x) - 1).

(** ** Data model *)

Definition EPS_PPO : R := 1e-5.

(** The two buffers of the rollout storage that the updater reads. *)
Record RolloutStorage := {
  returns : list fp;
  value_preds : list fp;
  (* [Some v] when the storage is a [VERRolloutStorage] *)
  current_policy_version : option R;
}.

(** [isinstance(actor_critic, AttentiveBeliefPolicy)] *)
Inductive PolicyKind := PlainPolicy | AttentiveBelief.

(** What the updater uses of the actor-critic module.  Parameters are named
    as [actor_critic.named_parameters()] names them; the flag is
    [requires_grad].  [num_actions] is [None] when the attribute is absent
    ([hasattr] is false), [action_distribution_type] is
    [getattr(actor_critic, "action_distribution_type", None)]. *)
Record NetPolicy := {
  kind : PolicyKind;
  num_actions : option Z;
  action_distribution_type : option string;
  parameters : list (string * bool);
  policy_parameters : list string;
  aux_loss_parameters : list (string * list string);
}.

(** The arguments [LagrangeInequalityCoefficient] is constructed with. *)
Record LagrangeInequalityCoefficient := {
  threshold : R;
  init_alpha : R;
  alpha_max : R;
  alpha_min : R;
  greater_than : bool;
}.

(** [entropy_coef: Union[float, LagrangeInequalityCoefficient]] *)
Inductive EntropyCoef :=
| FixedCoef (c : R)
| AdaptiveCoef (l : LagrangeInequalityCoefficient).

(** Modelled from the spec: [LagrangeInequalityCoefficient] lives in
    [habitat_baselines.utils.common]; its dual variable is one learnable
    scalar registered with the updater's optimizer. *)
Definition LagrangeInequalityCoefficient_parameters : list (string * bool) :=
  [("alpha", true)].

Record AuxTask := {
  task_parameters : list (string * bool);
}.

Record AuxCfg := {
  aux_entropy_coef : R;
}.

(** [torch.optim.Adam]: the parameters it was given, its hyperparameters and
    its opaque internal state. *)
Definition OptimState := gmap string (list R).

Record Optimizer := {
  param_groups : list string;
  opt_lr : R;
  opt_eps : R;
  opt_state : OptimState;
}.

Record Config := {
  cfg_clip_param : R;
  cfg_ppo_epoch : Z;
  cfg_num_mini_batch : Z;
  cfg_value_loss_coef : R;
  cfg_entropy_coef : R;
  cfg_aux_loss_coef : R;
  cfg_lr : R;
  cfg_eps : R;
  cfg_max_grad_norm : R;
  cfg_use_clipped_value_loss : bool;
  cfg_use_normalized_advantage : bool;
  cfg_entropy_target_factor : R;
  cfg_use_adaptive_entropy_pen : bool;
}.

(** The updater object [self]. *)
Record PPO := {
  actor_critic : NetPolicy;
  clip_param : R;
  ppo_epoch : Z;
  num_mini_batch : Z;
  value_loss_coef : R;
  entropy_coef : EntropyCoef;
  aux_loss_coef : R;
  max_grad_norm : R;
  use_clipped_value_loss : bool;
  _aux_tasks : list AuxTask;
  _aux_names : list string;
  aux_cfg : option AuxCfg;
  use_normalized_advantage : bool;
  optimizer : option Optimizer;
  non_ac_params : list string;
}.

(** ** Construction *)

Definition requires_grad (ps : list (string * bool)) : list string :=
  map fst (List.filter snd ps).

Definition qualify (prefix : string) (ps : list (string * bool))
  : list (string * bool) :=
  map (fun p => (prefix ++ fst p, snd p)%string) ps.

(** [self.named_parameters()] of the updater module: the actor-critic is
    the submodule [actor_critic], an adaptive coefficient the submodule
    [entropy_coef]; the auxiliary tasks are kept in a plain list and are
    not registered. *)
Definition named_parameters (ac : NetPolicy) (ec : EntropyCoef)
  : list (string * bool) :=
  qualify "actor_critic." (parameters ac)
  ++ match ec with
     | FixedCoef _ => []
     | AdaptiveCoef _ =>
         qualify "entropy_coef." LagrangeInequalityCoefficient_parameters
     end.

Definition _create_optimizer (ac : NetPolicy) (ec : EntropyCoef)
    (lr eps : R) (aux_tasks : list AuxTask) : option Optimizer :=
  let params := requires_grad (named_parameters ac ec) in
  let params :=
    if (0 <? length aux_tasks)%nat
    then params ++ flat_map (fun t => requires_grad (task_parameters t)) aux_tasks
    else params in
  if (0 <? length params)%nat
  then Some {| param_groups := params; opt_lr := lr; opt_eps := eps;
               opt_state := ∅ |}
  else None.

Definition __init__ (actor_critic : NetPolicy) (clip_param : R)
    (ppo_epoch num_mini_batch : Z) (value_loss_coef entropy_coef : R)
    (aux_loss_coef lr eps max_grad_norm : R)
    (use_clipped_value_loss use_normalized_advantage : bool)
    (entropy_target_factor : R) (use_adaptive_entropy_pen : bool)
    (aux_tasks : list AuxTask) (aux_names : list string)
    (aux_cfg : option AuxCfg) : PPO :=
  let ec :=
    match use_adaptive_entropy_pen, num_actions actor_critic with
    | true, Some n =>
        if bool_decide (action_distribution_type actor_critic = Some "gaussian"%string)
        then AdaptiveCoef {| threshold := - entropy_target_factor * IZR n;
                             init_alpha := entropy_coef;
                             alpha_max := 1;
                             alpha_min := 1e-4;
                             greater_than := true |}
        else FixedCoef entropy_coef
    | _, _ => FixedCoef entropy_coef
    end in
  let tasks := match aux_cfg with Some _ => aux_tasks | None => [] end in
  let names := match aux_cfg with Some _ => aux_names | None => [] end in
  {| actor_critic := actor_critic;
     clip_param := clip_param;
     ppo_epoch := ppo_epoch;
     num_mini_batch := num_mini_batch;
     value_loss_coef := value_loss_coef;
     entropy_coef := ec;
     aux_loss_coef := aux_loss_coef;
     max_grad_norm := max_grad_norm;
     use_clipped_value_loss := use_clipped_value_loss;
     _aux_tasks := tasks;
     _aux_names := names;
     aux_cfg := aux_cfg;
     use_normalized_advantage := use_normalized_advantage;
     optimizer := _create_optimizer actor_critic ec lr eps tasks;
     non_ac_params :=
       map fst (List.filter
                  (fun p => negb (String.prefix "actor_critic." (fst p)))
                  (named_parameters actor_critic ec)) |}.

Definition from_config (actor_critic : NetPolicy) (config : Config)
    (aux_tasks : list AuxTask) (aux_names : list string)
    (aux_cfg : option AuxCfg) : PPO :=
  __init__ actor_critic
    (cfg_clip_param config)
    (cfg_ppo_epoch config)
    (cfg_num_mini_batch config)
    (cfg_value_loss_coef config)
    (cfg_entropy_coef config)
    0
    (cfg_lr config)
    (cfg_eps config)
    (cfg_max_grad_norm config)
    (cfg_use_clipped_value_loss config)
    (cfg_use_normalized_advantage config)
    (cfg_entropy_target_factor config)
    (cfg_use_adaptive_entropy_pen config)
    aux_tasks aux_names aux_cfg.

(** ** Advantages *)

Definition _compute_var_mean (x : list fp) : fp * fp := var_mean x.

Definition get_advantages (self : PPO) (rollouts : RolloutStorage) : list fp :=
  let advantages := zip_with fsub (returns rollouts) (value_preds rollouts) in
  if negb (use_normalized_advantage self) then advantages
  else
    let '(var, mean) := _compute_var_mean (List.filter isfinite advantages) in
    let advantages := map (fun a => fsub a mean) advantages in
    map (fun a => fmul a (frsqrt (fadd var (Fin EPS_PPO)))) advantages.

(** ** Minibatches and the external collaborators *)

(** A minibatch.  The inputs of the policy evaluation are opaque to the
    updater; the optional fields are [None] when the key is absent. *)
Record Batch := {
  observations : list R;
  recurrent_hidden_states : list R;
  prev_actions : list R;
  masks : list R;
  actions : list R;
  rnn_build_seq_info : option (list R);
  b_action_log_probs : list R;
  b_value_preds : list R;
  b_returns : list R;
  b_advantages : list R;
  is_coeffs : option (list R);
  is_stale : option (list R);
  policy_version : option (list R);
}.

(** The tuple [evaluate_actions] returns: five components for a plain
    policy, eight for an [AttentiveBeliefPolicy]. *)
Inductive EvalResult :=
| Eval5 (values action_log_probs dist_entropy final_rnn_state : list R)
        (aux_loss_res : list (string * gmap string R))
| Eval8 (values action_log_probs dist_entropy final_rnn_state
         rnn_features individual_rnn_features : list R)
        (aux_dist_entropy : option R) (aux_weights : list R).

(** Python exceptions the updater can raise. *)
Inductive exn :=
| NameError | AttributeError | KeyError | IndexError | ValueError | TypeError.

Inductive result (A : Type) :=
| Ok (a : A)
| Raise (e : exn).
Arguments Ok {A} a.
Arguments Raise {A} e.

#[global] Instance result_ret : MRet result := fun _ a => Ok a.

#[global] Instance result_bind : MBind result := fun _ _ k m =>
  match m with
  | Ok a => k a
  | Raise e => Raise e
  end.

(** [returns_with P r]: the computation [r] returns, and its value
    satisfies [P]. *)
Definition returns_with {A} (P : A -> Prop) (r : result A) : Prop :=
  match r with
  | Ok a => P a
  | Raise _ => False
  end.


(** A [for] loop whose body may raise. *)
Fixpoint foldlM {S A} (f : S -> A -> result S) (s : S) (l : list A) : result S :=
  match l with
  | [] => Ok s
  | a :: l => s' ← f s a; foldlM f s' l
  end.

Definition from_option {A} (e : exn) (o : option A) : result A :=
  match o with Some a => Ok a | None => Raise e end.

(** Calls into the collaborators, logged in program order. *)
Inductive Event :=
| EvSetGradsToNone
| EvBackward
| EvDiv (p : string)
| EvAllReduce (p : string)
| EvClipGradNorm (ps : list string)
| EvWait (p : string)
| EvOptimizerStep
| EvProjectIntoBounds.

(** The contents of the parameter objects: [p.data] and [p.grad] under the
    names of [named_parameters] (an absent key is [p.grad is None]), and
    the log of collaborator calls. *)
Record Store := {
  data : gmap string (list R);
  grad : gmap string (list R);
  log : list Event;
}.

(** An initialised [torch.distributed] group as one rank sees it:
    [all_reduce p t] is what the buffer of parameter [p] holds once the
    handle has been waited for, this rank having contributed [t]. *)
Record Dist := {
  world_size : Z;
  all_reduce : string -> list R -> list R;
}.

(** The policy network, autograd, the optimizer's update rule and the
    methods of [LagrangeInequalityCoefficient]. *)
Record Externals := {
  evaluate_actions : gmap string (list R) -> Batch -> EvalResult;
  evaluate_aux_losses :
    gmap string (list R) -> Batch -> list R -> list R -> list R -> list R;
  lagrangian_loss :
    LagrangeInequalityCoefficient -> gmap string (list R) -> R -> R;
  coef_forward : LagrangeInequalityCoefficient -> gmap string (list R) -> R;
  project_into_bounds :
    LagrangeInequalityCoefficient -> gmap string (list R) -> gmap string (list R);
  backward : PPO -> gmap string (list R) -> Batch -> gmap string (list R);
  step :
    Optimizer -> gmap string (list R) -> gmap string (list R)
    -> Optimizer * gmap string (list R);
  data_generator : RolloutStorage -> list fp -> Z -> Z -> list Batch;
}.

(** ** The loss terms of [_update_from_batch] *)

Definition ratio_of (action_log_probs old_action_log_probs : list R) : list R :=
  zip_with (fun new old => exp (new - old)) action_log_probs old_action_log_probs.

(** One element of [-torch.min(surr1, surr2)]. *)
Definition action_loss_elem (clip_param advantage ratio : R) : R :=
  let surr1 := advantage * ratio in
  let surr2 := advantage * clamp ratio (1 - clip_param) (1 + clip_param) in
  - Rmin surr1 surr2.

Definition action_loss_of (clip_param : R) (advantages ratio : list R) : list R :=
  zip_with (action_loss_elem clip_param) advantages ratio.

(** One element of the branch under [if self.use_clipped_value_loss]. *)
Definition clip_value (clip_param value value_pred : R) : R :=
  let delta := value - value_pred in
  let value_pred_clipped := value_pred + clamp delta (- clip_param) clip_param in
  where_lt (Rabs delta) clip_param value value_pred_clipped.

(** [values] as it enters the squared error. *)
Definition selected_values (self : PPO) (values : list R) (batch : Batch) : list R :=
  if use_clipped_value_loss self
  then zip_with (clip_value (clip_param self)) values (b_value_preds batch)
  else values.

(** [0.5 * F.mse_loss(values, batch["returns"], reduction="none")] *)
Definition value_loss_of (self : PPO) (values : list R) (batch : Batch) : list R :=
  zip_with (fun v r => 0.5 * ((v - r) * (v - r)))
           (selected_values self values batch) (b_returns batch).

Definition mean_fn (batch : Batch) : list R -> R :=
  match is_coeffs batch with
  | Some c =>
      let ver_is_coeffs := map (fun x => clamp_max x 1) c in
      fun t => tmean (zip_with Rmult ver_is_coeffs t)
  | None => tmean
  end.

(** [(ratio > 1 + clip).float().mean() + (ratio < 1 - clip).float().mean()] *)
Definition fraction_clipped (clip_param : R) (ratio : list R) : R :=
  tmean (map (fun r => lt_float (1 + clip_param) r) ratio)
  + tmean (map (fun r => lt_float r (1 - clip_param)) ratio).

(** ** Gradient synchronisation and clipping *)

Definition set_grad (g : gmap string (list R)) (st : Store) : Store :=
  {| data := data st; grad := g; log := log st |}.

Definition emit (es : list Event) (st : Store) : Store :=
  {| data := data st; grad := grad st; log := log st ++ es |}.

Definition _set_grads_to_none (self : PPO) (st : Store) : result Store :=
  opt ← from_option AttributeError (optimizer self);
  Ok (emit [EvSetGradsToNone]
        (set_grad (foldl (fun g p => delete p g) (grad st) (param_groups opt)) st)).

(** [torch.nn.utils.clip_grad_norm_(parameters, max_norm)]: the 2-norm over
    all present gradients of the group, every one of them scaled by
    [min(max_norm / (total_norm + 1e-6), 1)]; returns the norm. *)
Definition clip_grad_norm_ (ps : list string) (max_norm : R) (st : Store)
  : Store * R :=
  let grads := omap (fun p => grad st !! p) ps in
  let total_norm :=
    sqrt (tsum (map (fun g => tsum (map (fun x => x * x) g)) grads)) in
  let clip_coef := max_norm / (total_norm + 1e-6) in
  let clip_coef_clamped := clamp_max clip_coef 1 in
  (emit [EvClipGradNorm ps]
     (set_grad
        (foldl (fun g p => alter (map (fun x => x * clip_coef_clamped)) p g)
               (grad st) ps) st),
   total_norm).

(** The parameters of the actor-critic under the updater's names. *)
Definition ac_names (ps : list string) : list string :=
  map (fun n => ("actor_critic." ++ n)%string) ps.

(** The body of [for p in self.non_ac_params]: the handle keeps the
    parameter and the tensor handed to the collective. *)
Definition sync_grad (d : Dist) (acc : Store * list (string * list R))
    (p : string) : Store * list (string * list R) :=
  match grad acc.1 !! p with
  | Some g =>
      let g' := map (fun x => x / IZR (world_size d)) g in
      (emit [EvDiv p; EvAllReduce p] (set_grad (<[p := g']> (grad acc.1)) acc.1),
       acc.2 ++ [(p, g')])
  | None => acc
  end.

(** [h.wait()] *)
Definition wait (d : Dist) (st : Store) (h : string * list R) : Store :=
  emit [EvWait h.1] (set_grad (<[h.1 := all_reduce d h.1 h.2]> (grad st)) st).

Definition before_step (self : PPO) (dist : option Dist) (st : Store)
  : Store * R :=
  let '(st, handles) :=
    match dist with
    | Some d => foldl (sync_grad d) (st, []) (non_ac_params self)
    | None => (st, [])
    end in
  let '(st, grad_norm) :=
    clip_grad_norm_ (ac_names (policy_parameters (actor_critic self)))
                    (max_grad_norm self) st in
  let st :=
    foldl (fun st v => (clip_grad_norm_ (ac_names v.2) (max_grad_norm self) st).1)
          st (aux_loss_parameters (actor_critic self)) in
  let st :=
    match dist with
    | Some d => foldl (wait d) st handles
    | None => st
    end in
  (st, grad_norm).

Definition after_step (ext : Externals) (self : PPO) (st : Store) : Store :=
  match entropy_coef self with
  | AdaptiveCoef l =>
      emit [EvProjectIntoBounds]
        {| data := project_into_bounds ext l (data st);
           grad := grad st; log := log st |}
  | FixedCoef _ => st
  end.

Definition before_backward (loss : R) : R := loss.

(** ** One minibatch update *)

(** [learner_metrics[k].append(v)] on a [defaultdict(list)]; a value is
    [None] or a number. *)
Definition append_metric (k : string) (v : option R)
    (m : gmap string (list (option R))) : gmap string (list (option R)) :=
  <[k := m !!! k ++ [v]]> m.

Definition tmin (t : list R) : R :=
  match t with [] => 0 | x :: r => foldr Rmin x r end.

Definition tmax (t : list R) : R :=
  match t with [] => 0 | x :: r => foldr Rmax x r end.

Definition record_min_mean_max (t : list R) (prefix : string)
    (m : gmap string (list (option R))) : gmap string (list (option R)) :=
  foldl (fun m (nop : string * (list R -> R)) =>
           append_metric (prefix ++ "_" ++ nop.1) (Some (nop.2 t)) m)
        m [("min"%string, tmin); ("mean"%string, tmean); ("max"%string, tmax)].

(** What the unpacking of the evaluation result binds: [aux_loss_res] only
    for a plain policy, the recurrent features and [aux_weights] only for
    an attentive one. *)
Record Evaluated := {
  e_values : list R;
  e_action_log_probs : list R;
  e_dist_entropy : list R;
  e_final_rnn_state : list R;
  e_aux_loss_res : option (list (string * gmap string R));
  e_rnn_features : option (list R * list R);
  e_aux_dist_entropy : option R;
  e_aux_weights : option (list R);
}.

Definition unpack (k : PolicyKind) (r : EvalResult) : result Evaluated :=
  match k, r with
  | AttentiveBelief, Eval8 v lp ent fin rf irf ade aw =>
      Ok {| e_values := v; e_action_log_probs := lp; e_dist_entropy := ent;
            e_final_rnn_state := fin; e_aux_loss_res := None;
            e_rnn_features := Some (rf, irf); e_aux_dist_entropy := ade;
            e_aux_weights := Some aw |}
  | PlainPolicy, Eval5 v lp ent fin res =>
      Ok {| e_values := v; e_action_log_probs := lp; e_dist_entropy := ent;
            e_final_rnn_state := fin; e_aux_loss_res := Some res;
            e_rnn_features := None; e_aux_dist_entropy := None;
            e_aux_weights := None |}
  | _, _ => Raise ValueError
  end.

(** The three elementwise terms, each reduced by the same [mean_fn]:
    [map(mean_fn, (action_loss, value_loss, dist_entropy))]. *)
Definition reduced_losses (self : PPO) (batch : Batch) (ev : Evaluated)
  : R * R * R :=
  let ratio := ratio_of (e_action_log_probs ev) (b_action_log_probs batch) in
  let action_loss := action_loss_of (clip_param self) (b_advantages batch) ratio in
  let value_loss := value_loss_of self (e_values ev) batch in
  let mean_fn := mean_fn batch in
  (mean_fn action_loss, mean_fn value_loss, mean_fn (e_dist_entropy ev)).

Definition is_attentive (self : PPO) : bool :=
  match kind (actor_critic self) with
  | AttentiveBelief => true
  | PlainPolicy => false
  end.

(** [aux_losses], the list of the auxiliary losses: empty unless the
    policy is attentive and auxiliary tasks are registered. *)
Definition aux_losses_of (ext : Externals) (self : PPO)
    (w : gmap string (list R)) (batch : Batch) (ev : Evaluated)
  : result (list R) :=
  if is_attentive self && (0 <? length (_aux_tasks self))%nat
  then
    '(rf, irf) ← from_option NameError (e_rnn_features ev);
    Ok (evaluate_aux_losses ext w batch (e_final_rnn_state ev) rf irf)
  else Ok [].

(** The entries of [all_losses], in order, from the three reduced terms. *)
Definition all_losses_of (ext : Externals) (self : PPO)
    (w : gmap string (list R)) (ev : Evaluated) (aux_losses : list R)
    (value_loss action_loss dist_entropy : R) : result (list R) :=
  let total_aux_loss := tsum aux_losses in
  let all_losses := [value_loss_coef self * value_loss; action_loss] in
  let all_losses :=
    if is_attentive self
    then all_losses ++ [total_aux_loss * aux_loss_coef self]
    else all_losses in
  let all_losses :=
    all_losses ++
    [match entropy_coef self with
     | FixedCoef c => - c * dist_entropy
     | AdaptiveCoef l => lagrangian_loss ext l w dist_entropy
     end] in
  all_losses ←
    match e_aux_dist_entropy ev with
    | Some ade =>
        cfg ← from_option AttributeError (aux_cfg self);
        Ok (all_losses ++ [ade * aux_entropy_coef cfg])
    | None => Ok all_losses
    end;
  if (length (_aux_tasks self) =? 0)%nat
  then
    res ← from_option NameError (e_aux_loss_res ev);
    ls ← mapM (fun v : string * gmap string R =>
                 from_option KeyError (v.2 !! "loss"%string)) res;
    Ok (all_losses ++ ls)
  else Ok all_losses.

Definition nth_name (names : list string) (i : nat) : result string :=
  from_option IndexError (names !! i).

(** The metrics recorded under [inference_mode] after the step. *)
Definition record_metrics (ext : Externals) (self : PPO) (batch : Batch)
    (epoch : Z) (rollouts : RolloutStorage) (ev : Evaluated)
    (ratio aux_losses : list R) (value_loss action_loss dist_entropy grad_norm : R)
    (w : gmap string (list R)) (m : gmap string (list (option R)))
  : result (gmap string (list (option R))) :=
  let m :=
    match is_coeffs batch with
    | Some c => record_min_mean_max c "ver_is_coeffs" m
    | None => m
    end in
  let m := record_min_mean_max (e_values ev) "value_pred" m in
  let m := record_min_mean_max ratio "prob_ratio" m in
  let m := append_metric "value_loss" (Some value_loss) m in
  let m := append_metric "action_loss" (Some action_loss) m in
  let m := append_metric "dist_entropy" (Some dist_entropy) m in
  let m :=
    if (epoch =? ppo_epoch self - 1)%Z
    then append_metric "ppo_fraction_clipped"
           (Some (fraction_clipped (clip_param self) ratio)) m
    else m in
  let m := append_metric "grad_norm" (Some grad_norm) m in
  let m :=
    match entropy_coef self with
    | AdaptiveCoef l => append_metric "entropy_coef" (Some (coef_forward ext l w)) m
    | FixedCoef _ => m
    end in
  m ←
    (if (length (_aux_tasks self) =? 0)%nat
     then
       res ← from_option NameError (e_aux_loss_res ev);
       Ok (foldl (fun m (nr : string * gmap string R) =>
                    foldl (fun m (kv : string * R) =>
                             append_metric ("aux_" ++ nr.1 ++ "_" ++ kv.1)
                                           (Some kv.2) m)
                          m (map_to_list nr.2))
                 m res)
     else
       let m := append_metric "aux_entropy" (e_aux_dist_entropy ev) m in
       m ← foldlM (fun m (il : nat * R) =>
                     n ← nth_name (_aux_names self) il.1;
                     Ok (append_metric ("aux_entropy_" ++ n) (Some il.2) m))
                  m (imap pair aux_losses);
       aw ← from_option NameError (e_aux_weights ev);
       foldlM (fun m (iw : nat * R) =>
                 n ← nth_name (_aux_names self) iw.1;
                 Ok (append_metric ("aux_weights_" ++ n) (Some iw.2) m))
              m (imap pair aw));
  let m :=
    match is_stale batch with
    | Some s => append_metric "fraction_stale" (Some (tmean s)) m
    | None => m
    end in
  match current_policy_version rollouts with
  | Some cur =>
      pv ← from_option KeyError (policy_version batch);
      Ok (record_min_mean_max (map (fun v => cur - v) pv)
                              "policy_version_difference" m)
  | None => Ok m
  end.

Definition set_optimizer (o : option Optimizer) (self : PPO) : PPO :=
  {| actor_critic := actor_critic self;
     clip_param := clip_param self;
     ppo_epoch := ppo_epoch self;
     num_mini_batch := num_mini_batch self;
     value_loss_coef := value_loss_coef self;
     entropy_coef := entropy_coef self;
     aux_loss_coef := aux_loss_coef self;
     max_grad_norm := max_grad_norm self;
     use_clipped_value_loss := use_clipped_value_loss self;
     _aux_tasks := _aux_tasks self;
     _aux_names := _aux_names self;
     aux_cfg := aux_cfg self;
     use_normalized_advantage := use_normalized_advantage self;
     optimizer := o;
     non_ac_params := non_ac_params self |}.

(** [total_loss.backward()]: autograd adds the gradient of every parameter
    the loss depends on to its [grad]. *)
Definition run_backward (ext : Externals) (self : PPO) (batch : Batch)
    (st : Store) : Store :=
  emit [EvBackward]
    (set_grad (union_with (fun a b => Some (zip_with Rplus a b))
                          (grad st) (backward ext self (data st) batch)) st).

(** [self.optimizer.step()] *)
Definition optimizer_step (ext : Externals) (self : PPO) (st : Store)
  : result (PPO * Store) :=
  opt ← from_option AttributeError (optimizer self);
  let '(opt, w) := step ext opt (data st) (grad st) in
  Ok (set_optimizer (Some opt) self,
      emit [EvOptimizerStep] {| data := w; grad := grad st; log := log st |}).

Definition _update_from_batch (ext : Externals) (self : PPO)
    (dist : option Dist) (batch : Batch) (epoch : Z)
    (rollouts : RolloutStorage)
    (learner_metrics : gmap string (list (option R))) (st : Store)
  : result (PPO * Store * gmap string (list (option R))) :=
  st ← _set_grads_to_none self st;
  ev ← unpack (kind (actor_critic self)) (evaluate_actions ext (data st) batch);
  let ratio := ratio_of (e_action_log_probs ev) (b_action_log_probs batch) in
  let '(action_loss, value_loss, dist_entropy) := reduced_losses self batch ev in
  aux_losses ← aux_losses_of ext self (data st) batch ev;
  all_losses ← all_losses_of ext self (data st) ev aux_losses
                 value_loss action_loss dist_entropy;
  let total_loss := before_backward (tsum all_losses) in
  let st := run_backward ext self batch st in
  let '(st, grad_norm) := before_step self dist st in
  '(self, st) ← optimizer_step ext self st;
  let st := after_step ext self st in
  m ← record_metrics ext self batch epoch rollouts ev ratio aux_losses
        value_loss action_loss dist_entropy grad_norm (data st) learner_metrics;
  Ok (self, st, m).

(** ** The update loop *)

(** [range(n)] *)
Definition range (n : Z) : list Z := map Z.of_nat (seq 0 (Z.to_nat n)).

(** The mean of one metric sequence; a [None] entry cannot be turned into
    a tensor. *)
Definition reduce_metric (vs : list (option R)) : result R :=
  xs ← mapM (from_option TypeError) vs;
  Ok (tmean xs).

Definition reduce_metrics (m : gmap string (list (option R)))
  : result (gmap string R) :=
  kvs ← mapM (fun kv : string * list (option R) =>
                v ← reduce_metric kv.2; Ok (kv.1, v))
             (map_to_list m);
  Ok (list_to_map kvs).

(** The body of [for epoch in range(self.ppo_epoch)]: one pass over the
    minibatches the sampler draws for this epoch. *)
Definition update_epoch (ext : Externals) (dist : option Dist)
    (rollouts : RolloutStorage) (advantages : list fp)
    (acc : PPO * Store * gmap string (list (option R))) (epoch : Z)
  : result (PPO * Store * gmap string (list (option R))) :=
  foldlM (fun (acc : PPO * Store * gmap string (list (option R))) batch =>
            _update_from_batch ext acc.1.1 dist batch epoch rollouts
                               acc.2 acc.1.2)
         acc
         (data_generator ext rollouts advantages (num_mini_batch acc.1.1) epoch).

(** The two nested loops of [update], with [learner_metrics] as they stand
    before the final reduction. *)
Definition update_loop (ext : Externals) (self : PPO) (dist : option Dist)
    (rollouts : RolloutStorage) (st : Store)
  : result (PPO * Store * gmap string (list (option R))) :=
  let advantages := get_advantages self rollouts in
  let learner_metrics : gmap string (list (option R)) := ∅ in
  foldlM (update_epoch ext dist rollouts advantages)
         (self, st, learner_metrics) (range (ppo_epoch self)).

Definition update (ext : Externals) (self : PPO) (dist : option Dist)
    (rollouts : RolloutStorage) (st : Store)
  : result (PPO * Store * gmap string R) :=
  '(self, st, learner_metrics) ← update_loop ext self dist rollouts st;
  st ← _set_grads_to_none self st;
  r ← reduce_metrics learner_metrics;
  Ok (self, st, r).

(** ** Resume state *)

Definition get_resume_state (self : PPO) : result (gmap string OptimState) :=
  opt ← from_option AttributeError (optimizer self);
  Ok {[ "optim_state"%string := opt_state opt ]}.

(** [optimizer.load_state_dict(s)] *)
Definition optimizer_load_state_dict (s : OptimState) (opt : Optimizer)
  : Optimizer :=
  {| param_groups := param_groups opt; opt_lr := opt_lr opt;
     opt_eps := opt_eps opt; opt_state := s |}.

Definition load_state_dict (self : PPO) (state : gmap string OptimState)
  : result PPO :=
  match state !! "optim_state"%string with
  | Some s =>
      opt ← from_option AttributeError (optimizer self);
      Ok (set_optimizer (Some (optimizer_load_state_dict s opt)) self)
  | None => Ok self
  end.

(** ** Several ranks running the same program *)

(** The tensors a rank hands to the collective during [before_step]. *)
Definition contributions (self : PPO) (ws : Z) (st : Store)
  : list (string * list R) :=
  (foldl (sync_grad {| world_size := ws; all_reduce := fun _ t => t |})
         (st, []) (non_ac_params self)).2.

(** A group of [1 + length peers] ranks as one of them sees it: the sum
    all-reduce adds to the tensor of this rank the tensors that the peers,
    running [before_step] on their own stores, hand in for the same
    parameter.  A peer that holds no gradient for the parameter hands in
    nothing; the real collective would not complete in that case. *)
Definition spmd (self : PPO) (peers : list Store) : Dist :=
  let ws := Z.of_nat (S (length peers)) in
  {| world_size := ws;
     all_reduce := fun p t =>
       foldl (fun acc peer =>
                match (list_to_map (contributions self ws peer)
                         : gmap string (list R)) !! p with
                | Some c => zip_with Rplus acc c
                | None => acc
                end)
             t peers |}.

(** The handles [before_step] collects on a store: one for every parameter
    of [ps] with a gradient, holding the gradient divided by the world
    size. *)
Definition issued (d : Dist) (st : Store) (ps : list string)
  : list (string * list R) :=
  omap (fun p => (fun g => (p, map (fun x => x / IZR (world_size d)) g))
                   <$> grad st !! p) ps.

(** A monitor for the log: the reductions in flight after [evs], starting
    from [pending]; [None] when an optimizer step ran while a reduction was
    still in flight. *)
Fixpoint in_flight_after (evs : list Event) (pending : list string)
  : option (list string) :=
  match evs with
  | [] => Some pending
  | EvAllReduce p :: evs => in_flight_after evs (p :: pending)
  | EvWait p :: evs =>
      in_flight_after evs (List.filter (fun q => negb (String.eqb p q)) pending)
  | EvOptimizerStep :: evs =>
      match pending with
      | [] => in_flight_after evs []
      | _ :: _ => None
      end
  | _ :: evs => in_flight_after evs pending
  end.


(** The events of one call of [before_step] that collected the handles
    [hs]: the divisions and the issued reductions, the clipping of the
    policy group and of every auxiliary group, then the waits. *)
Definition before_step_events (self : PPO) (hs : list (string * list R))
  : list Event :=
  flat_map (fun h : string * list R => [EvDiv h.1; EvAllReduce h.1]) hs
  ++ EvClipGradNorm (ac_names (policy_parameters (actor_critic self)))
     :: map (fun v : string * list string => EvClipGradNorm (ac_names v.2))
            (aux_loss_parameters (actor_critic self))
  ++ map (fun h : string * list R => EvWait h.1) hs.


(** The events a call appended to the log. *)
Definition new_events (before after : Store) : list Event :=
  drop (length (log before)) (log after).

(** Every all-reduce issued in [evs] has been waited for by the end of
    [evs], and before any optimizer step in [evs]. *)
Definition awaited_before_step (evs : list Event) : Prop :=
  in_flight_after evs [] = Some [].

(** What [__init__] guarantees about [non_ac_params]: distinct parameters,
    none of them a parameter of the [actor_critic] submodule. *)
Definition non_ac_params_ok (self : PPO) : Prop :=
  NoDup (non_ac_params self) /\
  Forall (fun p => String.prefix "actor_critic." p = false) (non_ac_params self).

(** A setting in which a minibatch update raises nothing: a plain policy
    whose evaluation returns five components with a [loss] entry in every
    auxiliary result, no registered auxiliary task, an optimizer, and a
    rollout storage that is not a [VERRolloutStorage]. *)
Definition plain_setting (ext : Externals) (self : PPO)
    (rollouts : RolloutStorage) : Prop :=
  is_Some (optimizer self) /\
  kind (actor_critic self) = PlainPolicy /\
  _aux_tasks self = [] /\
  current_policy_version rollouts = None /\
  forall w b, exists v lp ent fin res,
    evaluate_actions ext w b = Eval5 v lp ent fin res /\
    Forall (fun r : string * gmap string R => is_Some (r.2 !! "loss"%string)) res.


(** The number of minibatches one [update] goes through: those the sampler
    yields in each of the epochs. *)
Definition minibatches (ext : Externals) (self : PPO)
    (rollouts : RolloutStorage) : nat :=
  list_sum (map (fun e => length (data_generator ext rollouts
                                    (get_advantages self rollouts)
                                    (num_mini_batch self) e))
                (range (ppo_epoch self))).


(** No entry of the metrics is [None]. *)
Definition all_numbers (m : gmap string (list (option R))) : Prop :=
  forall (k : string) (vs : list (option R)),
    m !! k = Some vs -> Forall is_Some vs.


(** The 2-norm over the present gradients of a parameter group, as
    [clip_grad_norm_] measures it. *)
Definition group_norm (ps : list string) (st : Store) : R :=
  sqrt (tsum (map (fun g => tsum (map (fun x => x * x) g))
                  (omap (fun p => grad st !! p) ps))).


(** ** Concrete objects for the examples *)

Definition demo_policy : NetPolicy :=
  {| kind := PlainPolicy;
     num_actions := Some 2%Z;
     action_distribution_type := Some "gaussian"%string;
     parameters := [("net.weight"%string, true); ("critic.bias"%string, true)];
     policy_parameters := ["net.weight"%string; "critic.bias"%string];
     aux_loss_parameters := [] |}.

Definition demo_attentive_policy : NetPolicy :=
  {| kind := AttentiveBelief;
     num_actions := None;
     action_distribution_type := Some "categorical"%string;
     parameters := [("net.weight"%string, true); ("aux.weight"%string, true)];
     policy_parameters := ["net.weight"%string];
     aux_loss_parameters := [("cpc"%string, ["aux.weight"%string])] |}.

Definition demo_config : Config :=
  {| cfg_clip_param := 0.2;
     cfg_ppo_epoch := 2;
     cfg_num_mini_batch := 1;
     cfg_value_loss_coef := 0.5;
     cfg_entropy_coef := 0.01;
     cfg_aux_loss_coef := 0.5;
     cfg_lr := 2.5e-4;
     cfg_eps := 1e-5;
     cfg_max_grad_norm := 0.2;
     cfg_use_clipped_value_loss := true;
     cfg_use_normalized_advantage := true;
     cfg_entropy_target_factor := 0.5;
     cfg_use_adaptive_entropy_pen := true |}.

Definition demo_ppo : PPO := from_config demo_policy demo_config [] [] None.

Definition demo_rollouts (returns value_preds : list fp) : RolloutStorage :=
  {| returns := returns; value_preds := value_preds;
     current_policy_version := None |}.


Definition demo_batch (is_coeffs : option (list R)) : Batch :=
  {| observations := []; recurrent_hidden_states := []; prev_actions := [];
     masks := [1; 1]; actions := [0; 1]; rnn_build_seq_info := None;
     b_action_log_probs := [-1; -2];
     b_value_preds := [1; 1];
     b_returns := [2; 0];
     b_advantages := [1; -1];
     is_coeffs := is_coeffs; is_stale := None; policy_version := None |}.

Definition demo_eval_result : EvalResult :=
  Eval5 [1.1; 3] [-1; -2] [0.5; 0.7] [] [].

Definition demo_evaluated : Evaluated :=
  {| e_values := [1.1; 3]; e_action_log_probs := [-1; -2];
     e_dist_entropy := [0.5; 0.7]; e_final_rnn_state := [];
     e_aux_loss_res := Some []; e_rnn_features := None;
     e_aux_dist_entropy := None; e_aux_weights := None |}.

Definition demo_externals : Externals :=
  {| evaluate_actions := fun _ _ => demo_eval_result;
     evaluate_aux_losses := fun _ _ _ _ _ => [2];
     lagrangian_loss := fun l _ e => init_alpha l * (e - threshold l);
     coef_forward := fun l _ => init_alpha l;
     project_into_bounds := fun _ w => w;
     backward := fun _ _ _ => {[ "actor_critic.net.weight"%string := [3; 4];
                                 "entropy_coef.alpha"%string := [1] ]};
     step := fun o w _ => (o, w);
     data_generator := fun _ _ _ _ => [demo_batch None] |}.

Definition demo_aux_task : AuxTask :=
  {| task_parameters := [("cpc.weight"%string, true)] |}.

Definition demo_aux_cfg : AuxCfg := {| aux_entropy_coef := 0.1 |}.

Definition demo_attentive_ppo : PPO :=
  from_config demo_attentive_policy demo_config
    [demo_aux_task] ["cpc"%string] (Some demo_aux_cfg).

Definition demo_attentive_evaluated : Evaluated :=
  {| e_values := [1.1; 3]; e_action_log_probs := [-1; -2];
     e_dist_entropy := [0.5; 0.7]; e_final_rnn_state := [];
     e_aux_loss_res := None; e_rnn_features := Some ([], []);
     e_aux_dist_entropy := Some 0.3; e_aux_weights := Some [1] |}.


(** A policy all of whose parameters are frozen ([requires_grad] off), and
    the updater [from_config] builds for it: no parameter is left to
    train. *)
Definition demo_frozen_policy : NetPolicy :=
  {| kind := PlainPolicy;
     num_actions := None;
     action_distribution_type := Some "categorical"%string;
     parameters := [("net.weight"%string, false); ("critic.bias"%string, false)];
     policy_parameters := ["net.weight"%string; "critic.bias"%string];
     aux_loss_parameters := [] |}.

Definition demo_frozen_ppo : PPO :=
  from_config demo_frozen_policy demo_config [] [] None.

(** The store of a rank that holds a gradient for the weight of the
    auxiliary task. *)
Definition demo_aux_rank_store (g : list R) : Store :=
  {| data := ∅; grad := {[ "cpc.weight"%string := g ]}; log := [] |}.

(** The parameter store of one rank: a gradient for the entropy
    coefficient and one for a weight of the policy. *)
Definition demo_rank_store (g : list R) : Store :=
  {| data := ∅;
     grad := {[ "entropy_coef.alpha"%string := g;
                "actor_critic.net.weight"%string := [3; 4] ]};
     log := [] |}.


Definition demo_store : Store := {| data := ∅; grad := ∅; log := [] |}.

#[global] Instance Rlt_decision (a b : R) : Decision (a < b) := Rlt_dec a b.


(** * Properties *)

(** ** Sums, means and variances *)

Lemma tsum_cons (a : R) (l : list R) : tsum (a :: l) = a + tsum l.
Proof. reflexivity. Qed.

Lemma tsum_scale (c k : R) (l : list R) :
  tsum (map (fun a => (a - c) * k) l) = (tsum l - INR (length l) * c) * k.
Proof.
  induction l as [|a l IH].
  - simpl. ring.
  - rewrite map_cons, !tsum_cons, IH.
    change (length (a :: l)) with (S (length l)). rewrite S_INR. ring.
Qed.

Lemma tsum_nonneg (l : list R) : Forall (fun x => 0 <= x) l -> 0 <= tsum l.
Proof.
  induction 1 as [|x l Hx _ IH]; simpl.
  - lra.
  - lra.
Qed.

Lemma tsum_map_mult_r (f : R -> R) (k : R) (l : list R) :
  tsum (map (fun a => f a * k) l) = tsum (map f l) * k.
Proof.
  induction l as [|a l IH]; simpl.
  - ring.
  - rewrite IH. ring.
Qed.

Lemma INR_length_pos {A} (l : list A) : (1 <= length l)%nat -> 0 < INR (length l).
Proof. intros H. apply lt_0_INR. lia. Qed.

Lemma INR_length_ge_2 {A} (l : list A) : (2 <= length l)%nat -> 1 <= INR (length l) - 1.
Proof.
  intros H. apply le_INR in H. simpl in H. lra.
Qed.

Lemma sample_var_nonneg (l : list R) : (2 <= length l)%nat -> 0 <= sample_var l.
Proof.
  intros H. unfold sample_var.
  pose proof (INR_length_ge_2 l H) as Hn.
  apply Rmult_le_pos.
  - apply tsum_nonneg. apply Forall_forall. intros x Hx.
    apply list_elem_of_In, in_map_iff in Hx as [a [<- _]].
    apply Rle_0_sqr.
  - left. apply Rinv_0_lt_compat. lra.
Qed.

(** Shifting by the mean and scaling centres the batch. *)
Lemma tmean_normalized (l : list R) (k : R) :
  (1 <= length l)%nat ->
  tmean (map (fun a => (a - tmean l) * k) l) = 0.
Proof.
  intros H. pose proof (INR_length_pos l H) as Hn.
  unfold tmean at 1. rewrite tsum_scale, length_map.
  unfold tmean. field. lra.
Qed.

(** ... and multiplies the sample variance by the square of the scale. *)
Lemma sample_var_normalized (l : list R) (k : R) :
  (1 <= length l)%nat ->
  sample_var (map (fun a => (a - tmean l) * k) l) = sample_var l * (k * k).
Proof.
  intros H. unfold sample_var at 1.
  rewrite (tmean_normalized l k H), length_map, map_map.
  rewrite (map_ext _ (fun a => (a - tmean l) * (a - tmean l) * (k * k))).
  - rewrite tsum_map_mult_r. unfold sample_var, Rdiv. ring.
  - intros a. ring.
Qed.

(** ** Arithmetic with non-finite values *)

Lemma fsum_Fin (l : list R) : fsum (map Fin l) = Fin (tsum l).
Proof.
  induction l as [|a l IH]; [reflexivity|].
  change (fsum (map Fin (a :: l))) with (fadd (Fin a) (fsum (map Fin l))).
  rewrite IH. reflexivity.
Qed.

Lemma filter_isfinite_Fin (l : list R) :
  List.filter isfinite (map Fin l) = map Fin l.
Proof.
  induction l as [|a l IH]; [reflexivity|]. simpl. now rewrite IH.
Qed.

Lemma fdiv_Fin (a b : R) : b <> 0 -> fdiv (Fin a) (Fin b) = Fin (a / b).
Proof.
  intros Hb. unfold fdiv. destruct (Req_dec_T b 0) as [E|_]; [contradiction|].
  reflexivity.
Qed.

Lemma frsqrt_Fin (v : R) : 0 < v -> frsqrt (Fin v) = Fin (/ sqrt v).
Proof.
  intros Hv. unfold frsqrt.
  destruct (total_order_T v 0) as [[H|H]|H]; try lra. reflexivity.
Qed.



Lemma var_mean_Fin (l : list R) :
  (2 <= length l)%nat ->
  var_mean (map Fin l) = (Fin (sample_var l), Fin (tmean l)).
Proof.
  intros H. pose proof (INR_length_ge_2 l H) as Hn.
  unfold var_mean. rewrite length_map, fsum_Fin.
  rewrite fdiv_Fin by lra. fold (tmean l).
  rewrite map_map. simpl.
  rewrite <- (map_map (fun a => (a + - tmean l) * (a + - tmean l)) Fin), fsum_Fin.
  rewrite Rmax_right by lra. rewrite fdiv_Fin by lra. reflexivity.
Qed.

Lemma EPS_PPO_pos : 0 < EPS_PPO.
Proof. unfold EPS_PPO. lra. Qed.

(** The normalised advantages of an all-finite batch. *)
Lemma get_advantages_Fin (self : PPO) (rollouts : RolloutStorage) (xs : list R) :
  use_normalized_advantage self = true ->
  zip_with fsub (returns rollouts) (value_preds rollouts) = map Fin xs ->
  (2 <= length xs)%nat ->
  get_advantages self rollouts =
  map Fin (map (fun a => (a - tmean xs) * / sqrt (sample_var xs + EPS_PPO)) xs).
Proof.
  intros Hn Hraw Hlen. unfold get_advantages, _compute_var_mean.
  rewrite Hn, Hraw, filter_isfinite_Fin, var_mean_Fin by exact Hlen.
  cbv beta iota zeta. change (negb true) with false. cbv iota.
  change (fadd (Fin (sample_var xs)) (Fin EPS_PPO))
    with (Fin (sample_var xs + EPS_PPO)).
  pose proof (sample_var_nonneg xs Hlen). pose proof EPS_PPO_pos.
  rewrite frsqrt_Fin by lra. rewrite !map_map. reflexivity.
Qed.

(** Mean and sample variance of the normalised advantages of an all-finite
    batch. *)
Lemma get_advantages_Fin_moments (self : PPO) (rollouts : RolloutStorage)
    (xs : list R) :
  use_normalized_advantage self = true ->
  zip_with fsub (returns rollouts) (value_preds rollouts) = map Fin xs ->
  (2 <= length xs)%nat ->
  exists ys, get_advantages self rollouts = map Fin ys /\ tmean ys = 0 /\
    sample_var ys = sample_var xs / (sample_var xs + EPS_PPO).
Proof.
  intros Hon Hxs Hlen.
  exists (map (fun a => (a - tmean xs) * / sqrt (sample_var xs + EPS_PPO)) xs).
  split; [|split].
  - now apply get_advantages_Fin.
  - apply tmean_normalized. lia.
  - rewrite sample_var_normalized by lia.
    pose proof (sample_var_nonneg xs Hlen). pose proof EPS_PPO_pos.
    rewrite <- Rinv_mult, sqrt_sqrt by lra. reflexivity.
Qed.

(** ** Advantage normalisation *)








(** ** The value loss *)

Lemma clip_value_inside (c v old : R) :
  Rabs (v - old) < c -> clip_value c v old = v.
Proof.
  intros H. unfold clip_value, where_lt.
  destruct (Rlt_dec (Rabs (v - old)) c); [reflexivity|contradiction].
Qed.

Lemma clip_value_outside (c v old : R) :
  ~ Rabs (v - old) < c ->
  clip_value c v old = old + clamp (v - old) (- c) c.
Proof.
  intros H. unfold clip_value, where_lt.
  destruct (Rlt_dec (Rabs (v - old)) c); [contradiction|reflexivity].
Qed.

(** C2.  With [use_clipped_value_loss] and a positive [clip_param], the
    value that enters the squared error is chosen per element: the new
    value itself when [|new - old| < clip_param] (strictly), whatever the
    two losses are, and [old + clamp(new - old, -clip, clip)] otherwise;
    the value loss of the element is half the squared error between the
    chosen value and the return. *)
Theorem value_loss_clip_selection (self : PPO) (values : list R)
    (batch : Batch) (i : nat) (v old ret : R) :
  use_clipped_value_loss self = true ->
  0 < clip_param self ->
  values !! i = Some v ->
  b_value_preds batch !! i = Some old ->
  b_returns batch !! i = Some ret ->
  exists sel,
    selected_values self values batch !! i = Some sel /\
    value_loss_of self values batch !! i = Some (0.5 * ((sel - ret) * (sel - ret))) /\
    (Rabs (v - old) < clip_param self -> sel = v) /\
    (~ Rabs (v - old) < clip_param self ->
       sel = old + clamp (v - old) (- clip_param self) (clip_param self)).
Proof.
  intros Hclip _ Hv Hold Hret.
  exists (clip_value (clip_param self) v old).
  assert (Hsel : selected_values self values batch !! i
                 = Some (clip_value (clip_param self) v old)).
  { unfold selected_values. rewrite Hclip.
    apply lookup_zip_with_Some. eauto. }
  split; [exact Hsel|]. split; [|split].
  - unfold value_loss_of. apply lookup_zip_with_Some. eauto.
  - apply clip_value_inside.
  - apply clip_value_outside.
Qed.

Lemma value_loss_clip_selection_witness :
  exists sel,
    selected_values demo_ppo [1.1; 3] (demo_batch None) !! 0%nat = Some sel /\
    value_loss_of demo_ppo [1.1; 3] (demo_batch None) !! 0%nat
      = Some (0.5 * ((sel - 2) * (sel - 2))) /\
    (Rabs (1.1 - 1) < clip_param demo_ppo -> sel = 1.1) /\
    (~ Rabs (1.1 - 1) < clip_param demo_ppo ->
       sel = 1 + clamp (1.1 - 1) (- clip_param demo_ppo) (clip_param demo_ppo)).
Proof.
  apply (value_loss_clip_selection demo_ppo [1.1; 3] (demo_batch None) 0 1.1 1 2);
    [reflexivity|simpl; lra|reflexivity|reflexivity|reflexivity].
Defined.

(** ** The reduction of the loss terms *)

Lemma clamp_max_le (x hi : R) : clamp_max x hi <= hi.
Proof. apply Rmin_r. Qed.

(** C3.  One reduction is applied to the three elementwise terms
    (action loss, value loss, entropy): with [is_coeffs] in the batch each
    term [t] becomes [mean(clamp(is_coeffs, max=1.0) * t)], without it the
    plain mean; the coefficients that enter the loss are at most 1. *)
Theorem reduction_is_uniform (self : PPO) (batch : Batch) (ev : Evaluated) :
  let ratio := ratio_of (e_action_log_probs ev) (b_action_log_probs batch) in
  let action_loss := action_loss_of (clip_param self) (b_advantages batch) ratio in
  let value_loss := value_loss_of self (e_values ev) batch in
  let entropy := e_dist_entropy ev in
  exists reduce : list R -> R,
    reduced_losses self batch ev
      = (reduce action_loss, reduce value_loss, reduce entropy) /\
    match is_coeffs batch with
    | Some c =>
        let w := map (fun x => Rmin x 1) c in
        Forall (fun x => x <= 1) w /\
        forall t, reduce t = tmean (zip_with Rmult w t)
    | None => forall t, reduce t = tmean t
    end.
Proof.
  intros ratio action_loss value_loss entropy.
  exists (mean_fn batch). split; [reflexivity|].
  unfold mean_fn. destruct (is_coeffs batch) as [c|]; [|reflexivity].
  split; [|reflexivity].
  apply Forall_forall. intros x Hx.
  apply list_elem_of_In, in_map_iff in Hx as [y [<- _]]. apply Rmin_r.
Qed.

(** ** The clipped surrogate *)

Lemma ratio_of_same (lp : list R) : ratio_of lp lp = map (fun _ => 1) lp.
Proof.
  unfold ratio_of. induction lp as [|x lp IH]; [reflexivity|].
  cbn [zip_with map]. rewrite IH. f_equal.
  replace (x - x) with 0 by ring. apply exp_0.
Qed.

Lemma clamp_one (c : R) : 0 < c -> clamp 1 (1 - c) (1 + c) = 1.
Proof.
  intros Hc. unfold clamp.
  rewrite Rmax_left by lra. apply Rmin_left. lra.
Qed.

Lemma action_loss_elem_one (c a : R) : 0 < c -> action_loss_elem c a 1 = - a.
Proof.
  intros Hc. unfold action_loss_elem. rewrite clamp_one by exact Hc.
  rewrite Rmult_1_r. now rewrite Rmin_left by lra.
Qed.

Lemma action_loss_of_ones (c : R) (adv lp : list R) :
  0 < c -> length adv = length lp ->
  action_loss_of c adv (map (fun _ => 1) lp) = map Ropp adv.
Proof.
  intros Hc. unfold action_loss_of. revert lp.
  induction adv as [|a adv IH]; intros [|x lp] Hlen; try discriminate.
  - reflexivity.
  - cbn [map zip_with]. rewrite action_loss_elem_one by exact Hc.
    f_equal. apply IH. simpl in Hlen. lia.
Qed.

(** C5.  When the evaluated log-probabilities equal the stored ones, every
    ratio is exactly 1 and, for every positive [clip_param], the
    elementwise action loss is the negated advantages. *)
Theorem ratio_identity (self : PPO) (batch : Batch) (ev : Evaluated) :
  e_action_log_probs ev = b_action_log_probs batch ->
  0 < clip_param self ->
  length (b_advantages batch) = length (b_action_log_probs batch) ->
  let ratio := ratio_of (e_action_log_probs ev) (b_action_log_probs batch) in
  ratio = map (fun _ => 1) (b_action_log_probs batch) /\
  action_loss_of (clip_param self) (b_advantages batch) ratio
    = map Ropp (b_advantages batch).
Proof.
  intros Heq Hc Hlen ratio.
  assert (Hr : ratio = map (fun _ => 1) (b_action_log_probs batch)).
  { unfold ratio. rewrite Heq. apply ratio_of_same. }
  split; [exact Hr|]. rewrite Hr. now apply action_loss_of_ones.
Qed.

Lemma ratio_identity_witness :
  let batch := demo_batch None in
  let ratio := ratio_of (e_action_log_probs demo_evaluated) (b_action_log_probs batch) in
  ratio = map (fun _ => 1) (b_action_log_probs batch) /\
  action_loss_of (clip_param demo_ppo) (b_advantages batch) ratio
    = map Ropp (b_advantages batch).
Proof.
  apply (ratio_identity demo_ppo (demo_batch None) demo_evaluated);
    [reflexivity|simpl; lra|reflexivity].
Defined.

(** ** The clip fraction *)

Lemma tsum_indicator (P : R -> Prop) `{!forall x, Decision (P x)} (l : list R) :
  tsum (map (fun r => if decide (P r) then 1 else 0) l)
  = INR (length (filter P l)).
Proof.
  induction l as [|x l IH]; [reflexivity|].
  rewrite map_cons, tsum_cons, IH, filter_cons.
  destruct (decide (P x)).
  - change (length (x :: filter P l)) with (S (length (filter P l))).
    rewrite S_INR. ring.
  - ring.
Qed.

(** The diagnostic is the number of samples strictly above [1 + clip] plus
    the number strictly below [1 - clip], over the batch size. *)
Lemma fraction_clipped_counts (c : R) (ratio : list R) :
  fraction_clipped c ratio
  = INR (length (filter (fun r => 1 + c < r) ratio)) / INR (length ratio)
    + INR (length (filter (fun r => r < 1 - c) ratio)) / INR (length ratio).
Proof.
  unfold fraction_clipped, tmean. rewrite !length_map.
  rewrite <- (tsum_indicator (fun r => 1 + c < r)).
  rewrite <- (tsum_indicator (fun r => r < 1 - c)).
  reflexivity.
Qed.

Lemma fraction_clipped_boundary (c r : R) :
  0 <= c -> r = 1 + c \/ r = 1 - c -> fraction_clipped c [r] = 0.
Proof.
  intros Hc Hr. unfold fraction_clipped, tmean, lt_float. simpl.
  destruct (Rlt_dec (1 + c) r), (Rlt_dec r (1 - c)); destruct Hr; try lra;
    field.
Qed.

(** ** Metrics *)

Lemma append_metric_ne (k k' : string) (v : option R)
    (m : gmap string (list (option R))) :
  k <> k' -> append_metric k v m !!! k' = m !!! k'.
Proof.
  intros Hne. unfold append_metric.
  rewrite !lookup_total_alt, lookup_insert_ne by exact Hne. reflexivity.
Qed.

Lemma append_metric_eq (k : string) (v : option R)
    (m : gmap string (list (option R))) :
  append_metric k v m !!! k = m !!! k ++ [v].
Proof.
  unfold append_metric. now rewrite lookup_total_insert_eq.
Qed.

Lemma bind_Ok {A B} (m : result A) (k : A -> result B) (b : B) :
  (m ≫= k) = Ok b -> exists a, m = Ok a /\ k a = Ok b.
Proof. destruct m as [a|e]; [eauto|discriminate]. Qed.

Lemma from_option_Ok {A} (e : exn) (o : option A) (a : A) :
  from_option e o = Ok a -> o = Some a.
Proof. destruct o; simpl; congruence. Qed.

(** A loop whose body never touches the key [k] leaves [k] alone. *)
Lemma foldl_metric_other {A} (f : gmap string (list (option R)) -> A
                                 -> gmap string (list (option R)))
    (k : string) (l : list A) (m : gmap string (list (option R))) :
  (forall m x, f m x !!! k = m !!! k) -> foldl f m l !!! k = m !!! k.
Proof.
  intros Hf. revert m. induction l as [|x l IH]; intros m; [reflexivity|].
  simpl. now rewrite IH, Hf.
Qed.

Lemma foldlM_metric_other {A} (f : gmap string (list (option R)) -> A
                                  -> result (gmap string (list (option R))))
    (k : string) (l : list A) (m m' : gmap string (list (option R))) :
  (forall m x m', f m x = Ok m' -> m' !!! k = m !!! k) ->
  foldlM f m l = Ok m' -> m' !!! k = m !!! k.
Proof.
  intros Hf. revert m. induction l as [|x l IH]; intros m H.
  - simpl in H. now inversion H.
  - simpl in H. destruct (f m x) as [m1|e] eqn:E; [|discriminate].
    simpl in H. rewrite (IH _ H). now apply (Hf m x).
Qed.

Ltac key_ne := let H := fresh in intros H; simpl in H; discriminate H.

Lemma record_min_mean_max_other (t : list R) (prefix k : string)
    (m : gmap string (list (option R))) :
  (forall n, (prefix ++ "_" ++ n)%string <> k) ->
  record_min_mean_max t prefix m !!! k = m !!! k.
Proof.
  intros Hne. unfold record_min_mean_max.
  apply foldl_metric_other. intros m0 x. apply append_metric_ne, Hne.
Qed.

(** What one call of [record_metrics] does to [ppo_fraction_clipped]. *)
Lemma record_metrics_fraction_clipped (ext : Externals) (self : PPO)
    (batch : Batch) (epoch : Z) (rollouts : RolloutStorage) (ev : Evaluated)
    (ratio aux_losses : list R) (value_loss action_loss dist_entropy grad_norm : R)
    (w : gmap string (list R)) (m m' : gmap string (list (option R))) :
  record_metrics ext self batch epoch rollouts ev ratio aux_losses
    value_loss action_loss dist_entropy grad_norm w m = Ok m' ->
  m' !!! "ppo_fraction_clipped"%string
  = m !!! "ppo_fraction_clipped"%string
    ++ (if (epoch =? ppo_epoch self - 1)%Z
        then [Some (fraction_clipped (clip_param self) ratio)] else []).
Proof.
  unfold record_metrics.
  set (m1 := match is_coeffs batch with Some c => _ | None => m end).
  set (m2 := append_metric "dist_entropy" _ _).
  set (m3 := if (epoch =? ppo_epoch self - 1)%Z then _ else m2).
  set (m4 := match entropy_coef self with AdaptiveCoef l => _ | FixedCoef _ => _ end).
  assert (H1 : m1 !!! "ppo_fraction_clipped"%string = m !!! "ppo_fraction_clipped"%string).
  { unfold m1. destruct (is_coeffs batch); [|reflexivity].
    apply record_min_mean_max_other. intros n. key_ne. }
  assert (H2 : m2 !!! "ppo_fraction_clipped"%string = m !!! "ppo_fraction_clipped"%string).
  { unfold m2. rewrite !append_metric_ne by key_ne.
    rewrite !record_min_mean_max_other by (intros n; key_ne). exact H1. }
  assert (H3 : m3 !!! "ppo_fraction_clipped"%string
               = m !!! "ppo_fraction_clipped"%string
                 ++ (if (epoch =? ppo_epoch self - 1)%Z
                     then [Some (fraction_clipped (clip_param self) ratio)] else [])).
  { unfold m3. destruct (epoch =? ppo_epoch self - 1)%Z.
    - now rewrite append_metric_eq, H2.
    - now rewrite app_nil_r. }
  assert (H4 : m4 !!! "ppo_fraction_clipped"%string = m3 !!! "ppo_fraction_clipped"%string).
  { unfold m4. destruct (entropy_coef self);
      now rewrite !append_metric_ne by key_ne. }
  rewrite <- H3, <- H4. clearbody m4. clear.
  intros H.
  destruct (length (_aux_tasks self) =? 0)%nat.
  - destruct (e_aux_loss_res ev) as [res|]; [|discriminate]. simpl in H.
    match type of H with
    | context [match is_stale batch with Some s => _ | None => ?mm end] =>
        assert (H5 : mm !!! "ppo_fraction_clipped"%string
                     = m4 !!! "ppo_fraction_clipped"%string)
    end.
    { apply foldl_metric_other. intros m0 nr.
      apply foldl_metric_other. intros m1 kv. apply append_metric_ne. key_ne. }
    destruct (is_stale batch);
      destruct (current_policy_version rollouts);
      try (destruct (policy_version batch); [|discriminate]);
      simpl in H; inversion H; subst;
      rewrite ?record_min_mean_max_other by (intros n; key_ne);
      rewrite ?append_metric_ne by key_ne; exact H5.
  - set (m5 := append_metric "aux_entropy" _ m4) in H.
    assert (H5 : m5 !!! "ppo_fraction_clipped"%string
                 = m4 !!! "ppo_fraction_clipped"%string).
    { unfold m5. apply append_metric_ne. key_ne. }
    rewrite <- H5. clearbody m5. clear H5.
    destruct (bind_Ok _ _ _ H) as [m6 [H6 Htail]]. clear H.
    destruct (bind_Ok _ _ _ H6) as [ma [Ha H7]]. clear H6.
    destruct (bind_Ok _ _ _ H7) as [aw [_ Hb]]. clear H7.
    assert (Hstep : forall pre (m0 : gmap string (list (option R))) (x : nat * R) m0',
              (n ← nth_name (_aux_names self) x.1;
               Ok (append_metric (pre ++ n) (Some x.2) m0)) = Ok m0' ->
              (forall n, (pre ++ n)%string <> "ppo_fraction_clipped"%string) ->
              m0' !!! "ppo_fraction_clipped"%string
              = m0 !!! "ppo_fraction_clipped"%string).
    { intros pre m0 x m0' Hx Hne. destruct (bind_Ok _ _ _ Hx) as [n [_ Hn]].
      inversion Hn. apply append_metric_ne, Hne. }
    apply (foldlM_metric_other _ "ppo_fraction_clipped"%string) in Ha;
      [|intros m0 x m0' Hx; apply (Hstep _ _ _ _ Hx); intros n; key_ne].
    apply (foldlM_metric_other _ "ppo_fraction_clipped"%string) in Hb;
      [|intros m0 x m0' Hx; apply (Hstep _ _ _ _ Hx); intros n; key_ne].
    rewrite <- Ha, <- Hb. clear Ha Hb Hstep.
    destruct (is_stale batch);
      destruct (current_policy_version rollouts);
      try (destruct (policy_version batch); [|discriminate]);
      simpl in Htail; inversion Htail; subst;
      rewrite ?record_min_mean_max_other by (intros n; key_ne);
      rewrite ?append_metric_ne by key_ne; reflexivity.
Qed.

(** A successful minibatch update changes nothing of [self] but the
    optimizer, and appends the clip fraction on the last epoch only. *)
Lemma update_from_batch_fraction_clipped (ext : Externals) (self self' : PPO)
    (dist : option Dist) (batch : Batch) (epoch : Z)
    (rollouts : RolloutStorage) (m m' : gmap string (list (option R)))
    (st st' : Store) :
  _update_from_batch ext self dist batch epoch rollouts m st = Ok (self', st', m') ->
  (exists o, self' = set_optimizer o self) /\
  exists ev,
    unpack (kind (actor_critic self)) (evaluate_actions ext (data st) batch) = Ok ev /\
    m' !!! "ppo_fraction_clipped"%string
    = m !!! "ppo_fraction_clipped"%string
      ++ (if (epoch =? ppo_epoch self - 1)%Z
          then [Some (fraction_clipped (clip_param self)
                        (ratio_of (e_action_log_probs ev) (b_action_log_probs batch)))]
          else []).
Proof.
  unfold _update_from_batch. intros H.
  destruct (bind_Ok _ _ _ H) as [st1 [Hst1 H1]]. clear H.
  assert (Hdata : data st1 = data st).
  { unfold _set_grads_to_none in Hst1.
    destruct (bind_Ok _ _ _ Hst1) as [opt [_ Ho]]. now inversion Ho. }
  rewrite Hdata in H1.
  destruct (bind_Ok _ _ _ H1) as [ev [Hev H2]]. clear H1.
  destruct (reduced_losses self batch ev) as [[action_loss value_loss] dist_entropy].
  destruct (bind_Ok _ _ _ H2) as [aux_losses [_ H3]]. clear H2.
  destruct (bind_Ok _ _ _ H3) as [all_losses [_ H4]]. clear H3.
  cbv zeta in H4.
  destruct (before_step self dist (run_backward ext self batch st1)) as [st2 grad_norm].
  destruct (bind_Ok _ _ _ H4) as [[self1 st3] [Hstep H5]]. clear H4.
  destruct (bind_Ok _ _ _ H5) as [m1 [Hm H6]]. clear H5.
  inversion H6; subst. clear H6.
  unfold optimizer_step in Hstep.
  destruct (bind_Ok _ _ _ Hstep) as [opt [_ Ho]].
  destruct (step ext opt (data st2) (grad st2)) as [opt' w]. inversion Ho; subst.
  split; [eauto|]. exists ev. split; [exact Hev|].
  apply record_metrics_fraction_clipped in Hm. exact Hm.
Qed.

Lemma foldlM_app {S A} (f : S -> A -> result S) (s : S) (l1 l2 : list A) :
  foldlM f s (l1 ++ l2) = foldlM f s l1 ≫= fun s' => foldlM f s' l2.
Proof.
  revert s. induction l1 as [|a l1 IH]; intros s; [reflexivity|].
  simpl. destruct (f s a) as [s1|e]; [apply IH|reflexivity].
Qed.

Lemma set_optimizer_idem (o : option Optimizer) (self self' : PPO) :
  self' = set_optimizer (optimizer self') self ->
  set_optimizer o self' = set_optimizer o self.
Proof. intros ->. reflexivity. Qed.

Lemma set_optimizer_self (self : PPO) : self = set_optimizer (optimizer self) self.
Proof. now destruct self. Qed.

(** One epoch: the clip fraction grows by one entry per minibatch on the
    last epoch and not at all on any other. *)
Lemma update_epoch_fraction_clipped (ext : Externals) (dist : option Dist)
    (rollouts : RolloutStorage) (epoch : Z) (self0 : PPO) (bs : list Batch)
    (self self' : PPO) (st st' : Store) (m m' : gmap string (list (option R))) :
  self = set_optimizer (optimizer self) self0 ->
  foldlM (fun (acc : PPO * Store * gmap string (list (option R))) batch =>
            _update_from_batch ext acc.1.1 dist batch epoch rollouts acc.2 acc.1.2)
         (self, st, m) bs = Ok (self', st', m') ->
  self' = set_optimizer (optimizer self') self0 /\
  length (m' !!! "ppo_fraction_clipped"%string)
  = (length (m !!! "ppo_fraction_clipped"%string)
     + (if (epoch =? ppo_epoch self0 - 1)%Z then length bs else 0))%nat.
Proof.
  revert self st m. induction bs as [|b bs IH]; intros self st m Hself H.
  - simpl in H. inversion H; subst. split; [exact Hself|].
    destruct (epoch =? _)%Z; simpl; lia.
  - simpl in H. destruct (bind_Ok _ _ _ H) as [[[self1 st1] m1] [H1 H2]]. clear H.
    simpl in H1.
    apply update_from_batch_fraction_clipped in H1 as [[o Ho] [ev [_ Hm]]].
    assert (Hself1 : self1 = set_optimizer (optimizer self1) self0).
    { rewrite Ho. change (optimizer (set_optimizer o self)) with o.
      now apply set_optimizer_idem. }
    destruct (IH _ _ _ Hself1 H2) as [Hs' Hlen]. split; [exact Hs'|].
    rewrite Hlen, Hm, length_app.
    replace (ppo_epoch self) with (ppo_epoch self0) by now rewrite Hself.
    destruct (epoch =? ppo_epoch self0 - 1)%Z; simpl; lia.
Qed.

Lemma range_snoc (n : Z) : (0 < n)%Z -> range n = range (n - 1) ++ [(n - 1)%Z].
Proof.
  intros Hn. unfold range.
  replace (Z.to_nat n) with (S (Z.to_nat (n - 1))) by lia.
  rewrite seq_S, map_app. simpl. f_equal. f_equal. lia.
Qed.

Lemma range_lt (n e : Z) : In e (range n) -> (0 <= e < n)%Z.
Proof.
  unfold range. intros H. apply in_map_iff in H as [i [<- Hi]].
  apply in_seq in Hi. lia.
Qed.

(** Epochs other than the last leave the clip fraction as it was. *)
Lemma update_epochs_before_last (ext : Externals) (dist : option Dist)
    (rollouts : RolloutStorage) (adv : list fp) (self0 : PPO) (es : list Z)
    (self self' : PPO) (st st' : Store) (m m' : gmap string (list (option R))) :
  Forall (fun e => e <> (ppo_epoch self0 - 1)%Z) es ->
  self = set_optimizer (optimizer self) self0 ->
  foldlM (update_epoch ext dist rollouts adv) (self, st, m) es = Ok (self', st', m') ->
  self' = set_optimizer (optimizer self') self0 /\
  length (m' !!! "ppo_fraction_clipped"%string)
  = length (m !!! "ppo_fraction_clipped"%string).
Proof.
  intros Hes. revert self st m.
  induction Hes as [|e es He _ IH]; intros self st m Hself H.
  - simpl in H. inversion H; subst. now split.
  - simpl in H. destruct (bind_Ok _ _ _ H) as [[[self1 st1] m1] [H1 H2]]. clear H.
    unfold update_epoch in H1.
    apply (update_epoch_fraction_clipped _ _ _ _ self0) in H1 as [Hself1 Hlen];
      [|exact Hself].
    destruct (IH _ _ _ Hself1 H2) as [Hs' Hlen']. split; [exact Hs'|].
    rewrite Hlen', Hlen.
    destruct (Z.eqb_spec e (ppo_epoch self0 - 1)); [contradiction|lia].
Qed.

(** The whole of [update]: the clip fraction holds one entry for each
    minibatch of the last epoch, and nothing else. *)
Lemma update_loop_fraction_clipped (ext : Externals) (self self' : PPO)
    (dist : option Dist) (rollouts : RolloutStorage) (st st' : Store)
    (m' : gmap string (list (option R))) :
  update_loop ext self dist rollouts st = Ok (self', st', m') ->
  length (m' !!! "ppo_fraction_clipped"%string)
  = if (0 <? ppo_epoch self)%Z
    then length (data_generator ext rollouts (get_advantages self rollouts)
                   (num_mini_batch self) (ppo_epoch self - 1))
    else 0%nat.
Proof.
  unfold update_loop. intros H.
  destruct (Z.ltb_spec 0 (ppo_epoch self)) as [Hpos|Hneg].
  - rewrite range_snoc, foldlM_app in H by exact Hpos.
    destruct (bind_Ok _ _ _ H) as [[[self1 st1] m1] [H1 H2]]. clear H.
    apply (update_epochs_before_last _ _ _ _ self) in H1 as [Hself1 Hlen1];
      [| |apply set_optimizer_self].
    + simpl in H2. destruct (bind_Ok _ _ _ H2) as [[[self2 st2] m2] [H3 H4]].
      inversion H4; subst. clear H4 H2. unfold update_epoch in H3.
      apply (update_epoch_fraction_clipped _ _ _ _ self) in H3 as [_ Hlen];
        [|exact Hself1].
      rewrite Hlen, Hlen1, Z.eqb_refl.
      replace (num_mini_batch (self1, st1, m1).1.1) with (num_mini_batch self)
        by (simpl; now rewrite Hself1).
      rewrite lookup_total_empty. reflexivity.
    + apply Forall_forall. intros e He. apply list_elem_of_In, range_lt in He. lia.
  - unfold range in H. replace (Z.to_nat (ppo_epoch self)) with 0%nat in H by lia.
    simpl in H. inversion H. now rewrite lookup_total_empty.
Qed.

(** ** Minibatch updates that raise nothing *)

Lemma mapM_loss_Ok (res : list (string * gmap string R)) :
  Forall (fun r : string * gmap string R => is_Some (r.2 !! "loss"%string)) res ->
  exists ls,
    mapM (fun v : string * gmap string R =>
            from_option KeyError (v.2 !! "loss"%string)) res = Ok ls.
Proof.
  induction 1 as [|r res [x Hx] _ [ls IH]].
  - now exists [].
  - exists (x :: ls). cbn. rewrite Hx. cbn.
    change (mapM (fun v : string * gmap string R =>
                    from_option KeyError (v.2 !! "loss"%string)) res ≫=
              (fun k => mret (x :: k)) = Ok (x :: ls)).
    now rewrite IH.
Qed.

Lemma bind_ret {A B} (a : A) (k : A -> result B) : (Ok a ≫= k) = k a.
Proof. reflexivity. Qed.

Lemma returns_with_Ok {A} (P : A -> Prop) (r : result A) :
  returns_with P r -> exists a, r = Ok a /\ P a.
Proof. destruct r as [a|e]; [eauto|contradiction]. Qed.

Lemma set_grads_to_none_Ok (self : PPO) (st : Store) :
  is_Some (optimizer self) ->
  exists st1, _set_grads_to_none self st = Ok st1 /\ data st1 = data st.
Proof.
  intros [opt Hopt]. unfold _set_grads_to_none. rewrite Hopt.
  eexists. split; reflexivity.
Qed.

Lemma aux_losses_of_plain (ext : Externals) (self : PPO)
    (w : gmap string (list R)) (batch : Batch) (ev : Evaluated) :
  kind (actor_critic self) = PlainPolicy ->
  aux_losses_of ext self w batch ev = Ok [].
Proof.
  intros Hkind. unfold aux_losses_of, is_attentive. now rewrite Hkind.
Qed.

Lemma all_losses_of_plain_Ok (ext : Externals) (self : PPO)
    (w : gmap string (list R)) (ev : Evaluated) (aux_losses : list R)
    (value_loss action_loss dist_entropy : R)
    (res : list (string * gmap string R)) :
  _aux_tasks self = [] ->
  e_aux_dist_entropy ev = None ->
  e_aux_loss_res ev = Some res ->
  Forall (fun r : string * gmap string R => is_Some (r.2 !! "loss"%string)) res ->
  returns_with (fun _ => True)
    (all_losses_of ext self w ev aux_losses value_loss action_loss dist_entropy).
Proof.
  intros Haux Hade Hres Hloss. unfold all_losses_of.
  rewrite Hade, Haux, Hres. cbv iota. rewrite bind_ret.
  destruct (mapM_loss_Ok res Hloss) as [ls Hls].
  change (length [] =? 0)%nat with true. cbv iota.
  change (from_option NameError (Some res)) with (Ok res).
  rewrite bind_ret, Hls, bind_ret. exact I.
Qed.

Lemma record_metrics_plain_Ok (ext : Externals) (self : PPO) (batch : Batch)
    (epoch : Z) (rollouts : RolloutStorage) (ev : Evaluated)
    (ratio aux_losses : list R) (value_loss action_loss dist_entropy grad_norm : R)
    (w : gmap string (list R)) (m : gmap string (list (option R)))
    (res : list (string * gmap string R)) :
  _aux_tasks self = [] ->
  e_aux_loss_res ev = Some res ->
  current_policy_version rollouts = None ->
  returns_with (fun _ => True)
    (record_metrics ext self batch epoch rollouts ev ratio aux_losses
       value_loss action_loss dist_entropy grad_norm w m).
Proof.
  intros Haux Hres Hver. unfold record_metrics.
  rewrite Haux, Hres, Hver.
  change (length [] =? 0)%nat with true. cbv iota.
  change (from_option NameError (Some res)) with (Ok res).
  rewrite !bind_ret. exact I.
Qed.

Lemma update_from_batch_plain_Ok (ext : Externals) (self : PPO)
    (dist : option Dist) (batch : Batch) (epoch : Z)
    (rollouts : RolloutStorage) (m : gmap string (list (option R)))
    (st : Store) :
  plain_setting ext self rollouts ->
  returns_with (fun r => plain_setting ext r.1.1 rollouts)
    (_update_from_batch ext self dist batch epoch rollouts m st).
Proof.
  intros [Hopt [Hkind [Haux [Hver Heval]]]].
  unfold _update_from_batch.
  destruct (set_grads_to_none_Ok self st Hopt) as [st1 [-> Hdata]].
  rewrite bind_ret, Hdata.
  destruct (Heval (data st) batch) as (v & lp & ent & fin & res & Hev & Hres).
  rewrite Hkind, Hev. unfold unpack. rewrite bind_ret.
  match goal with
  | |- context [reduced_losses self batch ?e] => set (ev := e)
  end.
  destruct (reduced_losses self batch ev) as [[action_loss value_loss] dist_entropy].
  rewrite aux_losses_of_plain, bind_ret by exact Hkind.
  destruct (returns_with_Ok _ _
              (all_losses_of_plain_Ok ext self (data st) ev [] value_loss
                 action_loss dist_entropy res Haux eq_refl eq_refl Hres))
    as [ls [-> _]].
  rewrite bind_ret. cbv zeta.
  destruct (before_step self dist _) as [st2 grad_norm].
  unfold optimizer_step. destruct Hopt as [opt Hopt]. rewrite Hopt.
  change (from_option AttributeError (Some opt)) with (Ok opt).
  rewrite bind_ret.
  destruct (step ext opt (data st2) (grad st2)) as [opt' w]. rewrite bind_ret.
  match goal with
  | |- context [record_metrics ext ?s batch epoch rollouts ev ?r ?al ?vl ?a ?d ?g ?ww m] =>
      destruct (returns_with_Ok _ _
                  (record_metrics_plain_Ok ext s batch epoch rollouts ev r al vl
                     a d g ww m res Haux eq_refl Hver)) as [m' [-> _]]
  end.
  rewrite bind_ret. simpl. repeat split; eauto.
Qed.

Lemma foldlM_returns_with {S A} (Inv : S -> Prop) (f : S -> A -> result S)
    (l : list A) (s : S) :
  (forall s a, Inv s -> returns_with Inv (f s a)) ->
  Inv s -> returns_with Inv (foldlM f s l).
Proof.
  intros Hf. revert s. induction l as [|a l IH]; intros s Hs; [exact Hs|].
  simpl. destruct (returns_with_Ok _ _ (Hf s a Hs)) as [s1 [-> Hs1]].
  rewrite bind_ret. now apply IH.
Qed.

(** In a plain setting the two loops of [update] run to their end. *)
Lemma update_loop_plain_Ok (ext : Externals) (self : PPO) (dist : option Dist)
    (rollouts : RolloutStorage) (st : Store) :
  plain_setting ext self rollouts ->
  returns_with (fun r => plain_setting ext r.1.1 rollouts)
    (update_loop ext self dist rollouts st).
Proof.
  intros Hself. unfold update_loop.
  apply (foldlM_returns_with (fun r => plain_setting ext r.1.1 rollouts));
    [|exact Hself].
  intros [[self1 st1] m1] epoch H1. unfold update_epoch.
  apply (foldlM_returns_with (fun r => plain_setting ext r.1.1 rollouts));
    [|exact H1].
  intros [[self2 st2] m2] batch H2. now apply update_from_batch_plain_Ok.
Qed.

Lemma demo_plain_setting (returns value_preds : list fp) :
  plain_setting demo_externals demo_ppo (demo_rollouts returns value_preds).
Proof.
  repeat split; try reflexivity.
  - eexists. reflexivity.
  - intros w b. eexists _, _, _, _, _. split; [reflexivity|constructor].
Qed.

(** ** The clip fraction is a last-epoch diagnostic *)

(** C6.  The clip fraction of a minibatch is the share of samples whose
    ratio is strictly above [1 + clip_param] plus the share strictly below
    [1 - clip_param]; samples at either bound count for nothing.  A
    minibatch update appends it to [ppo_fraction_clipped] exactly when its
    epoch index is [ppo_epoch - 1]; over a whole [update] the metric holds
    one entry per minibatch of the last epoch and none from earlier
    epochs. *)
Theorem fraction_clipped_final_epoch_only (ext : Externals) (self : PPO)
    (dist : option Dist) (rollouts : RolloutStorage) :
  (forall ratio : list R,
     fraction_clipped (clip_param self) ratio
     = INR (length (filter (fun r => 1 + clip_param self < r) ratio))
         / INR (length ratio)
       + INR (length (filter (fun r => r < 1 - clip_param self) ratio))
         / INR (length ratio)) /\
  (0 <= clip_param self ->
   fraction_clipped (clip_param self)
     [1 + clip_param self; 1 - clip_param self] = 0) /\
  (forall batch epoch m st self' st' m',
     _update_from_batch ext self dist batch epoch rollouts m st
       = Ok (self', st', m') ->
     exists ev,
       unpack (kind (actor_critic self)) (evaluate_actions ext (data st) batch)
         = Ok ev /\
       m' !!! "ppo_fraction_clipped"%string
       = m !!! "ppo_fraction_clipped"%string
         ++ (if (epoch =? ppo_epoch self - 1)%Z
             then [Some (fraction_clipped (clip_param self)
                           (ratio_of (e_action_log_probs ev)
                                     (b_action_log_probs batch)))]
             else [])) /\
  (forall st self' st' m',
     update_loop ext self dist rollouts st = Ok (self', st', m') ->
     length (m' !!! "ppo_fraction_clipped"%string)
     = if (0 <? ppo_epoch self)%Z
       then length (data_generator ext rollouts (get_advantages self rollouts)
                      (num_mini_batch self) (ppo_epoch self - 1))
       else 0%nat).
Proof.
  split; [|split; [|split]].
  - apply fraction_clipped_counts.
  - intros Hc. unfold fraction_clipped, tmean, lt_float. simpl.
    repeat match goal with
           | |- context [Rlt_dec ?a ?b] => destruct (Rlt_dec a b); try lra
           end.
  - intros batch epoch m st self' st' m' H.
    now apply update_from_batch_fraction_clipped in H as [_ H].
  - intros st self' st' m' H.
    now apply update_loop_fraction_clipped in H.
Qed.

Lemma fraction_clipped_final_epoch_only_witness :
  exists m' : gmap string (list (option R)),
    (exists self' st',
       update_loop demo_externals demo_ppo None
         (demo_rollouts [Fin 2; Fin 0] [Fin 1; Fin 1]) demo_store
       = Ok (self', st', m')) /\
    length (m' !!! "ppo_fraction_clipped"%string) = 1%nat.
Proof.
  destruct (returns_with_Ok _ _
              (update_loop_plain_Ok demo_externals demo_ppo None
                 (demo_rollouts [Fin 2; Fin 0] [Fin 1; Fin 1]) demo_store
                 (demo_plain_setting _ _)))
    as [[[self' st'] m'] [Hrun _]].
  exists m'. split; [eauto|].
  destruct (fraction_clipped_final_epoch_only demo_externals demo_ppo None
              (demo_rollouts [Fin 2; Fin 0] [Fin 1; Fin 1]))
    as [_ [_ [_ Hupd]]].
  exact (Hupd _ _ _ _ Hrun).
Defined.

(** ** Construction *)

(** C7.  The constructor turns the entropy coefficient into a
    [LagrangeInequalityCoefficient] exactly when [use_adaptive_entropy_pen]
    is set, the policy has a [num_actions] attribute and its
    [action_distribution_type] is ["gaussian"]; the coefficient is then
    built with threshold [-entropy_target_factor * num_actions], initial
    alpha [entropy_coef] and bounds [1e-4] and [1.0].  In every other case
    the constructor returns with the fixed float it was given. *)
Theorem adaptive_entropy_activation (ac : NetPolicy) (clip : R)
    (epochs mini_batches : Z) (vcoef ecoef acoef lr eps max_norm : R)
    (clipped normalized : bool) (target_factor : R) (adaptive : bool)
    (aux_tasks : list AuxTask) (aux_names : list string)
    (aux_cfg : option AuxCfg) :
  let self := __init__ ac clip epochs mini_batches vcoef ecoef acoef lr eps
                max_norm clipped normalized target_factor adaptive
                aux_tasks aux_names aux_cfg in
  (forall n : Z,
     adaptive = true ->
     num_actions ac = Some n ->
     action_distribution_type ac = Some "gaussian"%string ->
     entropy_coef self
     = AdaptiveCoef {| threshold := - target_factor * IZR n;
                       init_alpha := ecoef;
                       alpha_max := 1;
                       alpha_min := 1e-4;
                       greater_than := true |}) /\
  (adaptive = false \/ num_actions ac = None \/
   action_distribution_type ac <> Some "gaussian"%string ->
   entropy_coef self = FixedCoef ecoef).
Proof.
  intros self. unfold self, __init__; cbn [entropy_coef]. split.
  - intros n -> -> Hg. now rewrite bool_decide_eq_true_2.
  - intros [->|[->|Hg]].
    + reflexivity.
    + now destruct adaptive.
    + destruct adaptive, (num_actions ac); try reflexivity.
      now rewrite bool_decide_eq_false_2.
Qed.

Lemma adaptive_entropy_activation_witness :
  entropy_coef demo_ppo
  = AdaptiveCoef {| threshold := Ropp 0.5 * 2;
                    init_alpha := 0.01;
                    alpha_max := 1;
                    alpha_min := 1e-4;
                    greater_than := true |}.
Proof.
  destruct (adaptive_entropy_activation demo_policy
              (cfg_clip_param demo_config) (cfg_ppo_epoch demo_config)
              (cfg_num_mini_batch demo_config) (cfg_value_loss_coef demo_config)
              (cfg_entropy_coef demo_config) 0 (cfg_lr demo_config)
              (cfg_eps demo_config) (cfg_max_grad_norm demo_config)
              (cfg_use_clipped_value_loss demo_config)
              (cfg_use_normalized_advantage demo_config)
              (cfg_entropy_target_factor demo_config)
              (cfg_use_adaptive_entropy_pen demo_config) [] [] None)
    as [Hon _].
  exact (Hon 2%Z eq_refl eq_refl eq_refl).
Defined.

(** The policy lacks [num_actions]: the constructor keeps the float. *)
Example adaptive_requested_but_skipped :
  entropy_coef (from_config demo_attentive_policy demo_config [] [] None)
  = FixedCoef 0.01.
Proof. reflexivity. Qed.

(** ** The auxiliary loss coefficient *)

(** [from_config] passes the literal [0.0] where the other options are read
    from the configuration. *)
Lemma from_config_aux_loss_coef (ac : NetPolicy) (config : Config)
    (aux_tasks : list AuxTask) (aux_names : list string)
    (aux_cfg : option AuxCfg) :
  aux_loss_coef (from_config ac config aux_tasks aux_names aux_cfg) = 0.
Proof. reflexivity. Qed.

(** C8 fails on the code.  The configuration asks for an auxiliary
    coefficient of 0.5; the updater [from_config] builds for an attentive
    policy with one auxiliary task carries 0, and the auxiliary entry of
    [all_losses] for auxiliary losses summing to 2 is [2 * 0], not
    [0.5 * 2]. *)
Theorem from_config_ignores_aux_loss_coef :
  cfg_aux_loss_coef demo_config = 0.5 /\
  is_attentive demo_attentive_ppo = true /\
  length (_aux_tasks demo_attentive_ppo) = 1%nat /\
  aux_loss_coef demo_attentive_ppo = 0 /\
  forall value_loss action_loss dist_entropy : R,
    all_losses_of demo_externals demo_attentive_ppo ∅ demo_attentive_evaluated
      [2] value_loss action_loss dist_entropy
    = Ok [0.5 * value_loss; action_loss; tsum [2] * 0;
          Ropp 0.01 * dist_entropy; 0.3 * 0.1]
    /\ tsum [2] * 0 <> cfg_aux_loss_coef demo_config * tsum [2].
Proof.
  repeat split; try reflexivity.
  unfold tsum. simpl. lra.
Qed.

(** ** Resume state *)

(** C9 (as amended).  For an updater that has an optimizer,
    [get_resume_state] returns the optimizer's state under the key
    ["optim_state"], and [load_state_dict] puts the stored state in the
    place of the optimizer's own when the mapping has that key, changing
    nothing else.  On a mapping without the key [load_state_dict] returns
    with the updater, and so the optimizer, untouched, whether there is an
    optimizer or not.  An updater without an optimizer, which is what
    [_create_optimizer] leaves when no parameter requires a gradient, has
    no state to capture or to replace: [get_resume_state] raises
    [AttributeError], and so does [load_state_dict] on a mapping that has
    the key. *)
Theorem resume_state_contract (self : PPO) (state : gmap string OptimState) :
  (forall opt, optimizer self = Some opt ->
     get_resume_state self = Ok {[ "optim_state"%string := opt_state opt ]}) /\
  (forall opt s, optimizer self = Some opt ->
     state !! "optim_state"%string = Some s ->
     load_state_dict self state
     = Ok (set_optimizer (Some {| param_groups := param_groups opt;
                                  opt_lr := opt_lr opt;
                                  opt_eps := opt_eps opt;
                                  opt_state := s |}) self)) /\
  (state !! "optim_state"%string = None -> load_state_dict self state = Ok self) /\
  (optimizer self = None ->
     get_resume_state self = Raise AttributeError /\
     (is_Some (state !! "optim_state"%string) ->
      load_state_dict self state = Raise AttributeError)).
Proof.
  split; [|split; [|split]].
  - intros opt Hopt. unfold get_resume_state. now rewrite Hopt.
  - intros opt s Hopt Hs. unfold load_state_dict. now rewrite Hs, Hopt.
  - intros Hs. unfold load_state_dict. now rewrite Hs.
  - intros Hnone. split.
    + unfold get_resume_state. now rewrite Hnone.
    + intros [s Hs]. unfold load_state_dict. now rewrite Hs, Hnone.
Qed.

Lemma resume_state_contract_witness :
  let stored : OptimState := {[ "exp_avg"%string := [1] ]} in
  (exists opt,
     optimizer demo_ppo = Some opt /\
     get_resume_state demo_ppo = Ok {[ "optim_state"%string := opt_state opt ]} /\
     load_state_dict demo_ppo {[ "optim_state"%string := stored ]}
     = Ok (set_optimizer (Some {| param_groups := param_groups opt;
                                  opt_lr := opt_lr opt;
                                  opt_eps := opt_eps opt;
                                  opt_state := stored |}) demo_ppo)) /\
  load_state_dict demo_ppo {[ "model"%string := ∅ ]} = Ok demo_ppo /\
  get_resume_state demo_frozen_ppo = Raise AttributeError.
Proof.
  intros stored. split; [|split].
  - destruct (optimizer demo_ppo) as [opt|] eqn:Hopt; [|discriminate].
    exists opt. split; [reflexivity|].
    destruct (resume_state_contract demo_ppo {[ "optim_state"%string := stored ]})
      as (Hget & Hload & _).
    split; [exact (Hget opt Hopt)|].
    apply (Hload opt stored Hopt). apply lookup_singleton_eq.
  - destruct (resume_state_contract demo_ppo {[ "model"%string := ∅ ]})
      as (_ & _ & Hnone & _).
    apply Hnone. reflexivity.
  - destruct (resume_state_contract demo_frozen_ppo ∅) as (_ & _ & _ & Hraise).
    apply Hraise. reflexivity.
Defined.

(** C9 as stated fails: the updater built for a policy whose parameters
    are all frozen has no optimizer; [get_resume_state] returns no mapping
    but raises [AttributeError], and [load_state_dict] on a mapping that
    has the key ["optim_state"] raises it too, replacing nothing. *)
Lemma frozen_updater_has_no_resume_state :
  optimizer demo_frozen_ppo = None /\
  get_resume_state demo_frozen_ppo = Raise AttributeError /\
  (forall m, get_resume_state demo_frozen_ppo <> Ok m) /\
  load_state_dict demo_frozen_ppo {[ "optim_state"%string := ∅ ]}
  = Raise AttributeError.
Proof.
  assert (Hnone : optimizer demo_frozen_ppo = None) by reflexivity.
  split; [exact Hnone|]. split; [|split].
  - unfold get_resume_state. now rewrite Hnone.
  - intros m. unfold get_resume_state. rewrite Hnone. discriminate.
  - unfold load_state_dict. rewrite lookup_singleton_eq, Hnone. reflexivity.
Qed.

(** Restoring what was just captured changes nothing. *)
Lemma resume_round_trip (self : PPO) (opt : Optimizer) :
  optimizer self = Some opt ->
  get_resume_state self ≫= load_state_dict self = Ok self.
Proof.
  intros Hopt. unfold get_resume_state. rewrite Hopt. cbn.
  unfold load_state_dict. rewrite lookup_singleton_eq, Hopt. cbn.
  destruct self; simpl in *. subst. now destruct opt.
Qed.

(** ** Gradient synchronisation *)

Lemma issued_cons_Some (d : Dist) (st : Store) (p : string) (ps : list string)
    (g : list R) :
  grad st !! p = Some g ->
  issued d st (p :: ps)
  = (p, map (fun x => x / IZR (world_size d)) g) :: issued d st ps.
Proof. intros H. unfold issued. cbn. now rewrite H. Qed.

Lemma issued_cons_None (d : Dist) (st : Store) (p : string) (ps : list string) :
  grad st !! p = None -> issued d st (p :: ps) = issued d st ps.
Proof. intros H. unfold issued. cbn. now rewrite H. Qed.

Lemma issued_ext (d : Dist) (st1 st2 : Store) (ps : list string) :
  (forall p, p ∈ ps -> grad st1 !! p = grad st2 !! p) ->
  issued d st1 ps = issued d st2 ps.
Proof.
  induction ps as [|p ps IH]; intros H; [reflexivity|].
  unfold issued in *. cbn. rewrite (H p) by left.
  rewrite IH; [reflexivity|]. intros q Hq. apply H. now right.
Qed.

Lemma issued_names (d : Dist) (st : Store) (ps : list string) (h : string * list R) :
  h ∈ issued d st ps ->
  h.1 ∈ ps /\ exists g, grad st !! h.1 = Some g /\
                       h.2 = map (fun x => x / IZR (world_size d)) g.
Proof.
  unfold issued. intros H. apply list_elem_of_omap in H as [p [Hp H]].
  destruct (grad st !! p) as [g|] eqn:E; [|discriminate].
  cbn in H. inversion H; subst. cbn. eauto.
Qed.

(** The loop over [non_ac_params]. *)
Lemma sync_grad_fold (d : Dist) (ps : list string) :
  NoDup ps ->
  forall (st : Store) (hs : list (string * list R)),
    let r := foldl (sync_grad d) (st, hs) ps in
    r.2 = hs ++ issued d st ps /\
    (forall q, grad r.1 !! q
               = if decide (q ∈ ps)
                 then map (fun x => x / IZR (world_size d)) <$> grad st !! q
                 else grad st !! q) /\
    log r.1 = log st ++ flat_map (fun h : string * list R =>
                                    [EvDiv h.1; EvAllReduce h.1])
                                 (issued d st ps) /\
    data r.1 = data st.
Proof.
  induction 1 as [|p ps Hp Hnd IH]; intros st hs r.
  - subst r. cbn. rewrite !app_nil_r. repeat split.
  - subst r. cbn [foldl].
    destruct (grad st !! p) as [g|] eqn:E.
    + set (g' := map (fun x => x / IZR (world_size d)) g).
      set (st1 := emit [EvDiv p; EvAllReduce p]
                    (set_grad (<[p := g']> (grad st)) st)).
      assert (Hs : sync_grad d (st, hs) p = (st1, hs ++ [(p, g')])).
      { unfold sync_grad. cbn [fst snd]. now rewrite E. }
      rewrite Hs.
      destruct (IH st1 (hs ++ [(p, g')])) as (H2 & Hg & Hl & Hd).
      assert (Hiss : issued d st1 ps = issued d st ps).
      { apply issued_ext. intros q Hq. unfold st1. cbn.
        apply lookup_insert_ne. intros ->. contradiction. }
      rewrite Hiss in H2, Hl. rewrite (issued_cons_Some d st p ps g E).
      fold g'. repeat split.
      * rewrite H2, <- app_assoc. reflexivity.
      * intros q. rewrite Hg. unfold st1. cbn.
        destruct (decide (q = p)) as [->|Hne].
        -- rewrite decide_False by exact Hp. rewrite decide_True by left.
           rewrite lookup_insert_eq, E. reflexivity.
        -- rewrite lookup_insert_ne by congruence.
           destruct (decide (q ∈ ps)) as [Hin|Hnin].
           ++ rewrite decide_True by now right. reflexivity.
           ++ rewrite decide_False; [reflexivity|].
              intros [?|?]%elem_of_cons; contradiction.
      * rewrite Hl. unfold st1. cbn. rewrite <- app_assoc. reflexivity.
      * rewrite Hd. reflexivity.
    + assert (Hs : sync_grad d (st, hs) p = (st, hs)).
      { unfold sync_grad. cbn [fst snd]. now rewrite E. }
      rewrite Hs.
      destruct (IH st hs) as (H2 & Hg & Hl & Hd).
      rewrite (issued_cons_None d st p ps E). repeat split; try assumption.
      intros q. rewrite Hg.
      destruct (decide (q = p)) as [->|Hne].
      * rewrite decide_False by exact Hp. rewrite decide_True by left.
        now rewrite E.
      * destruct (decide (q ∈ ps)) as [Hin|Hnin].
        -- rewrite decide_True by now right. reflexivity.
        -- rewrite decide_False; [reflexivity|].
           intros [?|?]%elem_of_cons; contradiction.
Qed.

Lemma foldl_alter_other (f : list R -> list R) (ps : list string)
    (g : gmap string (list R)) (q : string) :
  q ∉ ps -> foldl (fun g p => alter f p g) g ps !! q = g !! q.
Proof.
  revert g. induction ps as [|p ps IH]; intros g Hq; [reflexivity|].
  cbn. rewrite IH by (intros ?; apply Hq; now right).
  apply lookup_alter_ne. intros ->. apply Hq. left.
Qed.

Lemma foldl_alter_agree (f : list R -> list R) (ps : list string)
    (g1 g2 : gmap string (list R)) (q : string) :
  g1 !! q = g2 !! q ->
  foldl (fun g p => alter f p g) g1 ps !! q
  = foldl (fun g p => alter f p g) g2 ps !! q.
Proof.
  revert g1 g2. induction ps as [|p ps IH]; intros g1 g2 H; [exact H|].
  cbn. apply IH. destruct (decide (p = q)) as [->|Hne].
  - rewrite !lookup_alter_eq. now rewrite H.
  - now rewrite !lookup_alter_ne.
Qed.

Lemma clip_grad_norm_log (ps : list string) (max_norm : R) (st : Store) :
  log (clip_grad_norm_ ps max_norm st).1 = log st ++ [EvClipGradNorm ps].
Proof. reflexivity. Qed.

Lemma clip_grad_norm_data (ps : list string) (max_norm : R) (st : Store) :
  data (clip_grad_norm_ ps max_norm st).1 = data st.
Proof. reflexivity. Qed.

(** Clipping a group touches the gradients of that group only. *)
Lemma clip_grad_norm_other (ps : list string) (max_norm : R) (st : Store)
    (q : string) :
  q ∉ ps -> grad (clip_grad_norm_ ps max_norm st).1 !! q = grad st !! q.
Proof. intros Hq. unfold clip_grad_norm_. cbn. now apply foldl_alter_other. Qed.

(** Its outcome depends on the gradients of the group only. *)
Lemma clip_grad_norm_agree (ps : list string) (max_norm : R) (st1 st2 : Store) :
  (forall p, p ∈ ps -> grad st1 !! p = grad st2 !! p) ->
  (clip_grad_norm_ ps max_norm st1).2 = (clip_grad_norm_ ps max_norm st2).2 /\
  forall q, grad st1 !! q = grad st2 !! q ->
    grad (clip_grad_norm_ ps max_norm st1).1 !! q
    = grad (clip_grad_norm_ ps max_norm st2).1 !! q.
Proof.
  intros H.
  assert (Hg : omap (fun p => grad st1 !! p) ps = omap (fun p => grad st2 !! p) ps).
  { apply list_omap_ext. induction ps as [|p ps IH]; constructor.
    - apply H. left.
    - apply IH. intros q Hq. apply H. now right. }
  unfold clip_grad_norm_. cbn. rewrite Hg. split; [reflexivity|].
  intros q Hq. now apply foldl_alter_agree.
Qed.

Lemma ac_names_prefixed (ps : list string) (q : string) :
  q ∈ ac_names ps -> String.prefix "actor_critic." q = true.
Proof.
  unfold ac_names. intros H. apply list_elem_of_In, in_map_iff in H as [n [<- _]].
  cbn. now destruct n.
Qed.

Lemma not_in_ac_names (ps : list string) (q : string) :
  String.prefix "actor_critic." q = false -> q ∉ ac_names ps.
Proof.
  intros Hq Hin. apply ac_names_prefixed in Hin. congruence.
Qed.

(** The loop over the auxiliary parameter groups. *)
Lemma clip_aux_log (groups : list (string * list string)) (max_norm : R)
    (st : Store) :
  log (foldl (fun st (v : string * list string) =>
                (clip_grad_norm_ (ac_names v.2) max_norm st).1) st groups)
  = log st ++ map (fun v : string * list string => EvClipGradNorm (ac_names v.2))
                  groups.
Proof.
  revert st. induction groups as [|v groups IH]; intros st; cbn [foldl map].
  - now rewrite app_nil_r.
  - rewrite IH, clip_grad_norm_log, <- app_assoc. reflexivity.
Qed.

Lemma clip_aux_data (groups : list (string * list string)) (max_norm : R)
    (st : Store) :
  data (foldl (fun st (v : string * list string) =>
                 (clip_grad_norm_ (ac_names v.2) max_norm st).1) st groups)
  = data st.
Proof.
  revert st. induction groups as [|v groups IH]; intros st; cbn [foldl];
    [reflexivity|]. now rewrite IH.
Qed.

Lemma clip_aux_other (groups : list (string * list string)) (max_norm : R)
    (st : Store) (q : string) :
  String.prefix "actor_critic." q = false ->
  grad (foldl (fun st (v : string * list string) =>
                 (clip_grad_norm_ (ac_names v.2) max_norm st).1) st groups) !! q
  = grad st !! q.
Proof.
  intros Hq. revert st. induction groups as [|v groups IH]; intros st;
    cbn [foldl]; [reflexivity|].
  rewrite IH. apply clip_grad_norm_other. now apply not_in_ac_names.
Qed.

Lemma clip_aux_agree (groups : list (string * list string)) (max_norm : R)
    (st1 st2 : Store) :
  (forall p, String.prefix "actor_critic." p = true ->
             grad st1 !! p = grad st2 !! p) ->
  forall q, String.prefix "actor_critic." q = true ->
    grad (foldl (fun st (v : string * list string) =>
                   (clip_grad_norm_ (ac_names v.2) max_norm st).1) st1 groups) !! q
    = grad (foldl (fun st (v : string * list string) =>
                     (clip_grad_norm_ (ac_names v.2) max_norm st).1) st2 groups) !! q.
Proof.
  revert st1 st2. induction groups as [|v groups IH]; intros st1 st2 H q Hq;
    cbn [foldl]; [now apply H|].
  apply IH; [|exact Hq]. intros p Hp.
  apply clip_grad_norm_agree; [|now apply H].
  intros p' Hp'. apply H. now apply ac_names_prefixed in Hp'.
Qed.

(** The loop over the handles. *)
Lemma wait_fold_log (d : Dist) (hs : list (string * list R)) (st : Store) :
  log (foldl (wait d) st hs)
  = log st ++ map (fun h : string * list R => EvWait h.1) hs.
Proof.
  revert st. induction hs as [|h hs IH]; intros st; cbn [foldl map].
  - now rewrite app_nil_r.
  - rewrite IH. cbn. now rewrite <- app_assoc.
Qed.

Lemma wait_fold_data (d : Dist) (hs : list (string * list R)) (st : Store) :
  data (foldl (wait d) st hs) = data st.
Proof.
  revert st. induction hs as [|h hs IH]; intros st; cbn [foldl];
    [reflexivity|]. now rewrite IH.
Qed.

Lemma wait_fold_other (d : Dist) (hs : list (string * list R)) (st : Store)
    (q : string) :
  q ∉ map fst hs -> grad (foldl (wait d) st hs) !! q = grad st !! q.
Proof.
  revert st. induction hs as [|h hs IH]; intros st Hq; cbn [foldl];
    [reflexivity|].
  rewrite IH by (intros ?; apply Hq; now right).
  cbn. apply lookup_insert_ne. intros E. apply Hq. rewrite <- E. left.
Qed.

Lemma wait_fold_in (d : Dist) (hs : list (string * list R)) (st : Store)
    (q : string) (c : list R) :
  NoDup (map fst hs) -> (q, c) ∈ hs ->
  grad (foldl (wait d) st hs) !! q = Some (all_reduce d q c).
Proof.
  revert st. induction hs as [|h hs IH]; intros st Hnd Hin.
  - inversion Hin.
  - cbn [map] in Hnd. apply NoDup_cons in Hnd as [Hh Hnd]. cbn [foldl].
    apply elem_of_cons in Hin as [<-|Hin].
    + rewrite wait_fold_other by exact Hh. cbn. apply lookup_insert_eq.
    + now apply IH.
Qed.

Lemma issued_in (d : Dist) (st : Store) (ps : list string) (p : string)
    (g : list R) :
  p ∈ ps -> grad st !! p = Some g ->
  (p, map (fun x => x / IZR (world_size d)) g) ∈ issued d st ps.
Proof.
  intros Hp Hg. unfold issued. apply list_elem_of_omap.
  exists p. split; [exact Hp|]. now rewrite Hg.
Qed.

Lemma issued_fst_in (d : Dist) (st : Store) (ps : list string) (q : string) :
  q ∈ map fst (issued d st ps) -> q ∈ ps /\ is_Some (grad st !! q).
Proof.
  intros H. apply list_elem_of_In, in_map_iff in H as [h [<- Hh]].
  apply list_elem_of_In, issued_names in Hh as [Hin [g [Hg _]]]. eauto.
Qed.

Lemma issued_fst_NoDup (d : Dist) (st : Store) (ps : list string) :
  NoDup ps -> NoDup (map fst (issued d st ps)).
Proof.
  induction 1 as [|p ps Hp Hnd IH]; [constructor|].
  destruct (grad st !! p) as [g|] eqn:E.
  - rewrite (issued_cons_Some d st p ps g E). cbn. constructor; [|exact IH].
    intros Hin. apply issued_fst_in in Hin as [Hin _]. contradiction.
  - now rewrite (issued_cons_None d st p ps E).
Qed.

(** [before_step] with an initialised group, phase by phase. *)
Lemma before_step_dist (self : PPO) (d : Dist) (st : Store) :
  let r := foldl (sync_grad d) (st, []) (non_ac_params self) in
  let c := clip_grad_norm_ (ac_names (policy_parameters (actor_critic self)))
             (max_grad_norm self) r.1 in
  let a := foldl (fun st (v : string * list string) =>
                    (clip_grad_norm_ (ac_names v.2) (max_grad_norm self) st).1)
                 c.1 (aux_loss_parameters (actor_critic self)) in
  before_step self (Some d) st = (foldl (wait d) a r.2, c.2).
Proof.
  intros r c a. unfold before_step. fold r. destruct r as [st1 hs] eqn:Er.
  cbn [fst snd] in *. fold c. destruct c as [st2 n] eqn:Ec. reflexivity.
Qed.

Lemma before_step_local (self : PPO) (st : Store) :
  let c := clip_grad_norm_ (ac_names (policy_parameters (actor_critic self)))
             (max_grad_norm self) st in
  before_step self None st
  = (foldl (fun st (v : string * list string) =>
              (clip_grad_norm_ (ac_names v.2) (max_grad_norm self) st).1)
           c.1 (aux_loss_parameters (actor_critic self)), c.2).
Proof.
  intros c. unfold before_step. fold c. destruct c as [st2 n]. reflexivity.
Qed.

(** A parameter outside the actor-critic leaves [before_step] divided by
    the world size and all-reduced when it has a gradient, and without a
    gradient when it had none. *)
Lemma before_step_non_ac (self : PPO) (d : Dist) (st : Store) (p : string) :
  non_ac_params_ok self -> p ∈ non_ac_params self ->
  grad (before_step self (Some d) st).1 !! p
  = (fun g => all_reduce d p (map (fun x => x / IZR (world_size d)) g))
      <$> grad st !! p.
Proof.
  intros [Hnd Hpre] Hp. rewrite before_step_dist. cbn [fst].
  destruct (sync_grad_fold d _ Hnd st []) as (Hhs & Hg & _ & _).
  cbn [app] in Hhs. rewrite Hhs.
  assert (Hq : String.prefix "actor_critic." p = false).
  { rewrite Forall_forall in Hpre. now apply Hpre. }
  destruct (grad st !! p) as [g|] eqn:E; cbn [fmap option_fmap option_map].
  - apply wait_fold_in.
    + now apply issued_fst_NoDup.
    + now apply issued_in.
  - rewrite wait_fold_other.
    + rewrite clip_aux_other, clip_grad_norm_other, Hg by
        (try exact Hq; now apply not_in_ac_names).
      rewrite decide_True by exact Hp. now rewrite E.
    + intros Hin. apply issued_fst_in in Hin as [_ [g Hg']]. congruence.
Qed.

(** Without a group such a parameter is left as it was. *)
Lemma before_step_local_non_ac (self : PPO) (st : Store) (p : string) :
  String.prefix "actor_critic." p = false ->
  grad (before_step self None st).1 !! p = grad st !! p.
Proof.
  intros Hq. rewrite before_step_local. cbn [fst].
  rewrite clip_aux_other, clip_grad_norm_other by
    (try exact Hq; now apply not_in_ac_names).
  reflexivity.
Qed.

(** The parameters of the actor-critic see nothing of the group: their
    gradients, and the returned norm, are those of a run without it. *)
Lemma before_step_ac (self : PPO) (d : Dist) (st : Store) :
  non_ac_params_ok self ->
  (before_step self (Some d) st).2 = (before_step self None st).2 /\
  forall q, String.prefix "actor_critic." q = true ->
    grad (before_step self (Some d) st).1 !! q
    = grad (before_step self None st).1 !! q.
Proof.
  intros [Hnd Hpre]. rewrite before_step_dist, before_step_local. cbn [fst snd].
  destruct (sync_grad_fold d _ Hnd st []) as (Hhs & Hg & _ & _).
  cbn [app] in Hhs. rewrite Hhs.
  set (r := foldl (sync_grad d) (st, []) (non_ac_params self)) in *.
  assert (Hnot : forall q, String.prefix "actor_critic." q = true ->
                           q ∉ non_ac_params self).
  { intros q Hq Hin. rewrite Forall_forall in Hpre. apply Hpre in Hin. congruence. }
  assert (Hagree : forall q, String.prefix "actor_critic." q = true ->
                             grad r.1 !! q = grad st !! q).
  { intros q Hq. rewrite Hg. now rewrite decide_False by now apply Hnot. }
  destruct (clip_grad_norm_agree
              (ac_names (policy_parameters (actor_critic self)))
              (max_grad_norm self) r.1 st) as [Hn Hc].
  { intros p Hp. apply Hagree. now apply ac_names_prefixed in Hp. }
  split; [exact Hn|]. intros q Hq.
  rewrite wait_fold_other.
  - apply clip_aux_agree; [|exact Hq]. intros p Hp. apply Hc. now apply Hagree.
  - intros Hin. apply issued_fst_in in Hin as [Hin _]. now apply (Hnot q).
Qed.

(** ** What the constructor guarantees *)

Lemma filter_qualified_ac (ps : list (string * bool)) :
  List.filter (fun p : string * bool => negb (String.prefix "actor_critic." p.1))
              (qualify "actor_critic." ps) = [].
Proof.
  induction ps as [|[n b] ps IH]; [reflexivity|].
  cbn. destruct n; exact IH.
Qed.

Lemma init_non_ac_params (ac : NetPolicy) (clip : R)
    (epochs mini_batches : Z) (vcoef ecoef acoef lr eps max_norm : R)
    (clipped normalized : bool) (target_factor : R) (adaptive : bool)
    (aux_tasks : list AuxTask) (aux_names : list string)
    (aux_cfg : option AuxCfg) :
  let self := __init__ ac clip epochs mini_batches vcoef ecoef acoef lr eps
                max_norm clipped normalized target_factor adaptive
                aux_tasks aux_names aux_cfg in
  non_ac_params self
  = match entropy_coef self with
    | FixedCoef _ => []
    | AdaptiveCoef _ => ["entropy_coef.alpha"%string]
    end.
Proof.
  intros self. unfold self, __init__. cbn [non_ac_params entropy_coef].
  unfold named_parameters. rewrite List.filter_app, filter_qualified_ac.
  match goal with
  | |- context [match ?e with FixedCoef _ => _ | AdaptiveCoef _ => _ end] =>
      destruct e
  end; reflexivity.
Qed.

Lemma init_non_ac_params_ok (ac : NetPolicy) (clip : R)
    (epochs mini_batches : Z) (vcoef ecoef acoef lr eps max_norm : R)
    (clipped normalized : bool) (target_factor : R) (adaptive : bool)
    (aux_tasks : list AuxTask) (aux_names : list string)
    (aux_cfg : option AuxCfg) :
  non_ac_params_ok
    (__init__ ac clip epochs mini_batches vcoef ecoef acoef lr eps
       max_norm clipped normalized target_factor adaptive
       aux_tasks aux_names aux_cfg).
Proof.
  unfold non_ac_params_ok. rewrite init_non_ac_params.
  match goal with
  | |- context [match ?e with FixedCoef _ => _ | AdaptiveCoef _ => _ end] =>
      destruct e
  end.
  - split; constructor.
  - split.
    + apply NoDup_singleton.
    + repeat constructor.
Qed.

Lemma from_config_non_ac_params_ok (ac : NetPolicy) (config : Config)
    (aux_tasks : list AuxTask) (aux_names : list string)
    (aux_cfg : option AuxCfg) :
  non_ac_params_ok (from_config ac config aux_tasks aux_names aux_cfg).
Proof. apply init_non_ac_params_ok. Qed.

(** ** The log of [before_step] *)

Lemma before_step_log_dist (self : PPO) (d : Dist) (st : Store) :
  non_ac_params_ok self ->
  log (before_step self (Some d) st).1
  = log st ++ before_step_events self (issued d st (non_ac_params self)).
Proof.
  intros [Hnd _]. rewrite before_step_dist. cbn [fst].
  destruct (sync_grad_fold d _ Hnd st []) as (Hhs & _ & Hl & _).
  cbn [app] in Hhs. rewrite Hhs, wait_fold_log, clip_aux_log, clip_grad_norm_log, Hl.
  unfold before_step_events. now rewrite <- !app_assoc.
Qed.

Lemma before_step_log_local (self : PPO) (st : Store) :
  log (before_step self None st).1 = log st ++ before_step_events self [].
Proof.
  rewrite before_step_local. cbn [fst].
  rewrite clip_aux_log, clip_grad_norm_log.
  unfold before_step_events. cbn [flat_map map]. rewrite app_nil_r.
  now rewrite <- !app_assoc.
Qed.

(** ** The monitor *)

Lemma in_flight_after_app (l1 l2 : list Event) (q : list string) :
  in_flight_after (l1 ++ l2) q = in_flight_after l1 q ≫= in_flight_after l2.
Proof.
  revert q. induction l1 as [|e l1 IH]; intros q; [reflexivity|].
  destruct e; cbn; try apply IH. destruct q; [apply IH|reflexivity].
Qed.

Lemma in_flight_issue (hs : list (string * list R)) (q : list string) :
  in_flight_after
    (flat_map (fun h : string * list R => [EvDiv h.1; EvAllReduce h.1]) hs) q
  = Some (rev (map fst hs) ++ q).
Proof.
  revert q. induction hs as [|h hs IH]; intros q; [reflexivity|].
  cbn. rewrite IH, <- app_assoc. reflexivity.
Qed.

Lemma in_flight_clip (groups : list (string * list string)) (q : list string) :
  in_flight_after
    (map (fun v : string * list string => EvClipGradNorm (ac_names v.2)) groups) q
  = Some q.
Proof. induction groups as [|v groups IH]; [reflexivity|exact IH]. Qed.

Lemma in_flight_wait (hs : list (string * list R)) (q : list string) :
  (forall x, x ∈ q -> x ∈ map fst hs) ->
  in_flight_after (map (fun h : string * list R => EvWait h.1) hs) q = Some [].
Proof.
  revert q. induction hs as [|h hs IH]; intros q Hq.
  - destruct q as [|x q]; [reflexivity|].
    exfalso. specialize (Hq x). cbn in Hq.
    eapply not_elem_of_nil. apply Hq. left.
  - cbn. apply IH. intros x Hx.
    apply list_elem_of_In, filter_In in Hx as [Hx Hne].
    apply list_elem_of_In, Hq in Hx. cbn in Hx.
    apply elem_of_cons in Hx as [->|Hx]; [|exact Hx].
    rewrite String.eqb_refl in Hne. discriminate.
Qed.

(** Whatever handles were collected, none is in flight after the events of
    [before_step]. *)
Lemma before_step_events_awaited (self : PPO) (hs : list (string * list R)) :
  in_flight_after (before_step_events self hs) [] = Some [].
Proof.
  unfold before_step_events.
  rewrite in_flight_after_app, in_flight_issue. cbn.
  rewrite in_flight_after_app, in_flight_clip. cbn.
  apply in_flight_wait. intros x Hx. rewrite app_nil_r in Hx.
  apply list_elem_of_In. apply list_elem_of_In in Hx. now apply in_rev.
Qed.

(** ** One minibatch update, seen through the log *)

Lemma update_from_batch_log (ext : Externals) (self self' : PPO)
    (dist : option Dist) (batch : Batch) (epoch : Z)
    (rollouts : RolloutStorage) (m m' : gmap string (list (option R)))
    (st st' : Store) :
  non_ac_params_ok self ->
  _update_from_batch ext self dist batch epoch rollouts m st = Ok (self', st', m') ->
  exists hs tail,
    (tail = [] \/ tail = [EvProjectIntoBounds]) /\
    log st' = log st ++ [EvSetGradsToNone; EvBackward]
                ++ before_step_events self hs ++ EvOptimizerStep :: tail.
Proof.
  intros Hok. unfold _update_from_batch. intros H.
  destruct (bind_Ok _ _ _ H) as [st1 [Hst1 H1]]. clear H.
  assert (Hlog1 : log st1 = log st ++ [EvSetGradsToNone]).
  { unfold _set_grads_to_none in Hst1.
    destruct (bind_Ok _ _ _ Hst1) as [opt [_ Ho]]. now inversion Ho. }
  destruct (bind_Ok _ _ _ H1) as [ev [_ H2]]. clear H1.
  destruct (reduced_losses self batch ev) as [[action_loss value_loss] dist_entropy].
  destruct (bind_Ok _ _ _ H2) as [aux_losses [_ H3]]. clear H2.
  destruct (bind_Ok _ _ _ H3) as [all_losses [_ H4]]. clear H3.
  cbv zeta in H4.
  set (sb := run_backward ext self batch st1) in H4.
  assert (Hlogb : log sb = log st ++ [EvSetGradsToNone; EvBackward]).
  { unfold sb, run_backward. cbn. rewrite Hlog1, <- app_assoc. reflexivity. }
  assert (Hbs : exists hs, log (before_step self dist sb).1
                           = log sb ++ before_step_events self hs).
  { destruct dist as [d|].
    - eexists. now apply before_step_log_dist.
    - eexists. apply before_step_log_local. }
  destruct Hbs as [hs Hbs].
  destruct (before_step self dist sb) as [st2 grad_norm]. cbn [fst] in Hbs.
  destruct (bind_Ok _ _ _ H4) as [[self1 st3] [Hstep H5]]. clear H4.
  destruct (bind_Ok _ _ _ H5) as [m1 [_ H6]]. clear H5.
  inversion H6; subst. clear H6.
  unfold optimizer_step in Hstep.
  destruct (bind_Ok _ _ _ Hstep) as [opt [_ Ho]].
  destruct (step ext opt (data st2) (grad st2)) as [opt' w]. inversion Ho; subst.
  exists hs. unfold after_step. cbn [entropy_coef set_optimizer].
  destruct (entropy_coef self) as [c|l].
  - exists []. split; [now left|]. cbn. rewrite Hbs, Hlogb.
    now rewrite <- !app_assoc.
  - exists [EvProjectIntoBounds]. split; [now right|]. cbn.
    rewrite Hbs, Hlogb. now rewrite <- !app_assoc.
Qed.

(** In a minibatch update every issued reduction is waited for, and all of
    them before the optimizer step. *)
Lemma update_from_batch_awaited (ext : Externals) (self self' : PPO)
    (dist : option Dist) (batch : Batch) (epoch : Z)
    (rollouts : RolloutStorage) (m m' : gmap string (list (option R)))
    (st st' : Store) :
  non_ac_params_ok self ->
  _update_from_batch ext self dist batch epoch rollouts m st = Ok (self', st', m') ->
  awaited_before_step (new_events st st') /\
  EvOptimizerStep ∈ new_events st st'.
Proof.
  intros Hok H.
  destruct (update_from_batch_log _ _ _ _ _ _ _ _ _ _ _ Hok H)
    as (hs & tail & Htail & Hlog).
  unfold awaited_before_step, new_events. rewrite Hlog, drop_app_length.
  split.
  - cbn [app in_flight_after].
    rewrite in_flight_after_app, before_step_events_awaited. cbn.
    destruct Htail as [->| ->]; reflexivity.
  - apply elem_of_app. right. apply elem_of_app. right. left.
Qed.

(** ** Two ranks *)

Lemma contributions_issued (self : PPO) (ws : Z) (st : Store) :
  NoDup (non_ac_params self) ->
  contributions self ws st
  = issued {| world_size := ws; all_reduce := fun _ t => t |} st
           (non_ac_params self).
Proof.
  intros Hnd. unfold contributions.
  now destruct (sync_grad_fold {| world_size := ws; all_reduce := fun _ t => t |}
                  _ Hnd st []) as (-> & _).
Qed.

Lemma zip_with_halves (g1 g2 : list R) :
  zip_with Rplus (map (fun x => x / 2) g1) (map (fun x => x / 2) g2)
  = zip_with (fun a b => (a + b) / 2) g1 g2.
Proof.
  revert g2. induction g1 as [|a g1 IH]; intros [|b g2]; try reflexivity.
  cbn. rewrite IH. f_equal. field.
Qed.

Lemma zip_with_average_comm (g1 g2 : list R) :
  zip_with (fun a b => (a + b) / 2) g2 g1
  = zip_with (fun a b => (a + b) / 2) g1 g2.
Proof.
  revert g2. induction g1 as [|a g1 IH]; intros [|b g2]; try reflexivity.
  cbn. rewrite IH. f_equal. field.
Qed.

(** What the sum all-reduce of a two-rank group leaves on one rank. *)
Lemma spmd_pair_all_reduce (self : PPO) (peer : Store) (p : string)
    (t g : list R) :
  non_ac_params_ok self -> p ∈ non_ac_params self ->
  grad peer !! p = Some g ->
  world_size (spmd self [peer]) = 2%Z /\
  all_reduce (spmd self [peer]) p t
  = zip_with Rplus t (map (fun x => x / 2) g).
Proof.
  intros [Hnd _] Hp Hg. split; [reflexivity|].
  unfold spmd. cbn [all_reduce foldl length].
  rewrite contributions_issued by exact Hnd.
  erewrite elem_of_list_to_map_1; [reflexivity| |].
  - now apply issued_fst_NoDup.
  - exact (issued_in {| world_size := 2; all_reduce := fun _ t => t |}
             peer (non_ac_params self) p g Hp Hg).
Qed.

(** Two ranks with gradients [g1] and [g2] on a parameter outside the
    actor-critic both leave [before_step] with [(g1 + g2) / 2]. *)
Lemma two_ranks_average (self : PPO) (st1 st2 : Store) (p : string)
    (g1 g2 : list R) :
  non_ac_params_ok self -> p ∈ non_ac_params self ->
  grad st1 !! p = Some g1 -> grad st2 !! p = Some g2 ->
  grad (before_step self (Some (spmd self [st2])) st1).1 !! p
  = Some (zip_with (fun a b => (a + b) / 2) g1 g2) /\
  grad (before_step self (Some (spmd self [st1])) st2).1 !! p
  = Some (zip_with (fun a b => (a + b) / 2) g1 g2).
Proof.
  intros Hok Hp H1 H2. split.
  - rewrite before_step_non_ac, H1 by assumption. cbn [fmap option_fmap option_map].
    destruct (spmd_pair_all_reduce self st2 p
                (map (fun x => x / IZR (world_size (spmd self [st2]))) g1) g2
                Hok Hp H2) as [Hws ->].
    rewrite Hws. now rewrite zip_with_halves.
  - rewrite before_step_non_ac, H2 by assumption. cbn [fmap option_fmap option_map].
    destruct (spmd_pair_all_reduce self st1 p
                (map (fun x => x / IZR (world_size (spmd self [st1]))) g2) g1
                Hok Hp H1) as [Hws ->].
    rewrite Hws. now rewrite zip_with_halves, zip_with_average_comm.
Qed.

Lemma before_step_events_clip (self : PPO) (hs : list (string * list R))
    (ps : list string) :
  EvClipGradNorm ps ∈ before_step_events self hs ->
  ps = ac_names (policy_parameters (actor_critic self)) \/
  exists v, v ∈ aux_loss_parameters (actor_critic self) /\ ps = ac_names v.2.
Proof.
  unfold before_step_events. intros H.
  apply elem_of_app in H as [H|H].
  - apply list_elem_of_In, in_flat_map in H as [h [_ Hh]].
    cbn in Hh. destruct Hh as [Hh|[Hh|[]]]; discriminate.
  - apply elem_of_cons in H as [H|H]; [left; congruence|].
    apply elem_of_app in H as [H|H].
    + right. apply list_elem_of_In, in_map_iff in H as [v [Hv Hin]].
      exists v. split; [now apply list_elem_of_In|congruence].
    + apply list_elem_of_In, in_map_iff in H as [h [Hh _]]. discriminate.
Qed.

(** ** Distributed averaging *)

(** A parameter that is neither one of [non_ac_params] nor one of the
    actor-critic sees nothing of [before_step], group or not. *)
Lemma before_step_unregistered (self : PPO) (d : Dist) (st : Store) (q : string) :
  non_ac_params_ok self ->
  String.prefix "actor_critic." q = false ->
  q ∉ non_ac_params self ->
  grad (before_step self (Some d) st).1 !! q = grad st !! q.
Proof.
  intros [Hnd Hpre] Hq Hnin. rewrite before_step_dist. cbn [fst].
  destruct (sync_grad_fold d _ Hnd st []) as (Hhs & Hg & _ & _).
  cbn [app] in Hhs. rewrite Hhs.
  rewrite wait_fold_other.
  - rewrite clip_aux_other, clip_grad_norm_other, Hg by
      (try exact Hq; now apply not_in_ac_names).
    now rewrite decide_False by exact Hnin.
  - intros Hin. apply issued_fst_in in Hin as [Hin _]. contradiction.
Qed.

(** With or without a group, [before_step] does the same to every gradient
    outside [non_ac_params]. *)
Lemma before_step_outside_non_ac (self : PPO) (d : Dist) (st : Store) (q : string) :
  non_ac_params_ok self ->
  q ∉ non_ac_params self ->
  grad (before_step self (Some d) st).1 !! q
  = grad (before_step self None st).1 !! q.
Proof.
  intros Hok Hnin.
  destruct (String.prefix "actor_critic." q) eqn:Hq.
  - now apply before_step_ac.
  - rewrite before_step_unregistered, before_step_local_non_ac by assumption.
    reflexivity.
Qed.

(** C4 (as amended).  With an initialised group, [before_step] divides by
    the world size and sum-all-reduces the gradient of every parameter of
    [non_ac_params] that has one: these are the parameters registered on the
    updater module under a name that does not start with [actor_critic.],
    which for an updater the constructor built is the parameter of the
    adaptive entropy coefficient, or none, whatever auxiliary tasks it was
    given.  Two ranks holding [g1] and [g2] for such a parameter both end
    with [(g1 + g2) / 2].  Every other gradient, that of a parameter of the
    actor-critic in particular, is what a run without the group leaves.
    Every issued reduction has been waited for when [before_step] returns,
    and so before the optimizer step of the minibatch. *)
Theorem distributed_gradient_sync (ext : Externals) (self : PPO) (d : Dist)
    (st : Store) :
  non_ac_params_ok self ->
  (forall p g, p ∈ non_ac_params self -> grad st !! p = Some g ->
     grad (before_step self (Some d) st).1 !! p
     = Some (all_reduce d p (map (fun x => x / IZR (world_size d)) g))) /\
  (forall st1 st2 p g1 g2,
     p ∈ non_ac_params self ->
     grad st1 !! p = Some g1 -> grad st2 !! p = Some g2 ->
     grad (before_step self (Some (spmd self [st2])) st1).1 !! p
     = Some (zip_with (fun a b => (a + b) / 2) g1 g2) /\
     grad (before_step self (Some (spmd self [st1])) st2).1 !! p
     = Some (zip_with (fun a b => (a + b) / 2) g1 g2)) /\
  (forall q, String.prefix "actor_critic." q = true ->
     grad (before_step self (Some d) st).1 !! q
     = grad (before_step self None st).1 !! q) /\
  awaited_before_step (new_events st (before_step self (Some d) st).1) /\
  (forall batch epoch rollouts m self' st' m',
     _update_from_batch ext self (Some d) batch epoch rollouts m st
       = Ok (self', st', m') ->
     awaited_before_step (new_events st st') /\
     EvOptimizerStep ∈ new_events st st') /\
  (forall q, q ∉ non_ac_params self ->
     grad (before_step self (Some d) st).1 !! q
     = grad (before_step self None st).1 !! q) /\
  (forall ac config aux_tasks aux_names aux_cfg,
     let built := from_config ac config aux_tasks aux_names aux_cfg in
     non_ac_params built
     = match entropy_coef built with
       | FixedCoef _ => []
       | AdaptiveCoef _ => ["entropy_coef.alpha"%string]
       end).
Proof.
  intros Hok. repeat split.
  - intros p g Hp Hg. now rewrite before_step_non_ac, Hg by assumption.
  - now apply (two_ranks_average self st1 st2 p g1 g2).
  - now apply (two_ranks_average self st1 st2 p g1 g2).
  - now apply before_step_ac.
  - unfold awaited_before_step, new_events.
    rewrite before_step_log_dist, drop_app_length by exact Hok.
    apply before_step_events_awaited.
  - now apply (update_from_batch_awaited _ _ _ _ _ _ _ _ _ _ _ Hok H).
  - now apply (update_from_batch_awaited _ _ _ _ _ _ _ _ _ _ _ Hok H).
  - intros q Hq. now apply before_step_outside_non_ac.
  - intros ac config aux_tasks aux_names aux_cfg. apply init_non_ac_params.
Qed.

Lemma distributed_gradient_sync_witness :
  let st1 := demo_rank_store [1] in
  let st2 := demo_rank_store [3] in
  grad (before_step demo_ppo (Some (spmd demo_ppo [st2])) st1).1
    !! "entropy_coef.alpha"%string = Some [(1 + 3) / 2] /\
  grad (before_step demo_ppo (Some (spmd demo_ppo [st1])) st2).1
    !! "entropy_coef.alpha"%string = Some [(1 + 3) / 2].
Proof.
  intros st1 st2.
  destruct (distributed_gradient_sync demo_externals demo_ppo
              (spmd demo_ppo [st2]) st1
              (from_config_non_ac_params_ok _ _ _ _ _))
    as (_ & Hpair & _).
  apply (Hpair st1 st2 "entropy_coef.alpha"%string [1] [3]).
  - apply list_elem_of_In. left. reflexivity.
  - reflexivity.
  - reflexivity.
Defined.

(** C4 as stated fails: the weight of the auxiliary task is no parameter
    of the actor-critic and the optimizer holds it, yet [before_step] with a
    group of two ranks leaves its gradient on each rank as it was, [4] on
    one and [8] on the other, and not at their average [6]. *)
Lemma aux_task_gradient_not_synchronised :
  let st1 := demo_aux_rank_store [4] in
  let st2 := demo_aux_rank_store [8] in
  (exists opt, optimizer demo_attentive_ppo = Some opt /\
               "cpc.weight"%string ∈ param_groups opt) /\
  String.prefix "actor_critic." "cpc.weight" = false /\
  grad st1 !! "cpc.weight"%string = Some [4] /\
  grad st2 !! "cpc.weight"%string = Some [8] /\
  grad (before_step demo_attentive_ppo
          (Some (spmd demo_attentive_ppo [st2])) st1).1 !! "cpc.weight"%string
  = Some [4] /\
  grad (before_step demo_attentive_ppo
          (Some (spmd demo_attentive_ppo [st1])) st2).1 !! "cpc.weight"%string
  = Some [8] /\
  [4] <> zip_with (fun a b => (a + b) / 2) [4] [8] /\
  [8] <> zip_with (fun a b => (a + b) / 2) [4] [8].
Proof.
  intros st1 st2.
  assert (Hnin : "cpc.weight"%string ∉ non_ac_params demo_attentive_ppo).
  { change (non_ac_params demo_attentive_ppo) with (@nil string).
    apply not_elem_of_nil. }
  split; [|split; [reflexivity|split; [reflexivity|split; [reflexivity|]]]].
  - eexists. split; [reflexivity|].
    apply list_elem_of_In. cbn. tauto.
  - split; [|split; [|split]].
    + rewrite before_step_unregistered;
        [reflexivity|apply from_config_non_ac_params_ok|reflexivity|exact Hnin].
    + rewrite before_step_unregistered;
        [reflexivity|apply from_config_non_ac_params_ok|reflexivity|exact Hnin].
    + cbn. intros H. injection H as H. lra.
    + cbn. intros H. injection H as H. lra.
Qed.

(** ** Gradients outside the actor-critic are never norm-clipped *)

(** C10.  [before_step] clips the gradient norm of the policy parameter
    group and of each auxiliary parameter group of the actor-critic, and of
    nothing else.  A parameter of [non_ac_params] keeps its gradient
    unchanged when no group is initialised; with a group its gradient is
    divided by the world size and all-reduced, whatever [max_grad_norm]
    is. *)
Theorem non_ac_gradients_never_clipped (self : PPO) (st : Store) (p : string) :
  non_ac_params_ok self ->
  p ∈ non_ac_params self ->
  grad (before_step self None st).1 !! p = grad st !! p /\
  (forall d,
     grad (before_step self (Some d) st).1 !! p
     = (fun g => all_reduce d p (map (fun x => x / IZR (world_size d)) g))
         <$> grad st !! p) /\
  (forall dist ps,
     EvClipGradNorm ps ∈ new_events st (before_step self dist st).1 ->
     (p ∉ ps) /\
     (ps = ac_names (policy_parameters (actor_critic self)) \/
      exists v, v ∈ aux_loss_parameters (actor_critic self) /\
                ps = ac_names v.2)).
Proof.
  intros Hok Hp.
  assert (Hq : String.prefix "actor_critic." p = false).
  { destruct Hok as [_ Hpre]. rewrite Forall_forall in Hpre. now apply Hpre. }
  split; [|split].
  - now apply before_step_local_non_ac.
  - intros d. now apply before_step_non_ac.
  - intros dist ps Hin.
    assert (Hgroup : ps = ac_names (policy_parameters (actor_critic self)) \/
                     exists v, v ∈ aux_loss_parameters (actor_critic self) /\
                               ps = ac_names v.2).
    { unfold new_events in Hin. destruct dist as [d|].
      - rewrite before_step_log_dist, drop_app_length in Hin by exact Hok.
        now apply before_step_events_clip in Hin.
      - rewrite before_step_log_local, drop_app_length in Hin.
        now apply before_step_events_clip in Hin. }
    split; [|exact Hgroup].
    destruct Hgroup as [->|[v [_ ->]]]; now apply not_in_ac_names.
Qed.

Lemma non_ac_gradients_never_clipped_witness :
  grad (before_step demo_ppo None (demo_rank_store [1])).1
    !! "entropy_coef.alpha"%string = Some [1].
Proof.
  destruct (non_ac_gradients_never_clipped demo_ppo (demo_rank_store [1])
              "entropy_coef.alpha"%string
              (from_config_non_ac_params_ok _ _ _ _ _))
    as [Hlocal _].
  - apply list_elem_of_In. left. reflexivity.
  - rewrite Hlocal. reflexivity.
Defined.

(** * Worked examples *)

(** Case analysis on the comparisons of concrete reals. *)
Ltac real_cases :=
  cbv zeta;
  unfold clamp, clamp_max, where_lt, lt_float, Rmin, Rmax, Rabs;
  repeat match goal with
         | |- context [Rcase_abs ?a] => destruct (Rcase_abs a)
         | |- context [Rle_dec ?a ?b] => destruct (Rle_dec a b)
         | |- context [Rlt_dec ?a ?b] => destruct (Rlt_dec a b)
         | H : context [Rcase_abs ?a] |- _ => destruct (Rcase_abs a)
         | H : context [Rle_dec ?a ?b] |- _ => destruct (Rle_dec a b)
         | H : context [Rlt_dec ?a ?b] |- _ => destruct (Rlt_dec a b)
         end;
  try lra.

(** A value that moved by 0.1 is kept; one that moved by 2 is pulled back
    to 0.2 above the old prediction. *)
Example clip_value_small_change : clip_value 0.2 1.1 1 = 1.1.
Proof. unfold clip_value. real_cases. Qed.

Example clip_value_large_change : clip_value 0.2 3 1 = 1.2.
Proof. unfold clip_value. real_cases. Qed.

(** Advantage 1 at ratio 1.5 with clip 0.2: the clipped surrogate wins. *)
Example action_loss_clipped : action_loss_elem 0.2 1 1.5 = Ropp 1.2.
Proof. unfold action_loss_elem. real_cases. Qed.

(** Negative advantage at the same ratio: the unclipped surrogate wins. *)
Example action_loss_unclipped : action_loss_elem 0.2 (Ropp 1) 1.5 = 1.5.
Proof. unfold action_loss_elem. real_cases. Qed.

(** Ratios 1.2 and 0.8 sit on the bounds for clip 0.2 and are not counted;
    1.5 and 0.5 are. *)
Example fraction_clipped_four : fraction_clipped 0.2 [1.2; 0.8; 1.5; 0.5] = 0.5.
Proof. unfold fraction_clipped, tmean. simpl. real_cases. Qed.

(** Coefficients 2 and 0.5 weigh as 1 and 0.5. *)
Example mean_fn_weighted : mean_fn (demo_batch (Some [2; 0.5])) [4; 4] = 3.
Proof. unfold mean_fn, tmean. simpl. real_cases. Qed.

Example mean_fn_plain : mean_fn (demo_batch None) [4; 2] = 3.
Proof. unfold mean_fn, tmean. simpl. lra. Qed.

(** Four samples, clip 0.2, all ratios 1: the action loss is minus the
    mean of the advantages, here 0. *)
Example action_loss_untrained :
  mean_fn (demo_batch None)
    (action_loss_of 0.2 [1; Ropp 1; 0.5; Ropp 0.5] [1; 1; 1; 1]) = 0.
Proof.
  unfold mean_fn, tmean, action_loss_of, action_loss_elem. simpl. real_cases.
Qed.

(** The weights of the policy, of norm 5, are scaled by
    [min(0.2 / (5 + 1e-6), 1)]; the entropy coefficient keeps its
    gradient. *)
Example before_step_clips_policy_only :
  let r := before_step demo_ppo None (demo_rank_store [7]) in
  r.2 = 5 /\
  grad r.1 !! "entropy_coef.alpha"%string = Some [7] /\
  grad r.1 !! "actor_critic.net.weight"%string
  = Some [3 * Rmin (0.2 / (5 + 1e-6)) 1; 4 * Rmin (0.2 / (5 + 1e-6)) 1].
Proof.
  intros r.
  assert (H5 : sqrt (3 * 3 + (4 * 4 + 0) + 0) = 5).
  { replace (3 * 3 + (4 * 4 + 0) + 0) with (5 * 5) by lra.
    apply sqrt_square. lra. }
  assert (Hn : r.2 = sqrt (3 * 3 + (4 * 4 + 0) + 0)) by reflexivity.
  assert (Hw : grad r.1 !! "actor_critic.net.weight"%string
               = Some [3 * Rmin (0.2 / (r.2 + 1e-6)) 1;
                       4 * Rmin (0.2 / (r.2 + 1e-6)) 1]) by reflexivity.
  rewrite Hw, Hn, H5. repeat split.
Qed.

(** * Further properties of the updater *)

(** ** The loss terms, element by element *)

(** X1.  With value clipping on and a clip width that is not negative, the
    value that enters the squared error is never further than [clip_param]
    from the old prediction. *)
Theorem selected_value_within_clip (self : PPO) (values : list R)
    (batch : Batch) (i : nat) (v old : R) :
  use_clipped_value_loss self = true ->
  0 <= clip_param self ->
  values !! i = Some v ->
  b_value_preds batch !! i = Some old ->
  exists sel,
    selected_values self values batch !! i = Some sel /\
    Rabs (sel - old) <= clip_param self.
Proof.
  intros Hclip Hc Hv Hold. exists (clip_value (clip_param self) v old). split.
  - unfold selected_values. rewrite Hclip. apply lookup_zip_with_Some. eauto.
  - unfold clip_value. real_cases.
Qed.

Lemma selected_value_within_clip_witness :
  exists sel,
    selected_values demo_ppo [1.1; 3] (demo_batch None) !! 1%nat = Some sel /\
    Rabs (sel - 1) <= clip_param demo_ppo.
Proof.
  apply (selected_value_within_clip demo_ppo [1.1; 3] (demo_batch None) 1 3 1);
    [reflexivity|simpl; lra|reflexivity|reflexivity].
Defined.

Lemma clamp_between (x lo hi : R) : lo <= hi -> lo <= clamp x lo hi <= hi.
Proof.
  intros H. unfold clamp, Rmin, Rmax.
  destruct (Rle_dec x lo);
    match goal with |- context [Rle_dec ?a ?b] => destruct (Rle_dec a b) end;
    lra.
Qed.

(** X2.  The surrogate objective of a sample, the negated action loss, is
    capped: by [(1 + clip) * advantage] for an advantage that is not
    negative, by [(1 - clip) * advantage] for one that is not positive, and
    in both cases by the unclipped [advantage * ratio]. *)
Theorem surrogate_objective_capped (clip : R) (advantages ratio : list R)
    (i : nat) (a r : R) :
  0 <= clip ->
  advantages !! i = Some a ->
  ratio !! i = Some r ->
  exists loss,
    action_loss_of clip advantages ratio !! i = Some loss /\
    - loss <= a * r /\
    (0 <= a -> - loss <= a * (1 + clip)) /\
    (a <= 0 -> - loss <= a * (1 - clip)).
Proof.
  intros Hc Ha Hr. exists (action_loss_elem clip a r). split.
  - unfold action_loss_of. apply lookup_zip_with_Some. eauto.
  - unfold action_loss_elem. cbv zeta. rewrite Ropp_involutive.
    pose proof (clamp_between r (1 - clip) (1 + clip)) as Hb.
    pose proof (Rmin_l (a * r) (a * clamp r (1 - clip) (1 + clip))) as Hl.
    pose proof (Rmin_r (a * r) (a * clamp r (1 - clip) (1 + clip))) as Hm.
    repeat split; intros; nra.
Qed.

Lemma surrogate_objective_capped_witness :
  exists loss,
    action_loss_of 0.2 [1; Ropp 1] [1.5; 0.5] !! 0%nat = Some loss /\
    - loss <= 1 * 1.5 /\
    (0 <= 1 -> - loss <= 1 * (1 + 0.2)) /\
    (1 <= 0 -> - loss <= 1 * (1 - 0.2)).
Proof.
  apply (surrogate_objective_capped 0.2 [1; Ropp 1] [1.5; 0.5] 0 1 1.5);
    [lra|reflexivity|reflexivity].
Defined.

Lemma clipped_indicators_bound (c : R) (ratio : list R) :
  0 <= c ->
  0 <= tsum (map (fun r => lt_float (1 + c) r) ratio)
       + tsum (map (fun r => lt_float r (1 - c)) ratio)
  <= INR (length ratio).
Proof.
  intros Hc. induction ratio as [|r ratio IH].
  - simpl. lra.
  - rewrite !map_cons, !tsum_cons.
    change (length (r :: ratio)) with (S (length ratio)). rewrite S_INR.
    assert (H : 0 <= lt_float (1 + c) r + lt_float r (1 - c) <= 1).
    { unfold lt_float.
      destruct (Rlt_dec (1 + c) r), (Rlt_dec r (1 - c)); lra. }
    lra.
Qed.

(** X3.  For a clip width that is not negative the clip fraction of a
    non-empty batch is a fraction: it lies between 0 and 1. *)
Theorem fraction_clipped_is_fraction (clip : R) (ratio : list R) :
  0 <= clip -> ratio <> [] ->
  0 <= fraction_clipped clip ratio <= 1.
Proof.
  intros Hc Hne. pose proof (clipped_indicators_bound clip ratio Hc) as H.
  assert (Hn : 0 < INR (length ratio)).
  { apply lt_0_INR. destruct ratio; [contradiction|simpl; lia]. }
  unfold fraction_clipped, tmean. rewrite !length_map.
  rewrite <- Rdiv_plus_distr. split.
  - apply Rmult_le_pos; [lra|]. left. now apply Rinv_0_lt_compat.
  - apply (Rmult_le_reg_r (INR (length ratio))); [exact Hn|].
    unfold Rdiv. rewrite Rmult_assoc, Rinv_l by lra. lra.
Qed.

Lemma fraction_clipped_is_fraction_witness :
  0 <= fraction_clipped 0.2 [1.5; 1; 0.5] <= 1.
Proof.
  apply (fraction_clipped_is_fraction 0.2 [1.5; 1; 0.5]); [lra|discriminate].
Defined.

Lemma zip_with_clamped_ones (c t : list R) :
  Forall (fun x => 1 <= x) c -> length c = length t ->
  zip_with Rmult (map (fun x => clamp_max x 1) c) t = t.
Proof.
  intros Hc. revert t. induction Hc as [|x c Hx _ IH]; intros [|y t] Hlen;
    try discriminate; [reflexivity|].
  cbn [map zip_with]. rewrite IH by (simpl in Hlen; lia).
  unfold clamp_max. rewrite Rmin_right by exact Hx. now rewrite Rmult_1_l.
Qed.

(** X4.  Importance coefficients that are all at least 1 change nothing:
    clamped to 1 they reduce a term of the same length to its plain
    mean. *)
Theorem mean_fn_large_coeffs (batch : Batch) (c t : list R) :
  is_coeffs batch = Some c ->
  Forall (fun x => 1 <= x) c ->
  length c = length t ->
  mean_fn batch t = tmean t.
Proof.
  intros Hb Hc Hlen. unfold mean_fn. rewrite Hb. cbv zeta.
  now rewrite zip_with_clamped_ones.
Qed.

Lemma mean_fn_large_coeffs_witness :
  mean_fn (demo_batch (Some [2; 1])) [4; 6] = tmean [4; 6].
Proof.
  apply (mean_fn_large_coeffs (demo_batch (Some [2; 1])) [2; 1] [4; 6]);
    [reflexivity|repeat constructor; lra|reflexivity].
Defined.

(** ** Degenerate batches *)

Lemma fdiv_zero_zero (s z : R) : s = 0 -> z = 0 -> fdiv (Fin s) (Fin z) = NaN.
Proof.
  intros -> ->. unfold fdiv, inf_signed.
  destruct (Req_dec_T 0 0) as [_|H]; [|contradiction].
  destruct (total_order_T 0 0) as [[H|_]|H]; try lra. reflexivity.
Qed.

Lemma fmul_NaN_r (x : fp) : fmul x NaN = NaN.
Proof. now destruct x. Qed.

(** The variance of fewer than two finite values is NaN. *)
Lemma var_mean_short (l : list fp) :
  (length l <= 1)%nat -> Forall (fun x => isfinite x = true) l ->
  (var_mean l).1 = NaN.
Proof.
  intros Hlen Hfin. destruct l as [|x [|y l]]; [| |simpl in Hlen; lia].
  - unfold var_mean. cbn [length map fsum foldr fst INR].
    apply fdiv_zero_zero; [reflexivity|]. apply Rmax_left. lra.
  - apply Forall_cons in Hfin as [Hx _].
    destruct x as [a| | |]; try discriminate.
    unfold var_mean. cbn [length map fsum foldr fst INR].
    change (fadd (Fin a) (Fin 0)) with (Fin (a + 0)).
    rewrite fdiv_Fin by lra. cbn [fsub fneg fadd fmul].
    apply fdiv_zero_zero; [field|]. apply Rmax_left. lra.
Qed.

(** X5.  Normalisation needs two finite advantages: with fewer, the
    variance is NaN and every entry of the result is NaN, finite or not. *)
Theorem normalization_needs_two_finite (self : PPO) (rollouts : RolloutStorage) :
  use_normalized_advantage self = true ->
  (length (List.filter isfinite
             (zip_with fsub (returns rollouts) (value_preds rollouts))) <= 1)%nat ->
  Forall (fun x => x = NaN) (get_advantages self rollouts).
Proof.
  intros Hon Hlen. unfold get_advantages, _compute_var_mean. rewrite Hon.
  set (raw := zip_with fsub (returns rollouts) (value_preds rollouts)) in *.
  assert (Hvar : (var_mean (List.filter isfinite raw)).1 = NaN).
  { apply var_mean_short; [exact Hlen|].
    apply Forall_forall. intros x Hx.
    now apply list_elem_of_In, filter_In in Hx as [_ Hx]. }
  destruct (var_mean (List.filter isfinite raw)) as [var mean].
  cbn [fst] in Hvar. subst var. cbn [negb].
  apply Forall_forall. intros x Hx.
  apply list_elem_of_In, in_map_iff in Hx as [y [<- _]].
  cbn [fadd frsqrt]. apply fmul_NaN_r.
Qed.

Lemma normalization_needs_two_finite_witness :
  Forall (fun x => x = NaN)
    (get_advantages demo_ppo (demo_rollouts [Fin 3; PInf] [Fin 1; Fin 0])).
Proof.
  apply (normalization_needs_two_finite demo_ppo
           (demo_rollouts [Fin 3; PInf] [Fin 1; Fin 0])).
  - reflexivity.
  - simpl. lia.
Defined.

(** ** The optimizer *)

Lemma flat_map_nil_iff {A B} (f : A -> list B) (l : list A) :
  flat_map f l = [] <-> Forall (fun x => f x = []) l.
Proof.
  induction l as [|x l IH]; simpl.
  - split; [constructor|reflexivity].
  - split.
    + intros H. apply app_eq_nil in H as [Hx Hl].
      constructor; [exact Hx|now apply IH].
    + intros H. apply Forall_cons in H as [Hx Hl].
      rewrite Hx. now apply IH.
Qed.

(** X6.  [_create_optimizer] returns no optimizer exactly when neither the
    updater module nor any auxiliary task has a parameter that requires a
    gradient; otherwise the optimizer holds exactly those parameters, the
    module's first and then each task's, with the given learning rate and
    epsilon and an empty state. *)
Theorem create_optimizer_params (ac : NetPolicy) (ec : EntropyCoef)
    (lr eps : R) (aux_tasks : list AuxTask) :
  let params :=
    requires_grad (named_parameters ac ec)
    ++ flat_map (fun t => requires_grad (task_parameters t)) aux_tasks in
  (_create_optimizer ac ec lr eps aux_tasks = None <->
   requires_grad (named_parameters ac ec) = [] /\
   Forall (fun t => requires_grad (task_parameters t) = []) aux_tasks) /\
  (forall opt, _create_optimizer ac ec lr eps aux_tasks = Some opt ->
     opt = {| param_groups := params; opt_lr := lr; opt_eps := eps;
              opt_state := ∅ |}).
Proof.
  intros params.
  assert (Hp : _create_optimizer ac ec lr eps aux_tasks
               = if (0 <? length params)%nat
                 then Some {| param_groups := params; opt_lr := lr;
                              opt_eps := eps; opt_state := ∅ |}
                 else None).
  { unfold _create_optimizer, params. destruct aux_tasks as [|t ts].
    - cbn [length Nat.ltb Nat.leb flat_map]. now rewrite app_nil_r.
    - reflexivity. }
  rewrite Hp. split.
  - rewrite <- flat_map_nil_iff. unfold params.
    destruct (requires_grad (named_parameters ac ec)) as [|p ps];
      destruct (flat_map _ aux_tasks) as [|q qs]; cbn;
      split; try discriminate; try tauto; intros [? ?]; discriminate.
  - intros opt H. destruct (0 <? length params)%nat; [|discriminate].
    now inversion H.
Qed.

(** ** Resume state *)

(** X7.  Capturing the resume state and restoring it leaves the updater as
    it was; without an optimizer capturing raises [AttributeError], and so
    does restoring from a mapping that has the key ["optim_state"]. *)
Theorem resume_round_trip_or_error (self : PPO) :
  (is_Some (optimizer self) ->
   get_resume_state self ≫= load_state_dict self = Ok self) /\
  (optimizer self = None ->
   get_resume_state self = Raise AttributeError /\
   forall state, is_Some (state !! "optim_state"%string) ->
     load_state_dict self state = Raise AttributeError).
Proof.
  split.
  - intros [opt Hopt]. now apply (resume_round_trip self opt).
  - intros Hnone. split.
    + unfold get_resume_state. now rewrite Hnone.
    + intros state [s Hs]. unfold load_state_dict. now rewrite Hs, Hnone.
Qed.

Lemma resume_round_trip_or_error_witness :
  get_resume_state demo_ppo ≫= load_state_dict demo_ppo = Ok demo_ppo.
Proof.
  destruct (resume_round_trip_or_error demo_ppo) as [Hsome _].
  apply Hsome. eexists. reflexivity.
Defined.

(** ** Gradients before the backward pass *)

Lemma foldl_delete_lookup (ps : list string) (g : gmap string (list R))
    (q : string) :
  foldl (fun g p => delete p g) g ps !! q
  = if decide (q ∈ ps) then None else g !! q.
Proof.
  revert g. induction ps as [|p ps IH]; intros g.
  - cbn. now rewrite decide_False by apply not_elem_of_nil.
  - cbn [foldl]. rewrite IH.
    destruct (decide (q ∈ ps)) as [Hin|Hnin].
    + now rewrite decide_True by now right.
    + destruct (decide (q = p)) as [->|Hne].
      * rewrite decide_True by left. apply lookup_delete_eq.
      * rewrite decide_False by (intros [?|?]%elem_of_cons; contradiction).
        now apply lookup_delete_ne.
Qed.

Lemma set_grads_to_none_inv (self : PPO) (st st1 : Store) :
  _set_grads_to_none self st = Ok st1 ->
  exists opt,
    optimizer self = Some opt /\
    data st1 = data st /\
    forall q, grad st1 !! q
              = if decide (q ∈ param_groups opt) then None else grad st !! q.
Proof.
  unfold _set_grads_to_none. intros H.
  destruct (optimizer self) as [opt|]; [|discriminate].
  exists opt. cbn in H. inversion H. cbn. repeat split.
  intros q. apply foldl_delete_lookup.
Qed.

(** X8.  [_set_grads_to_none] removes the gradient of every parameter the
    optimizer holds and touches nothing else; without an optimizer it
    raises [AttributeError]. *)
Theorem set_grads_to_none_spec (self : PPO) (st : Store) :
  (forall opt, optimizer self = Some opt ->
     exists st',
       _set_grads_to_none self st = Ok st' /\
       data st' = data st /\
       (forall p, p ∈ param_groups opt -> grad st' !! p = None) /\
       (forall p, p ∉ param_groups opt -> grad st' !! p = grad st !! p)) /\
  (optimizer self = None -> _set_grads_to_none self st = Raise AttributeError).
Proof.
  split.
  - intros opt Hopt.
    destruct (set_grads_to_none_Ok self st) as [st1 [Hst1 _]]; [eauto|].
    exists st1. split; [exact Hst1|].
    destruct (set_grads_to_none_inv self st st1 Hst1) as (opt' & Ho & Hd & Hg).
    assert (opt' = opt) by congruence. subst opt'.
    split; [exact Hd|]. split; intros p Hp; rewrite Hg.
    + now rewrite decide_True.
    + now rewrite decide_False.
  - intros Hnone. unfold _set_grads_to_none. now rewrite Hnone.
Qed.

(** X9.  Gradients do not accumulate across minibatches: after
    [_set_grads_to_none] and the backward pass, the gradient of a parameter
    the optimizer holds is the one autograd computed for this minibatch,
    whatever gradient the parameter carried before. *)
Theorem no_gradient_accumulation (ext : Externals) (self : PPO) (batch : Batch)
    (st st1 : Store) (opt : Optimizer) (p : string) :
  optimizer self = Some opt ->
  p ∈ param_groups opt ->
  _set_grads_to_none self st = Ok st1 ->
  grad (run_backward ext self batch st1) !! p
  = backward ext self (data st) batch !! p.
Proof.
  intros Hopt Hp Hst1.
  destruct (set_grads_to_none_inv self st st1 Hst1) as (opt' & Ho & Hd & Hg).
  assert (opt' = opt) by congruence. subst opt'.
  unfold run_backward. cbn [grad emit set_grad].
  rewrite lookup_union_with, Hg, Hd. rewrite decide_True by exact Hp.
  now destruct (backward ext self (data st) batch !! p).
Qed.

Lemma no_gradient_accumulation_witness :
  exists st1,
    _set_grads_to_none demo_ppo (demo_rank_store [7]) = Ok st1 /\
    grad (run_backward demo_externals demo_ppo (demo_batch None) st1)
      !! "entropy_coef.alpha"%string = Some [1].
Proof.
  destruct (set_grads_to_none_Ok demo_ppo (demo_rank_store [7]))
    as [st1 [Hst1 _]]; [eexists; reflexivity|].
  exists st1. split; [exact Hst1|].
  rewrite (no_gradient_accumulation demo_externals demo_ppo (demo_batch None)
             (demo_rank_store [7]) st1
             {| param_groups := ["actor_critic.net.weight"%string;
                                 "actor_critic.critic.bias"%string;
                                 "entropy_coef.alpha"%string];
                opt_lr := cfg_lr demo_config; opt_eps := cfg_eps demo_config;
                opt_state := ∅ |}
             "entropy_coef.alpha"%string).
  - reflexivity.
  - reflexivity.
  - apply list_elem_of_In. right. right. left. reflexivity.
  - exact Hst1.
Defined.

(** ** Which updaters can take a step *)

Lemma unpack_Ok (k : PolicyKind) (r : EvalResult) (ev : Evaluated) :
  unpack k r = Ok ev ->
  (k = PlainPolicy /\ is_Some (e_aux_loss_res ev) /\ e_aux_weights ev = None) \/
  (k = AttentiveBelief /\ e_aux_loss_res ev = None /\ is_Some (e_aux_weights ev)).
Proof.
  destruct k, r; cbn; intros H; inversion H; cbn; eauto.
Qed.

(** A minibatch update that returns was run with an attentive policy and
    registered auxiliary tasks, or with a plain policy and none. *)
Lemma update_from_batch_Ok_kind (ext : Externals) (self : PPO)
    (dist : option Dist) (batch : Batch) (epoch : Z)
    (rollouts : RolloutStorage) (m : gmap string (list (option R)))
    (st : Store) (r : PPO * Store * gmap string (list (option R))) :
  _update_from_batch ext self dist batch epoch rollouts m st = Ok r ->
  is_attentive self = (0 <? length (_aux_tasks self))%nat.
Proof.
  unfold _update_from_batch. intros H.
  destruct (bind_Ok _ _ _ H) as [st1 [_ H1]]. clear H.
  destruct (bind_Ok _ _ _ H1) as [ev [Hev H2]]. clear H1.
  destruct (reduced_losses self batch ev) as [[action_loss value_loss] dist_entropy].
  destruct (bind_Ok _ _ _ H2) as [aux_losses [_ H3]]. clear H2.
  destruct (bind_Ok _ _ _ H3) as [all_losses [Hall H4]]. clear H3.
  cbv zeta in H4.
  destruct (before_step self dist _) as [st2 grad_norm].
  destruct (bind_Ok _ _ _ H4) as [[self1 st3] [Hstep H5]]. clear H4.
  destruct (bind_Ok _ _ _ H5) as [m1 [Hm _]]. clear H5.
  assert (Hself1 : _aux_tasks self1 = _aux_tasks self).
  { unfold optimizer_step in Hstep.
    destruct (bind_Ok _ _ _ Hstep) as [opt [_ Ho]].
    destruct (step ext opt (data st2) (grad st2)) as [opt' w].
    now inversion Ho. }
  apply unpack_Ok in Hev. unfold is_attentive.
  destruct (length (_aux_tasks self)) as [|n] eqn:Elen.
  - (* no task registered: [aux_loss_res] must be bound *)
    unfold all_losses_of in Hall.
    destruct (bind_Ok _ _ _ Hall) as [ls [_ Hl]]. rewrite Elen in Hl.
    cbn [Nat.eqb] in Hl. destruct (bind_Ok _ _ _ Hl) as [res [Hres _]].
    apply from_option_Ok in Hres.
    destruct Hev as [(-> & _ & _)|(_ & Hnone & _)]; [reflexivity|congruence].
  - (* tasks registered: [aux_weights] must be bound *)
    unfold record_metrics in Hm. rewrite Hself1, Elen in Hm.
    cbn [Nat.eqb] in Hm.
    destruct (bind_Ok _ _ _ Hm) as [m2 [Hm2 _]].
    destruct (bind_Ok _ _ _ Hm2) as [m3 [_ Hm3]].
    destruct (bind_Ok _ _ _ Hm3) as [aw [Haw _]].
    apply from_option_Ok in Haw.
    destruct Hev as [(_ & _ & Hnone)|(-> & _ & _)]; [congruence|reflexivity].
Qed.

(** X10.  A minibatch update returns only for an attentive policy with
    registered auxiliary tasks or a plain policy with none; in the two
    other combinations it raises.  [__init__] registers the auxiliary
    tasks only under a truthy [aux_cfg], so the updater [from_config]
    builds for an attentive policy without [aux_cfg] raises on every
    minibatch. *)
Theorem update_needs_matching_aux_tasks (ext : Externals) (dist : option Dist)
    (batch : Batch) (epoch : Z) (rollouts : RolloutStorage)
    (m : gmap string (list (option R))) (st : Store) :
  (forall self r,
     _update_from_batch ext self dist batch epoch rollouts m st = Ok r ->
     is_attentive self = (0 <? length (_aux_tasks self))%nat) /\
  (forall ac config aux_tasks aux_names,
     kind ac = AttentiveBelief ->
     exists e,
       _update_from_batch ext (from_config ac config aux_tasks aux_names None)
         dist batch epoch rollouts m st = Raise e).
Proof.
  split.
  - intros self r. apply update_from_batch_Ok_kind.
  - intros ac config aux_tasks aux_names Hkind.
    destruct (_update_from_batch _ _ _ _ _ _ _ _) as [r|e] eqn:E; [|eauto].
    apply update_from_batch_Ok_kind in E.
    unfold is_attentive in E. cbn in E. rewrite Hkind in E. discriminate.
Qed.

Lemma update_needs_matching_aux_tasks_witness :
  exists e,
    _update_from_batch demo_externals
      (from_config demo_attentive_policy demo_config [demo_aux_task]
         ["cpc"%string] None)
      None (demo_batch None) 0 (demo_rollouts [] []) ∅ demo_store = Raise e.
Proof.
  destruct (update_needs_matching_aux_tasks demo_externals None
              (demo_batch None) 0 (demo_rollouts [] []) ∅ demo_store)
    as [_ Hraise].
  apply Hraise. reflexivity.
Defined.

(** ** No collective without an adaptive coefficient *)

Lemma before_step_no_params (self : PPO) (d : Dist) (st : Store) :
  non_ac_params self = [] ->
  before_step self (Some d) st = before_step self None st.
Proof.
  intros Hnil. unfold before_step. rewrite Hnil. cbn [foldl].
  destruct (clip_grad_norm_ _ _ st) as [st1 n]. reflexivity.
Qed.

(** X11.  An updater constructed with a fixed entropy coefficient has no
    parameter outside the actor-critic, so [before_step] does under an
    initialised group exactly what it does without one: nothing is divided,
    reduced or waited for. *)
Theorem fixed_coef_issues_no_collective (ac : NetPolicy) (config : Config)
    (aux_tasks : list AuxTask) (aux_names : list string)
    (aux_cfg : option AuxCfg) (c : R) (d : Dist) (st : Store) :
  let self := from_config ac config aux_tasks aux_names aux_cfg in
  entropy_coef self = FixedCoef c ->
  non_ac_params self = [] /\
  before_step self (Some d) st = before_step self None st.
Proof.
  intros self Hfixed.
  assert (Hnil : non_ac_params self = []).
  { unfold self, from_config. rewrite init_non_ac_params.
    fold (from_config ac config aux_tasks aux_names aux_cfg). fold self.
    now rewrite Hfixed. }
  split; [exact Hnil|]. now apply before_step_no_params.
Qed.

Lemma fixed_coef_issues_no_collective_witness :
  let self := from_config demo_attentive_policy demo_config [] [] None in
  non_ac_params self = [] /\
  before_step self (Some (spmd self [demo_store])) (demo_rank_store [7])
  = before_step self None (demo_rank_store [7]).
Proof.
  apply (fixed_coef_issues_no_collective demo_attentive_policy demo_config
           [] [] None 0.01).
  reflexivity.
Defined.

(** ** [update] at its edges *)

(** Without an optimizer the loop over minibatches stops at the first
    one. *)
Lemma update_epoch_no_optimizer (ext : Externals) (dist : option Dist)
    (rollouts : RolloutStorage) (adv : list fp) (epoch : Z)
    (self : PPO) (st : Store) (m : gmap string (list (option R))) :
  optimizer self = None ->
  update_epoch ext dist rollouts adv (self, st, m) epoch
  = match data_generator ext rollouts adv (num_mini_batch self) epoch with
    | [] => Ok (self, st, m)
    | _ :: _ => Raise AttributeError
    end.
Proof.
  intros Hnone. unfold update_epoch. cbn [fst snd].
  destruct (data_generator _ _ _ _ _) as [|b bs]; [reflexivity|].
  cbn [foldlM fst snd]. unfold _update_from_batch, _set_grads_to_none.
  now rewrite Hnone.
Qed.

Lemma update_loop_no_optimizer (ext : Externals) (dist : option Dist)
    (rollouts : RolloutStorage) (adv : list fp) (es : list Z)
    (self : PPO) (st : Store) (m : gmap string (list (option R))) :
  optimizer self = None ->
  foldlM (update_epoch ext dist rollouts adv) (self, st, m) es = Ok (self, st, m) \/
  foldlM (update_epoch ext dist rollouts adv) (self, st, m) es = Raise AttributeError.
Proof.
  intros Hnone. induction es as [|e es IH]; [now left|].
  cbn [foldlM]. rewrite update_epoch_no_optimizer by exact Hnone.
  destruct (data_generator _ _ _ _ _); [exact IH|now right].
Qed.

(** X12.  An updater without an optimizer (no parameter requires a
    gradient) cannot be updated: [update] raises [AttributeError] whatever
    the rollouts and the sampler are. *)
Theorem update_without_optimizer_raises (ext : Externals) (self : PPO)
    (dist : option Dist) (rollouts : RolloutStorage) (st : Store) :
  optimizer self = None ->
  update ext self dist rollouts st = Raise AttributeError.
Proof.
  intros Hnone. unfold update, update_loop.
  destruct (update_loop_no_optimizer ext dist rollouts
              (get_advantages self rollouts) (range (ppo_epoch self))
              self st ∅ Hnone) as [-> | ->]; [|reflexivity].
  cbn. unfold _set_grads_to_none. now rewrite Hnone.
Qed.

Lemma update_without_optimizer_raises_witness :
  update demo_externals (set_optimizer None demo_ppo) None
    (demo_rollouts [Fin 2; Fin 0] [Fin 1; Fin 1]) demo_store
  = Raise AttributeError.
Proof.
  apply (update_without_optimizer_raises demo_externals
           (set_optimizer None demo_ppo) None
           (demo_rollouts [Fin 2; Fin 0] [Fin 1; Fin 1]) demo_store).
  reflexivity.
Defined.

Lemma update_loop_no_batches (ext : Externals) (dist : option Dist)
    (rollouts : RolloutStorage) (adv : list fp) (es : list Z)
    (self : PPO) (st : Store) (m : gmap string (list (option R))) :
  Forall (fun e => data_generator ext rollouts adv (num_mini_batch self) e = []) es ->
  foldlM (update_epoch ext dist rollouts adv) (self, st, m) es = Ok (self, st, m).
Proof.
  induction 1 as [|e es He _ IH]; [reflexivity|].
  assert (Hepoch : update_epoch ext dist rollouts adv (self, st, m) e
                   = Ok (self, st, m)).
  { unfold update_epoch. cbn [fst snd]. now rewrite He. }
  cbn [foldlM]. rewrite Hepoch. exact IH.
Qed.

(** X13.  When the sampler yields no minibatch in any epoch (in particular
    when [ppo_epoch] is not positive), [update] takes no step: it clears the
    gradients of the optimizer's parameters and returns the updater
    unchanged with an empty report. *)
Theorem update_without_minibatches (ext : Externals) (self : PPO)
    (dist : option Dist) (rollouts : RolloutStorage) (st : Store) :
  is_Some (optimizer self) ->
  (forall e, (0 <= e < ppo_epoch self)%Z ->
     data_generator ext rollouts (get_advantages self rollouts)
       (num_mini_batch self) e = []) ->
  exists st',
    _set_grads_to_none self st = Ok st' /\
    update ext self dist rollouts st = Ok (self, st', ∅).
Proof.
  intros Hopt Hgen.
  destruct (set_grads_to_none_Ok self st Hopt) as [st' [Hst' _]].
  exists st'. split; [exact Hst'|].
  unfold update, update_loop. rewrite update_loop_no_batches.
  - rewrite bind_ret. cbn [fst snd]. rewrite Hst', bind_ret.
    unfold reduce_metrics. rewrite map_to_list_empty. reflexivity.
  - apply Forall_forall. intros e He.
    apply Hgen. now apply list_elem_of_In, range_lt in He.
Qed.

Lemma update_without_minibatches_witness :
  exists st',
    _set_grads_to_none demo_ppo (demo_rank_store [7]) = Ok st' /\
    update {| evaluate_actions := evaluate_actions demo_externals;
              evaluate_aux_losses := evaluate_aux_losses demo_externals;
              lagrangian_loss := lagrangian_loss demo_externals;
              coef_forward := coef_forward demo_externals;
              project_into_bounds := project_into_bounds demo_externals;
              backward := backward demo_externals;
              step := step demo_externals;
              data_generator := fun _ _ _ _ => [] |}
      demo_ppo None (demo_rollouts [] []) (demo_rank_store [7])
    = Ok (demo_ppo, st', ∅).
Proof.
  apply update_without_minibatches.
  - eexists. reflexivity.
  - reflexivity.
Defined.

(** ** The metrics of one minibatch and of one update *)

Lemma prefix_aux (x : string) : String.prefix "aux_" ("aux_" ++ x) = true.
Proof. cbn. now destruct x. Qed.

Lemma prefix_policy_version (x : string) :
  String.prefix "policy_version_difference_"
                ("policy_version_difference" ++ "_" ++ x) = true.
Proof. cbn. now destruct x. Qed.

(** What [record_metrics] appends after the fixed metrics goes under keys
    that start with [aux_] or [policy_version_difference_], or under
    [fraction_stale]. *)
Ltac metric_lookup :=
  repeat first
    [ rewrite append_metric_ne by key_ne
    | rewrite append_metric_eq
    | rewrite record_min_mean_max_other by (intros ?; key_ne) ].

Lemma record_metrics_fixed_keys (ext : Externals) (self : PPO)
    (batch : Batch) (epoch : Z) (rollouts : RolloutStorage) (ev : Evaluated)
    (ratio aux_losses : list R) (value_loss action_loss dist_entropy grad_norm : R)
    (w : gmap string (list R)) (m m' : gmap string (list (option R))) :
  record_metrics ext self batch epoch rollouts ev ratio aux_losses
    value_loss action_loss dist_entropy grad_norm w m = Ok m' ->
  m' !!! "value_loss"%string = m !!! "value_loss"%string ++ [Some value_loss] /\
  m' !!! "action_loss"%string = m !!! "action_loss"%string ++ [Some action_loss] /\
  m' !!! "dist_entropy"%string = m !!! "dist_entropy"%string ++ [Some dist_entropy] /\
  m' !!! "grad_norm"%string = m !!! "grad_norm"%string ++ [Some grad_norm].
Proof.
  unfold record_metrics.
  set (m4 := match entropy_coef self with AdaptiveCoef l => _ | FixedCoef _ => _ end).
  intros H.
  assert (Htail : forall k : string,
             String.prefix "aux_" k = false ->
             k <> "fraction_stale"%string ->
             String.prefix "policy_version_difference_" k = false ->
             m' !!! k = m4 !!! k).
  { intros k Haux Hstale Hpv. clearbody m4.
    assert (Hne_aux : forall x, ("aux_" ++ x)%string <> k).
    { intros x E. rewrite <- E, prefix_aux in Haux. discriminate. }
    assert (Hne_pv : forall n, ("policy_version_difference" ++ "_" ++ n)%string <> k).
    { intros n E. rewrite <- E, prefix_policy_version in Hpv. discriminate. }
    destruct (bind_Ok _ _ _ H) as [m5 [H5 Htl]]. clear H.
    assert (Hm5 : m5 !!! k = m4 !!! k).
    { destruct (length (_aux_tasks self) =? 0)%nat.
      - destruct (bind_Ok _ _ _ H5) as [res [_ Hr]]. inversion Hr.
        apply foldl_metric_other. intros m0 nr.
        apply foldl_metric_other. intros m1 kv.
        apply append_metric_ne. apply (Hne_aux (nr.1 ++ "_" ++ kv.1)%string).
      - set (m6 := append_metric "aux_entropy" _ m4) in H5.
        assert (H6 : m6 !!! k = m4 !!! k).
        { apply append_metric_ne. apply (Hne_aux "entropy"%string). }
        rewrite <- H6. clearbody m6.
        destruct (bind_Ok _ _ _ H5) as [ma [Ha Hb']].
        destruct (bind_Ok _ _ _ Hb') as [aw [_ Hb]].
        assert (Hstep : forall (x : string) (m0 : gmap string (list (option R)))
                               (y : nat * R) m0',
                  (n ← nth_name (_aux_names self) y.1;
                   Ok (append_metric ("aux_" ++ x ++ n) (Some y.2) m0)) = Ok m0' ->
                  m0' !!! k = m0 !!! k).
        { intros x m0 y m0' Hy. destruct (bind_Ok _ _ _ Hy) as [n [_ Hn]].
          inversion Hn. apply append_metric_ne, Hne_aux. }
        apply (foldlM_metric_other _ k) in Ha;
          [|intros m0 y m0' Hy; exact (Hstep "entropy_"%string _ _ _ Hy)].
        apply (foldlM_metric_other _ k) in Hb;
          [|intros m0 y m0' Hy; exact (Hstep "weights_"%string _ _ _ Hy)].
        now rewrite Hb, Ha. }
    rewrite <- Hm5.
    destruct (is_stale batch);
      destruct (current_policy_version rollouts);
      try (destruct (policy_version batch); [|discriminate]);
      simpl in Htl; inversion Htl; subst;
      rewrite ?record_min_mean_max_other by exact Hne_pv;
      rewrite ?append_metric_ne by congruence; reflexivity. }
  clear H.
  repeat split.
  - rewrite Htail by (try reflexivity; discriminate). unfold m4.
    destruct (entropy_coef self), (epoch =? ppo_epoch self - 1)%Z,
      (is_coeffs batch); metric_lookup; reflexivity.
  - rewrite Htail by (try reflexivity; discriminate). unfold m4.
    destruct (entropy_coef self), (epoch =? ppo_epoch self - 1)%Z,
      (is_coeffs batch); metric_lookup; reflexivity.
  - rewrite Htail by (try reflexivity; discriminate). unfold m4.
    destruct (entropy_coef self), (epoch =? ppo_epoch self - 1)%Z,
      (is_coeffs batch); metric_lookup; reflexivity.
  - rewrite Htail by (try reflexivity; discriminate). unfold m4.
    destruct (entropy_coef self), (epoch =? ppo_epoch self - 1)%Z,
      (is_coeffs batch); metric_lookup; reflexivity.
Qed.

(** A successful minibatch update appends one entry to each of the four
    fixed metrics: the three reduced losses and the gradient norm. *)
Lemma update_from_batch_core_metrics (ext : Externals) (self self' : PPO)
    (dist : option Dist) (batch : Batch) (epoch : Z)
    (rollouts : RolloutStorage) (m m' : gmap string (list (option R)))
    (st st' : Store) :
  _update_from_batch ext self dist batch epoch rollouts m st = Ok (self', st', m') ->
  exists ev st1,
    unpack (kind (actor_critic self)) (evaluate_actions ext (data st) batch) = Ok ev /\
    _set_grads_to_none self st = Ok st1 /\
    m' !!! "action_loss"%string
    = m !!! "action_loss"%string ++ [Some (reduced_losses self batch ev).1.1] /\
    m' !!! "value_loss"%string
    = m !!! "value_loss"%string ++ [Some (reduced_losses self batch ev).1.2] /\
    m' !!! "dist_entropy"%string
    = m !!! "dist_entropy"%string ++ [Some (reduced_losses self batch ev).2] /\
    m' !!! "grad_norm"%string
    = m !!! "grad_norm"%string
      ++ [Some (before_step self dist (run_backward ext self batch st1)).2].
Proof.
  unfold _update_from_batch. intros H.
  destruct (bind_Ok _ _ _ H) as [st1 [Hst1 H1]]. clear H.
  assert (Hdata : data st1 = data st).
  { unfold _set_grads_to_none in Hst1.
    destruct (bind_Ok _ _ _ Hst1) as [opt [_ Ho]]. now inversion Ho. }
  rewrite Hdata in H1.
  destruct (bind_Ok _ _ _ H1) as [ev [Hev H2]]. clear H1.
  exists ev, st1. split; [exact Hev|]. split; [exact Hst1|].
  destruct (reduced_losses self batch ev) as [[action_loss value_loss] dist_entropy].
  destruct (bind_Ok _ _ _ H2) as [aux_losses [_ H3]]. clear H2.
  destruct (bind_Ok _ _ _ H3) as [all_losses [_ H4]]. clear H3.
  cbv zeta in H4.
  destruct (before_step self dist (run_backward ext self batch st1)) as [st2 grad_norm].
  destruct (bind_Ok _ _ _ H4) as [[self1 st3] [Hstep H5]]. clear H4.
  destruct (bind_Ok _ _ _ H5) as [m1 [Hm H6]]. clear H5.
  inversion H6; subst. clear H6.
  apply record_metrics_fixed_keys in Hm as (Hv & Ha & He & Hg).
  cbn [fst snd]. now rewrite Hv, Ha, He, Hg.
Qed.

Section Appended_metric.

Variables (ext : Externals) (dist : option Dist) (rollouts : RolloutStorage).
Variable k : string.
Hypothesis one_entry :
  forall self batch epoch m st self' st' m',
    _update_from_batch ext self dist batch epoch rollouts m st
    = Ok (self', st', m') ->
    exists x, m' !!! k = m !!! k ++ [Some x].

Lemma update_epoch_appends (epoch : Z) (self0 : PPO) (bs : list Batch)
    (self self' : PPO) (st st' : Store) (m m' : gmap string (list (option R))) :
  self = set_optimizer (optimizer self) self0 ->
  foldlM (fun (acc : PPO * Store * gmap string (list (option R))) batch =>
            _update_from_batch ext acc.1.1 dist batch epoch rollouts acc.2 acc.1.2)
         (self, st, m) bs = Ok (self', st', m') ->
  self' = set_optimizer (optimizer self') self0 /\
  exists xs, m' !!! k = m !!! k ++ map Some xs /\ length xs = length bs.
Proof.
  revert self st m. induction bs as [|b bs IH]; intros self st m Hself H.
  - simpl in H. inversion H; subst. split; [exact Hself|].
    exists []. now rewrite app_nil_r.
  - simpl in H. destruct (bind_Ok _ _ _ H) as [[[self1 st1] m1] [H1 H2]]. clear H.
    simpl in H1.
    destruct (one_entry _ _ _ _ _ _ _ _ H1) as [x Hx].
    apply update_from_batch_fraction_clipped in H1 as [[o Ho] _].
    assert (Hself1 : self1 = set_optimizer (optimizer self1) self0).
    { rewrite Ho. change (optimizer (set_optimizer o self)) with o.
      now apply set_optimizer_idem. }
    destruct (IH _ _ _ Hself1 H2) as [Hs' [xs [Hm Hlen]]]. split; [exact Hs'|].
    exists (x :: xs). split; [|simpl; now rewrite Hlen].
    rewrite Hm, Hx, <- app_assoc. reflexivity.
Qed.

Lemma update_epochs_append (adv : list fp) (self0 : PPO) (es : list Z)
    (self self' : PPO) (st st' : Store) (m m' : gmap string (list (option R))) :
  self = set_optimizer (optimizer self) self0 ->
  foldlM (update_epoch ext dist rollouts adv) (self, st, m) es = Ok (self', st', m') ->
  self' = set_optimizer (optimizer self') self0 /\
  exists xs,
    m' !!! k = m !!! k ++ map Some xs /\
    length xs
    = list_sum (map (fun e => length (data_generator ext rollouts adv
                                        (num_mini_batch self0) e)) es).
Proof.
  revert self st m. induction es as [|e es IH]; intros self st m Hself H.
  - simpl in H. inversion H; subst. split; [exact Hself|].
    exists []. now rewrite app_nil_r.
  - simpl in H. destruct (bind_Ok _ _ _ H) as [[[self1 st1] m1] [H1 H2]]. clear H.
    unfold update_epoch in H1.
    apply (update_epoch_appends _ self0) in H1 as [Hself1 [xs [Hm Hlen]]];
      [|exact Hself].
    destruct (IH _ _ _ Hself1 H2) as [Hs' [ys [Hm' Hlen']]]. split; [exact Hs'|].
    exists (xs ++ ys). split.
    + rewrite Hm', Hm, map_app, <- app_assoc. reflexivity.
    + assert (Hn : num_mini_batch self = num_mini_batch self0)
        by now rewrite Hself.
      cbn [fst snd] in Hlen. rewrite Hn in Hlen.
      rewrite length_app, Hlen, Hlen'. reflexivity.
Qed.

Lemma update_loop_appends (self self' : PPO) (st st' : Store)
    (m' : gmap string (list (option R))) :
  update_loop ext self dist rollouts st = Ok (self', st', m') ->
  exists xs, m' !!! k = map Some xs /\ length xs = minibatches ext self rollouts.
Proof.
  unfold update_loop. intros H.
  apply (update_epochs_append _ self) in H as [_ [xs [Hm Hlen]]];
    [|apply set_optimizer_self].
  exists xs. split; [|exact Hlen].
  now rewrite Hm, lookup_total_empty.
Qed.

End Appended_metric.

(** X14. Whenever the loops of [update] run to their end, each of the metrics
    [value_loss], [action_loss], [dist_entropy] and [grad_norm] holds exactly
    one entry per minibatch of every epoch, and every entry is a number. *)
Theorem one_metric_entry_per_minibatch (ext : Externals) (self self' : PPO)
    (dist : option Dist) (rollouts : RolloutStorage) (st st' : Store)
    (m' : gmap string (list (option R))) (k : string) :
  update_loop ext self dist rollouts st = Ok (self', st', m') ->
  In k ["value_loss"; "action_loss"; "dist_entropy"; "grad_norm"]%string ->
  exists xs : list R,
    m' !!! k = map Some xs /\ length xs = minibatches ext self rollouts.
Proof.
  intros H Hk.
  apply (update_loop_appends ext dist rollouts k) with (2 := H).
  intros s b e m0 s0 s' s0' m0' Hb.
  apply update_from_batch_core_metrics in Hb
    as (ev & st1 & _ & _ & Ha & Hv & He & Hg).
  destruct Hk as [<-|[<-|[<-|[<-|[]]]]]; eauto.
Qed.

Lemma one_metric_entry_per_minibatch_witness :
  exists m' : gmap string (list (option R)),
    (exists self' st',
       update_loop demo_externals demo_ppo None
         (demo_rollouts [Fin 2; Fin 0] [Fin 1; Fin 1]) demo_store
       = Ok (self', st', m')) /\
    exists xs : list R,
      m' !!! "grad_norm"%string = map Some xs /\
      length xs = minibatches demo_externals demo_ppo
                    (demo_rollouts [Fin 2; Fin 0] [Fin 1; Fin 1]).
Proof.
  destruct (returns_with_Ok _ _
              (update_loop_plain_Ok demo_externals demo_ppo None
                 (demo_rollouts [Fin 2; Fin 0] [Fin 1; Fin 1]) demo_store
                 (demo_plain_setting _ _)))
    as [[[self' st'] m'] [Hrun _]].
  exists m'. split; [eauto|].
  apply (one_metric_entry_per_minibatch _ _ _ _ _ _ _ _ _ Hrun).
  simpl. tauto.
Defined.

(** ** What [update] returns *)

Lemma mapM_Ok_Forall2 {A B} (f : A -> result B) (l : list A) (ys : list B) :
  mapM f l = Ok ys -> Forall2 (fun x y => f x = Ok y) l ys.
Proof.
  revert ys. induction l as [|x l IH]; intros ys H.
  - inversion H. constructor.
  - cbn in H. destruct (bind_Ok _ _ _ H) as [y [Hy H1]].
    destruct (bind_Ok _ _ _ H1) as [k [Hk H2]]. inversion H2; subst.
    constructor; [exact Hy|now apply IH].
Qed.

Lemma reduce_metric_Ok (vs : list (option R)) (v : R) :
  reduce_metric vs = Ok v -> exists xs, vs = map Some xs /\ v = tmean xs.
Proof.
  unfold reduce_metric. intros H.
  destruct (bind_Ok _ _ _ H) as [xs [Hxs Hv]]. inversion Hv; subst.
  exists xs. split; [|reflexivity].
  apply mapM_Ok_Forall2 in Hxs. clear -Hxs.
  induction Hxs as [|o x vs xs Ho _ IH]; [reflexivity|].
  destruct o as [y|]; [|discriminate]. cbn in Ho. injection Ho as <-.
  simpl. now rewrite IH.
Qed.

Lemma reduce_metrics_Ok (m : gmap string (list (option R))) (r : gmap string R) :
  reduce_metrics m = Ok r ->
  forall k : string,
    match m !! k with
    | Some vs => exists xs, vs = map Some xs /\ r !! k = Some (tmean xs)
    | None => r !! k = None
    end.
Proof.
  unfold reduce_metrics. intros H k.
  destruct (bind_Ok _ _ _ H) as [kvs [Hkvs Hr]]. inversion Hr; subst. clear Hr H.
  apply mapM_Ok_Forall2 in Hkvs.
  assert (Hfst : kvs.*1 = (map_to_list m).*1).
  { clear -Hkvs. induction Hkvs as [|kv kv' l l' H _ IH]; [reflexivity|].
    destruct (bind_Ok _ _ _ H) as [v [_ Hv]]. inversion Hv; subst.
    cbn. now rewrite IH. }
  destruct (m !! k) as [vs|] eqn:Hk.
  - apply elem_of_map_to_list, list_elem_of_lookup in Hk as [i Hi].
    destruct (Forall2_lookup_l _ _ _ _ _ Hkvs Hi) as [kv' [Hi' H]].
    destruct (bind_Ok _ _ _ H) as [v [Hv Hkv']]. inversion Hkv'; subst.
    apply reduce_metric_Ok in Hv as [xs [Hvs ->]]. exists xs. split; [exact Hvs|].
    apply elem_of_list_to_map_1.
    + rewrite Hfst. apply NoDup_fst_map_to_list.
    + apply list_elem_of_lookup. now exists i.
  - apply not_elem_of_list_to_map_1. rewrite Hfst.
    intros Hin. apply list_elem_of_fmap in Hin as [[k' vs] [-> Hin]].
    apply elem_of_map_to_list in Hin. simpl in Hk. congruence.
Qed.

(** X15. Whenever [update] returns, the dictionary it returns has the keys
    of [learner_metrics] as the loops left it, and each value is the mean of
    the entries recorded under that key, all of which are numbers. *)
Theorem update_returns_means (ext : Externals) (self self' : PPO)
    (dist : option Dist) (rollouts : RolloutStorage) (st st' : Store)
    (r : gmap string R) :
  update ext self dist rollouts st = Ok (self', st', r) ->
  exists st1 learner_metrics,
    update_loop ext self dist rollouts st = Ok (self', st1, learner_metrics) /\
    _set_grads_to_none self' st1 = Ok st' /\
    forall k : string,
      match learner_metrics !! k with
      | Some vs => exists xs, vs = map Some xs /\ r !! k = Some (tmean xs)
      | None => r !! k = None
      end.
Proof.
  unfold update. intros H.
  destruct (bind_Ok _ _ _ H) as [[[self1 st1] m1] [Hloop H1]]. clear H.
  destruct (bind_Ok _ _ _ H1) as [st2 [Hst2 H2]]. clear H1.
  destruct (bind_Ok _ _ _ H2) as [r1 [Hr H3]]. inversion H3; subst. clear H2 H3.
  exists st1, m1. split; [exact Hloop|]. split; [exact Hst2|].
  now apply reduce_metrics_Ok.
Qed.

(** *** A run of [update] that returns *)

Lemma append_metric_numbers (k : string) (v : R)
    (m : gmap string (list (option R))) :
  all_numbers m -> all_numbers (append_metric k (Some v) m).
Proof.
  intros Hm k' vs. unfold append_metric.
  destruct (decide (k = k')) as [->|Hne].
  - rewrite lookup_insert_eq. intros [= <-]. apply Forall_app. split.
    + unfold lookup_total, map_lookup_total.
      destruct (m !! k') as [ws|] eqn:Hk; simpl; [now apply (Hm k')|constructor].
    + repeat constructor. eauto.
  - rewrite lookup_insert_ne by exact Hne. apply Hm.
Qed.

Lemma foldl_numbers {A} (f : gmap string (list (option R)) -> A ->
                             gmap string (list (option R)))
    (l : list A) (m : gmap string (list (option R))) :
  (forall m a, all_numbers m -> all_numbers (f m a)) ->
  all_numbers m -> all_numbers (foldl f m l).
Proof.
  intros Hf. revert m. induction l as [|a l IH]; intros m Hm; [exact Hm|].
  simpl. apply IH, Hf, Hm.
Qed.

Lemma record_min_mean_max_numbers (t : list R) (prefix : string)
    (m : gmap string (list (option R))) :
  all_numbers m -> all_numbers (record_min_mean_max t prefix m).
Proof.
  intros Hm. unfold record_min_mean_max. apply foldl_numbers; [|exact Hm].
  intros m0 a. apply append_metric_numbers.
Qed.

Lemma record_metrics_numbers (ext : Externals) (self : PPO)
    (batch : Batch) (epoch : Z) (rollouts : RolloutStorage) (ev : Evaluated)
    (ratio aux_losses : list R) (value_loss action_loss dist_entropy grad_norm : R)
    (w : gmap string (list R)) (m m' : gmap string (list (option R))) :
  _aux_tasks self = [] ->
  record_metrics ext self batch epoch rollouts ev ratio aux_losses
    value_loss action_loss dist_entropy grad_norm w m = Ok m' ->
  all_numbers m -> all_numbers m'.
Proof.
  intros Haux. unfold record_metrics. rewrite Haux.
  change (length (@nil AuxTask) =? 0)%nat with true. cbv iota.
  set (m4 := match entropy_coef self with AdaptiveCoef l => _ | FixedCoef _ => _ end).
  intros H Hm.
  assert (H4 : all_numbers m4).
  { unfold m4.
    destruct (entropy_coef self), (epoch =? ppo_epoch self - 1)%Z,
      (is_coeffs batch);
      repeat first [ apply append_metric_numbers
                   | apply record_min_mean_max_numbers ]; exact Hm. }
  clearbody m4.
  destruct (bind_Ok _ _ _ H) as [m5 [H5 Htl]]. clear H.
  destruct (bind_Ok _ _ _ H5) as [res [_ Hr]]. inversion Hr; subst. clear Hr H5.
  match type of Htl with
  | context [foldl ?f m4 res] =>
      assert (H5 : all_numbers (foldl f m4 res));
      [|generalize dependent (foldl f m4 res); intros m5 Htl H5]
  end.
  { apply foldl_numbers; [|exact H4]. intros m0 nr Hm0.
    apply foldl_numbers; [|exact Hm0]. intros m1 kv.
    apply append_metric_numbers. }
  destruct (is_stale batch);
    destruct (current_policy_version rollouts);
    try (destruct (policy_version batch); [|discriminate]);
    simpl in Htl; inversion Htl; subst;
    repeat first [ apply append_metric_numbers
                 | apply record_min_mean_max_numbers ]; exact H5.
Qed.

Lemma update_from_batch_numbers (ext : Externals) (self self' : PPO)
    (dist : option Dist) (batch : Batch) (epoch : Z)
    (rollouts : RolloutStorage) (m m' : gmap string (list (option R)))
    (st st' : Store) :
  _aux_tasks self = [] ->
  _update_from_batch ext self dist batch epoch rollouts m st = Ok (self', st', m') ->
  all_numbers m -> _aux_tasks self' = [] /\ all_numbers m'.
Proof.
  intros Haux H Hm.
  destruct (update_from_batch_fraction_clipped _ _ _ _ _ _ _ _ _ _ _ H)
    as [[o ->] _]. split; [exact Haux|].
  unfold _update_from_batch in H.
  destruct (bind_Ok _ _ _ H) as [st1 [_ H1]]. clear H.
  destruct (bind_Ok _ _ _ H1) as [ev [_ H2]]. clear H1.
  destruct (reduced_losses self batch ev) as [[action_loss value_loss] dist_entropy].
  destruct (bind_Ok _ _ _ H2) as [aux_losses [_ H3]]. clear H2.
  destruct (bind_Ok _ _ _ H3) as [all_losses [_ H4]]. clear H3.
  cbv zeta in H4.
  destruct (before_step self dist (run_backward ext self batch st1)) as [st2 grad_norm].
  destruct (bind_Ok _ _ _ H4) as [[self1 st3] [Hstep H5]]. clear H4.
  destruct (bind_Ok _ _ _ H5) as [m1 [Hrec H6]]. clear H5.
  inversion H6; subst. clear H6.
  eapply record_metrics_numbers; [|exact Hrec|exact Hm].
  unfold optimizer_step in Hstep.
  destruct (bind_Ok _ _ _ Hstep) as [opt [_ Ho]].
  destruct (step ext opt (data st2) (grad st2)) as [opt' w]. now inversion Ho.
Qed.

Lemma foldlM_invariant {S A} (Inv : S -> Prop) (f : S -> A -> result S)
    (l : list A) (s s' : S) :
  (forall s a s', f s a = Ok s' -> Inv s -> Inv s') ->
  foldlM f s l = Ok s' -> Inv s -> Inv s'.
Proof.
  intros Hf. revert s. induction l as [|a l IH]; intros s H Hs.
  - inversion H. now subst.
  - simpl in H. destruct (bind_Ok _ _ _ H) as [s1 [H1 H2]].
    exact (IH _ H2 (Hf _ _ _ H1 Hs)).
Qed.

Lemma update_loop_numbers (ext : Externals) (self self' : PPO)
    (dist : option Dist) (rollouts : RolloutStorage) (st st' : Store)
    (m' : gmap string (list (option R))) :
  _aux_tasks self = [] ->
  update_loop ext self dist rollouts st = Ok (self', st', m') ->
  all_numbers m'.
Proof.
  intros Haux H. unfold update_loop in H.
  apply (foldlM_invariant
           (fun acc : PPO * Store * gmap string (list (option R)) =>
              _aux_tasks acc.1.1 = [] /\ all_numbers acc.2)) in H.
  - exact (proj2 H).
  - intros acc e acc' He Hacc. unfold update_epoch in He.
    apply (foldlM_invariant
             (fun acc : PPO * Store * gmap string (list (option R)) =>
                _aux_tasks acc.1.1 = [] /\ all_numbers acc.2)) in He;
      [exact He| |exact Hacc].
    intros [[s0 t0] m0] b [[s1 t1] m1] Hb [Ha Hm]. simpl in *.
    exact (update_from_batch_numbers _ _ _ _ _ _ _ _ _ _ _ Ha Hb Hm).
  - split; [exact Haux|]. intros k vs Hk. cbn [fst snd] in Hk. now rewrite lookup_empty in Hk.
Qed.

Lemma reduce_metric_numbers (vs : list (option R)) :
  Forall is_Some vs -> exists v, reduce_metric vs = Ok v.
Proof.
  intros H. unfold reduce_metric.
  assert (exists xs, mapM (from_option TypeError) vs = Ok xs) as [xs ->].
  { induction H as [|o vs [x ->] _ [xs IH]]; [now exists []|].
    exists (x :: xs). cbn.
    change (mapM (from_option TypeError) vs ≫= (fun k => mret (x :: k))
            = Ok (x :: xs)).
    now rewrite IH. }
  eexists. reflexivity.
Qed.

Lemma reduce_metrics_numbers (m : gmap string (list (option R))) :
  all_numbers m -> exists r, reduce_metrics m = Ok r.
Proof.
  intros Hm. unfold reduce_metrics.
  assert (Hl : Forall (fun kv : string * list (option R) => Forall is_Some kv.2)
                 (map_to_list m)).
  { apply Forall_forall. intros [k vs] Hin.
    apply elem_of_map_to_list in Hin. exact (Hm k vs Hin). }
  assert (exists kvs,
             mapM (fun kv : string * list (option R) =>
                     v ← reduce_metric kv.2; Ok (kv.1, v))
                  (map_to_list m) = Ok kvs) as [kvs ->].
  { induction Hl as [|kv l Hkv _ [kvs IH]]; [now exists []|].
    destruct (reduce_metric_numbers _ Hkv) as [v Hv].
    exists ((kv.1, v) :: kvs). cbn. rewrite Hv. cbn.
    change (mapM (fun kv : string * list (option R) =>
                    v ← reduce_metric kv.2; Ok (kv.1, v)) l
              ≫= (fun k => mret ((kv.1, v) :: k))
            = Ok ((kv.1, v) :: kvs)).
    now rewrite IH. }
  eexists. reflexivity.
Qed.

(** In a plain setting the whole of [update] returns. *)
Lemma update_plain_Ok (ext : Externals) (self : PPO) (dist : option Dist)
    (rollouts : RolloutStorage) (st : Store) :
  plain_setting ext self rollouts ->
  exists self' st' r, update ext self dist rollouts st = Ok (self', st', r).
Proof.
  intros Hself. unfold update.
  destruct (returns_with_Ok _ _
              (update_loop_plain_Ok ext self dist rollouts st Hself))
    as [[[self1 st1] m1] [Hrun Hplain]].
  pose proof (update_loop_numbers _ _ _ _ _ _ _ _
                (proj1 (proj2 (proj2 Hself))) Hrun) as Hm.
  rewrite Hrun, bind_ret.
  destruct (set_grads_to_none_Ok self1 st1 (proj1 Hplain)) as [st2 [-> _]].
  rewrite bind_ret.
  destruct (reduce_metrics_numbers _ Hm) as [r ->].
  rewrite bind_ret. eauto.
Qed.

Lemma update_returns_means_witness :
  exists (self' : PPO) (st' : Store) (r : gmap string R),
    update demo_externals demo_ppo None
      (demo_rollouts [Fin 2; Fin 0] [Fin 1; Fin 1]) demo_store
    = Ok (self', st', r) /\
    exists st1 learner_metrics,
      update_loop demo_externals demo_ppo None
        (demo_rollouts [Fin 2; Fin 0] [Fin 1; Fin 1]) demo_store
      = Ok (self', st1, learner_metrics) /\
      _set_grads_to_none self' st1 = Ok st' /\
      forall k : string,
        match learner_metrics !! k with
        | Some vs => exists xs, vs = map Some xs /\ r !! k = Some (tmean xs)
        | None => r !! k = None
        end.
Proof.
  destruct (update_plain_Ok demo_externals demo_ppo None
              (demo_rollouts [Fin 2; Fin 0] [Fin 1; Fin 1]) demo_store
              (demo_plain_setting _ _)) as (self' & st' & r & Hrun).
  exists self', st', r. split; [exact Hrun|].
  exact (update_returns_means _ _ _ _ _ _ _ _ Hrun).
Defined.

(** ** Gradient clipping in [before_step] *)

Lemma sumsq_scale (k : R) (a : list R) :
  tsum (map (fun x => x * x) (map (fun x => x * k) a))
  = k * k * tsum (map (fun x => x * x) a).
Proof.
  induction a as [|x a IH]; [simpl; ring|].
  rewrite !map_cons, !tsum_cons, IH. ring.
Qed.

Lemma sumsq_nonneg (a : list R) : 0 <= tsum (map (fun x => x * x) a).
Proof.
  induction a as [|x a IH]; [simpl; lra|].
  rewrite map_cons, tsum_cons. nra.
Qed.

Lemma total_sq_nonneg (gs : list (list R)) :
  0 <= tsum (map (fun g => tsum (map (fun x => x * x) g)) gs).
Proof.
  induction gs as [|g gs IH]; [simpl; lra|].
  rewrite map_cons, tsum_cons. pose proof (sumsq_nonneg g). lra.
Qed.

(** Scaling every gradient of a group by a factor of at most [b] scales the
    squared norm by at most [b * b]. *)
Lemma total_sq_scaled (b : R) (ps : list string) (g g' : gmap string (list R)) :
  (forall p, p ∈ ps ->
     exists k, 0 <= k <= b /\ g' !! p = map (fun x => x * k) <$> g !! p) ->
  tsum (map (fun a => tsum (map (fun x => x * x) a)) (omap (fun p => g' !! p) ps))
  <= b * b * tsum (map (fun a => tsum (map (fun x => x * x) a))
                       (omap (fun p => g !! p) ps)).
Proof.
  induction ps as [|p ps IH]; intros H.
  - simpl. lra.
  - assert (IH' := IH (fun q Hq => H q (list_elem_of_further _ _ _ Hq))).
    destruct (H p (list_elem_of_here _ _)) as [k [Hk Hp]].
    cbn [omap list_omap]. rewrite Hp.
    destruct (g !! p) as [a|]; cbn [fmap option_fmap option_map]; [|exact IH'].
    rewrite !map_cons, !tsum_cons, sumsq_scale.
    pose proof (sumsq_nonneg a) as Ha.
    assert (k * k <= b * b) by nra.
    nra.
Qed.

(** What the scaling loop of [clip_grad_norm_] does to one gradient: a
    factor between 0 and 1, at most the clip coefficient for a member of
    the group. *)
Lemma foldl_alter_scale (c : R) (qs : list string) (g : gmap string (list R))
    (p : string) :
  0 <= c <= 1 ->
  exists k, 0 <= k <= 1 /\ (p ∈ qs -> k <= c) /\
    foldl (fun g q => alter (map (fun x => x * c)) q g) g qs !! p
    = map (fun x => x * k) <$> g !! p.
Proof.
  intros Hc. revert g. induction qs as [|q qs IH]; intros g.
  - exists 1. split; [lra|]. split; [intros H; inversion H|].
    cbn. destruct (g !! p) as [a|]; [|reflexivity]. cbn. f_equal.
    induction a as [|x a IHa]; [reflexivity|].
    cbn. rewrite <- IHa. f_equal. lra.
  - cbn [foldl]. destruct (IH (alter (map (fun x => x * c)) q g)) as [k [Hk [Hin Hl]]].
    destruct (decide (q = p)) as [->|Hne].
    + exists (c * k). split; [nra|]. split; [intros _; nra|].
      rewrite Hl, lookup_alter_eq. destruct (g !! p) as [a|]; [|reflexivity].
      cbn. f_equal. rewrite map_map. apply map_ext. intros x. ring.
    + exists k. split; [exact Hk|]. split.
      * intros H. apply Hin. apply list_elem_of_In in H. destruct H as [H|H];
          [contradiction|now apply list_elem_of_In].
      * now rewrite Hl, lookup_alter_ne.
Qed.

Lemma clip_coef_bounds (max_norm n : R) :
  0 <= max_norm -> 0 <= n ->
  0 <= clamp_max (max_norm / (n + 1e-6)) 1 <= 1 /\
  clamp_max (max_norm / (n + 1e-6)) 1 * n <= max_norm.
Proof.
  intros Hm Hn. unfold clamp_max.
  assert (Hpos : 0 < n + 1e-6) by lra.
  assert (Hq : 0 <= max_norm / (n + 1e-6)).
  { apply Rmult_le_pos; [exact Hm|]. left. now apply Rinv_0_lt_compat. }
  assert (Hqn : max_norm / (n + 1e-6) * n <= max_norm).
  { assert (E : max_norm / (n + 1e-6) * (n + 1e-6) = max_norm) by (field; lra).
    nra. }
  pose proof (Rmin_l (max_norm / (n + 1e-6)) 1) as Hl.
  pose proof (Rmin_r (max_norm / (n + 1e-6)) 1) as Hr.
  assert (H0 : 0 <= Rmin (max_norm / (n + 1e-6)) 1).
  { apply Rmin_glb; lra. }
  split; [lra|]. nra.
Qed.

Lemma group_norm_nonneg (ps : list string) (st : Store) : 0 <= group_norm ps st.
Proof. apply sqrt_pos. Qed.

Lemma group_norm_agree (ps : list string) (st1 st2 : Store) :
  (forall p, p ∈ ps -> grad st1 !! p = grad st2 !! p) ->
  group_norm ps st1 = group_norm ps st2.
Proof.
  intros H. unfold group_norm. do 3 f_equal.
  induction ps as [|p ps IH]; [reflexivity|].
  cbn [omap list_omap]. rewrite (H p (list_elem_of_here _ _)).
  rewrite IH; [reflexivity|].
  intros q Hq. apply H. now apply list_elem_of_further.
Qed.

(** One call of [clip_grad_norm_]: the group it is given ends within the
    bound, and no group's norm grows. *)
Lemma clip_grad_norm_bound (ps : list string) (max_norm : R) (st : Store) :
  0 <= max_norm ->
  group_norm ps (clip_grad_norm_ ps max_norm st).1 <= max_norm /\
  forall qs, group_norm qs (clip_grad_norm_ ps max_norm st).1 <= group_norm qs st.
Proof.
  intros Hm.
  destruct (clip_coef_bounds max_norm (group_norm ps st) Hm (group_norm_nonneg _ _))
    as [Hc Hcn].
  set (c := clamp_max (max_norm / (group_norm ps st + 1e-6)) 1) in *.
  assert (Hgrad : grad (clip_grad_norm_ ps max_norm st).1
                  = foldl (fun g p => alter (map (fun x => x * c)) p g)
                          (grad st) ps) by reflexivity.
  split.
  - unfold group_norm at 1. rewrite Hgrad.
    apply Rle_trans with (c * group_norm ps st); [|exact Hcn].
    assert (E : forall s, c * sqrt s = sqrt (c * c * s)).
    { intros s. rewrite sqrt_mult_alt by nra. now rewrite sqrt_square by lra. }
    unfold group_norm. rewrite E.
    apply sqrt_le_1_alt. apply total_sq_scaled.
    intros p Hp. destruct (foldl_alter_scale c ps (grad st) p Hc) as [k [Hk [Hin Hl]]].
    exists k. split; [split; [lra|now apply Hin]|exact Hl].
  - intros qs. unfold group_norm at 1. rewrite Hgrad.
    unfold group_norm. apply sqrt_le_1_alt.
    match goal with |- _ <= ?r => replace r with (1 * 1 * r) by ring end.
    apply total_sq_scaled.
    intros p Hp. destruct (foldl_alter_scale c ps (grad st) p Hc) as [k [Hk [_ Hl]]].
    exists k. split; [exact Hk|exact Hl].
Qed.

Lemma clip_aux_shrinks (groups : list (string * list string)) (max_norm : R)
    (st : Store) (qs : list string) :
  0 <= max_norm ->
  group_norm qs (foldl (fun st (v : string * list string) =>
                          (clip_grad_norm_ (ac_names v.2) max_norm st).1)
                       st groups)
  <= group_norm qs st.
Proof.
  intros Hm. revert st. induction groups as [|v groups IH]; intros st.
  - simpl. lra.
  - cbn [foldl]. eapply Rle_trans; [apply IH|].
    apply (clip_grad_norm_bound (ac_names v.2) max_norm st Hm).
Qed.

Lemma clip_aux_bound (groups : list (string * list string)) (max_norm : R)
    (st : Store) (v : string * list string) :
  0 <= max_norm -> v ∈ groups ->
  group_norm (ac_names v.2)
    (foldl (fun st (v : string * list string) =>
              (clip_grad_norm_ (ac_names v.2) max_norm st).1)
           st groups)
  <= max_norm.
Proof.
  intros Hm. revert st. induction groups as [|u groups IH]; intros st Hv.
  - inversion Hv.
  - cbn [foldl]. apply list_elem_of_In in Hv. destruct Hv as [->|Hv].
    + eapply Rle_trans; [apply clip_aux_shrinks, Hm|].
      apply (clip_grad_norm_bound (ac_names v.2) max_norm st Hm).
    + apply IH. now apply list_elem_of_In.
Qed.

(** X16. With a non-negative [max_grad_norm], [before_step] returns the
    2-norm the policy's gradients had on entry, and leaves the gradients of
    the policy group, and of every auxiliary group, with a 2-norm of at most
    [max_grad_norm]; the policy group's norm never grows.  This holds with
    and without a process group. *)
Theorem before_step_clips_gradients (self : PPO) (dist : option Dist)
    (st : Store) :
  0 <= max_grad_norm self ->
  non_ac_params_ok self ->
  let policy := ac_names (policy_parameters (actor_critic self)) in
  let r := before_step self dist st in
  r.2 = group_norm policy st /\
  group_norm policy r.1 <= max_grad_norm self /\
  group_norm policy r.1 <= group_norm policy st /\
  forall v, v ∈ aux_loss_parameters (actor_critic self) ->
    group_norm (ac_names v.2) r.1 <= max_grad_norm self.
Proof.
  intros Hm Hok policy r.
  assert (Hlocal :
    let r := before_step self None st in
    r.2 = group_norm policy st /\
    group_norm policy r.1 <= max_grad_norm self /\
    group_norm policy r.1 <= group_norm policy st /\
    forall v, v ∈ aux_loss_parameters (actor_critic self) ->
      group_norm (ac_names v.2) r.1 <= max_grad_norm self).
  { rewrite before_step_local. cbn [fst snd].
    destruct (clip_grad_norm_bound policy (max_grad_norm self) st Hm) as [Hb Hs].
    split; [reflexivity|]. split; [|split].
    - eapply Rle_trans; [apply clip_aux_shrinks, Hm|exact Hb].
    - eapply Rle_trans; [apply clip_aux_shrinks, Hm|apply Hs].
    - intros v Hv. now apply clip_aux_bound. }
  destruct dist as [d|]; [|exact Hlocal].
  destruct (before_step_ac self d st Hok) as [Hn Hg].
  assert (Heq : forall ps, group_norm (ac_names ps) r.1
                           = group_norm (ac_names ps) (before_step self None st).1).
  { intros ps. apply group_norm_agree. intros p Hp.
    apply Hg. now apply ac_names_prefixed in Hp. }
  unfold r at 1. rewrite Hn. unfold policy. rewrite !Heq.
  destruct Hlocal as (H1 & H2 & H3 & H4).
  repeat split; try assumption.
  intros v Hv. rewrite Heq. now apply H4.
Qed.

Lemma before_step_clips_gradients_witness :
  let policy := ac_names (policy_parameters (actor_critic demo_attentive_ppo)) in
  let r := before_step demo_attentive_ppo None (demo_rank_store [1]) in
  0 <= max_grad_norm demo_attentive_ppo /\
  r.2 = group_norm policy (demo_rank_store [1]) /\
  group_norm policy r.1 <= max_grad_norm demo_attentive_ppo /\
  group_norm policy r.1 <= group_norm policy (demo_rank_store [1]) /\
  forall v, v ∈ aux_loss_parameters (actor_critic demo_attentive_ppo) ->
    group_norm (ac_names v.2) r.1 <= max_grad_norm demo_attentive_ppo.
Proof.
  assert (Hm : 0 <= max_grad_norm demo_attentive_ppo).
  { change (0 <= 0.2). lra. }
  split; [exact Hm|].
  exact (before_step_clips_gradients demo_attentive_ppo None (demo_rank_store [1])
           Hm (from_config_non_ac_params_ok _ _ _ _ _)).
Defined.

(** ** The order of the steps of one minibatch update *)

(** X17. A minibatch update that returns has done, in this order and
    nothing else that touches the parameters: reset the gradients, one
    backward pass, the reductions, clippings and waits of [before_step], one
    optimizer step, and then the projection of the entropy coefficient into
    its bounds, the latter exactly when the coefficient is adaptive. *)
Theorem update_from_batch_order (ext : Externals) (self self' : PPO)
    (dist : option Dist) (batch : Batch) (epoch : Z)
    (rollouts : RolloutStorage) (m m' : gmap string (list (option R)))
    (st st' : Store) :
  non_ac_params_ok self ->
  _update_from_batch ext self dist batch epoch rollouts m st = Ok (self', st', m') ->
  exists st1,
    _set_grads_to_none self st = Ok st1 /\
    new_events st st'
    = [EvSetGradsToNone; EvBackward]
      ++ before_step_events self
           match dist with
           | Some d => issued d (run_backward ext self batch st1) (non_ac_params self)
           | None => []
           end
      ++ [EvOptimizerStep]
      ++ match entropy_coef self with
         | AdaptiveCoef _ => [EvProjectIntoBounds]
         | FixedCoef _ => []
         end.
Proof.
  intros Hok. unfold _update_from_batch. intros H.
  destruct (bind_Ok _ _ _ H) as [st1 [Hst1 H1]]. clear H.
  exists st1. split; [exact Hst1|].
  assert (Hlog1 : log st1 = log st ++ [EvSetGradsToNone]).
  { unfold _set_grads_to_none in Hst1.
    destruct (bind_Ok _ _ _ Hst1) as [opt [_ Ho]]. now inversion Ho. }
  destruct (bind_Ok _ _ _ H1) as [ev [_ H2]]. clear H1.
  destruct (reduced_losses self batch ev) as [[action_loss value_loss] dist_entropy].
  destruct (bind_Ok _ _ _ H2) as [aux_losses [_ H3]]. clear H2.
  destruct (bind_Ok _ _ _ H3) as [all_losses [_ H4]]. clear H3.
  cbv zeta in H4.
  set (sb := run_backward ext self batch st1) in *.
  assert (Hlogb : log sb = log st ++ [EvSetGradsToNone; EvBackward]).
  { unfold sb, run_backward. cbn. rewrite Hlog1, <- app_assoc. reflexivity. }
  set (hs := match dist with
             | Some d => issued d sb (non_ac_params self)
             | None => []
             end).
  assert (Hbs : log (before_step self dist sb).1
                = log sb ++ before_step_events self hs).
  { unfold hs. destruct dist as [d|].
    - now apply before_step_log_dist.
    - apply before_step_log_local. }
  clearbody hs.
  destruct (before_step self dist sb) as [st2 grad_norm]. cbn [fst] in Hbs.
  destruct (bind_Ok _ _ _ H4) as [[self1 st3] [Hstep H5]]. clear H4.
  destruct (bind_Ok _ _ _ H5) as [m1 [_ H6]]. clear H5.
  inversion H6; subst. clear H6.
  unfold optimizer_step in Hstep.
  destruct (bind_Ok _ _ _ Hstep) as [opt [_ Ho]].
  destruct (step ext opt (data st2) (grad st2)) as [opt' w]. inversion Ho; subst.
  unfold new_events, after_step. cbn [entropy_coef set_optimizer].
  destruct (entropy_coef self) as [c|l]; cbn [log emit];
    rewrite Hbs, Hlogb, <- !app_assoc; apply drop_app_length.
Qed.

Lemma update_from_batch_order_witness :
  exists (self' : PPO) (st' : Store) (m' : gmap string (list (option R))),
    _update_from_batch demo_externals demo_ppo None (demo_batch None) 1
      (demo_rollouts [Fin 2; Fin 0] [Fin 1; Fin 1]) ∅ demo_store
    = Ok (self', st', m') /\
    exists st1,
      _set_grads_to_none demo_ppo demo_store = Ok st1 /\
      new_events demo_store st'
      = [EvSetGradsToNone; EvBackward]
        ++ before_step_events demo_ppo []
        ++ [EvOptimizerStep]
        ++ match entropy_coef demo_ppo with
           | AdaptiveCoef _ => [EvProjectIntoBounds]
           | FixedCoef _ => []
           end.
Proof.
  destruct (returns_with_Ok _ _
              (update_from_batch_plain_Ok demo_externals demo_ppo None
                 (demo_batch None) 1
                 (demo_rollouts [Fin 2; Fin 0] [Fin 1; Fin 1]) ∅ demo_store
                 (demo_plain_setting _ _)))
    as [[[self' st'] m'] [Hrun _]].
  exists self', st', m'. split; [exact Hrun|].
  exact (update_from_batch_order demo_externals demo_ppo _ None _ _ _ _ _ _ _
           (from_config_non_ac_params_ok _ _ _ _ _) Hrun).
Defined.

(** ** A clip fraction of zero *)

Lemma clipped_indicators_zero (c : R) (ratio : list R) :
  0 <= c ->
  tsum (map (fun r => lt_float (1 + c) r) ratio)
  + tsum (map (fun r => lt_float r (1 - c)) ratio) = 0
  <-> Forall (fun r => 1 - c <= r <= 1 + c) ratio.
Proof.
  intros Hc. induction ratio as [|r ratio IH].
  - simpl. split; [constructor|lra].
  - rewrite !map_cons, !tsum_cons.
    pose proof (clipped_indicators_bound c ratio Hc) as [Hs _].
    assert (Hr : 0 <= lt_float (1 + c) r + lt_float r (1 - c) /\
                 (lt_float (1 + c) r + lt_float r (1 - c) = 0
                  <-> 1 - c <= r <= 1 + c)).
    { unfold lt_float.
      destruct (Rlt_dec (1 + c) r), (Rlt_dec r (1 - c)); split; try lra;
        split; intros; lra. }
    destruct Hr as [Hr0 Hr]. split.
    + intros H. constructor; [apply Hr; lra|apply IH; lra].
    + intros H. inversion H as [|x l Hx Hl]; subst.
      apply Hr in Hx. apply IH in Hl. lra.
Qed.

Lemma action_loss_elem_inside (c a r : R) :
  1 - c <= r <= 1 + c -> action_loss_elem c a r = - (a * r).
Proof.
  intros Hr. unfold action_loss_elem, clamp.
  rewrite Rmax_left by lra. rewrite (Rmin_left r (1 + c)) by lra.
  now rewrite Rmin_left by lra.
Qed.

(** X18. For a clip width that is not negative and a non-empty batch, the
    clip fraction is zero exactly when every ratio lies within
    [1 - clip, 1 + clip]; the action loss of such a batch is the unclipped
    [-(advantage * ratio)] in every sample. *)
Theorem zero_clip_fraction_unclipped (clip : R) (ratio : list R) :
  0 <= clip -> ratio <> [] ->
  (fraction_clipped clip ratio = 0
   <-> Forall (fun r => 1 - clip <= r <= 1 + clip) ratio) /\
  (fraction_clipped clip ratio = 0 ->
   forall advantages,
     action_loss_of clip advantages ratio
     = zip_with (fun a r => - (a * r)) advantages ratio).
Proof.
  intros Hc Hne.
  assert (Hn : 0 < INR (length ratio)).
  { apply lt_0_INR. destruct ratio; [contradiction|simpl; lia]. }
  assert (Hiff : fraction_clipped clip ratio = 0
                 <-> Forall (fun r => 1 - clip <= r <= 1 + clip) ratio).
  { rewrite <- (clipped_indicators_zero clip ratio Hc).
    unfold fraction_clipped, tmean. rewrite !length_map.
    rewrite <- Rdiv_plus_distr. split.
    - intros H. apply (Rmult_eq_reg_r (/ INR (length ratio))).
      + rewrite Rmult_0_l. exact H.
      + apply Rinv_neq_0_compat. lra.
    - intros ->. unfold Rdiv. apply Rmult_0_l. }
  split; [exact Hiff|].
  intros H advantages. apply Hiff in H. clear Hiff Hne Hn.
  unfold action_loss_of. revert advantages.
  induction H as [|r ratio Hr _ IH]; intros [|a advantages]; try reflexivity.
  cbn [zip_with]. now rewrite IH, action_loss_elem_inside.
Qed.

Lemma zero_clip_fraction_unclipped_witness :
  (fraction_clipped 0.2 [1.1; 0.9] = 0
   <-> Forall (fun r => 1 - 0.2 <= r <= 1 + 0.2) [1.1; 0.9]) /\
  (fraction_clipped 0.2 [1.1; 0.9] = 0 ->
   forall advantages,
     action_loss_of 0.2 advantages [1.1; 0.9]
     = zip_with (fun a r => - (a * r)) advantages [1.1; 0.9]).
Proof.
  apply (zero_clip_fraction_unclipped 0.2 [1.1; 0.9]); [lra|discriminate].
Defined.
